(** * Fixed-heap allocator and serial-memory chip drivers

    A shallow embedding of [allocator/alloc.h], [chip/src/25LC040A.cpp]
    and [chip/src/W25Q128.cpp], with the properties of the repository's
    specification proved (or refuted) over it.

    Conventions of the embedding.
    - Unsigned C integers are [Z] values; every place where the C type
      wraps is written out ([u16], [u32], [size_t]).
    - The static arrays [heap] and [page_table] are lists updated by index.
    - A [uint8_t*] that points into [heap] is kept as the index of the byte
      it points to ([&heap[i]] is [i]).  [heap_base] is the address of
      [heap[0]]: it is added where a pointer leaves the allocator as a
      [void*] and subtracted where one enters [custom_free].
    - [size_t] is [size_bits] wide; nothing below fixes the width. *)

From Stdlib Require Import ZArith Lia List Bool.
From stdpp Require Import base list numbers.

Local Open Scope Z_scope.

(** ** Integer types of the C and C++ sources *)

Definition u8 (z : Z) : Z := z mod 256.
Definition u16 (z : Z) : Z := z mod 65536.
Definition u32 (z : Z) : Z := z mod 4294967296.

Definition UINT16_MAX : Z := 65535.

Module Alloc.

(** ** alloc.h: constants *)

Definition HEAP_SIZE : Z := 64 * 1024.
Definition PAGE_SIZE : Z := 1024.
Definition PAGE_SHIFT : Z := 10.
Definition PAGE_HEADER_SIZE : Z := 16.
Definition BLOCK_SMALL : Z := 15.
Definition BLOCK_BIG : Z := 180.
Definition ALIGNED_BLOCK_SMALL : Z := 16.
Definition ALIGNED_BLOCK_BIG : Z := 192.
Definition SMALL_SEGMENTS : Z := (PAGE_SIZE - PAGE_HEADER_SIZE) / ALIGNED_BLOCK_SMALL.
Definition BIG_SEGMENTS : Z := (PAGE_SIZE - PAGE_HEADER_SIZE) / ALIGNED_BLOCK_BIG.
Definition PAGE_COUNT : Z := HEAP_SIZE / PAGE_SIZE.

Definition NULL : Z := 0.

(** ** alloc.h: data *)

Inductive page_type_t : Set := PAGE_FREE | PAGE_SMALL | PAGE_BIG.

Definition page_type_eqb (a b : page_type_t) : bool :=
  match a, b with
  | PAGE_FREE, PAGE_FREE | PAGE_SMALL, PAGE_SMALL | PAGE_BIG, PAGE_BIG => true
  | _, _ => false
  end.

Record h_page : Set := mk_h_page { used_segments : Z; type : page_type_t }.

#[global] Instance h_page_inhabited : Inhabited h_page :=
  populate (mk_h_page 0 PAGE_FREE).

(** The two static arrays. *)
Record state : Set := mk_state { heap : list Z; page_table : list h_page }.

(** [p[i]] and [p[i] = v] for a pointer [p] into [heap]. *)
Definition load (hp : list Z) (i : Z) : Z := hp !!! Z.to_nat i.
Definition store (hp : list Z) (i : Z) (v : Z) : list Z := <[Z.to_nat i := v]> hp.

(** [page_table[i]] and assignments to its two fields. *)
Definition entry (st : state) (page_index : Z) : h_page :=
  page_table st !!! Z.to_nat page_index.

Definition set_type (st : state) (page_index : Z) (t : page_type_t) : state :=
  mk_state (heap st)
    (<[Z.to_nat page_index := mk_h_page (used_segments (entry st page_index)) t]>
       (page_table st)).

Definition set_used (st : state) (page_index : Z) (u : Z) : state :=
  mk_state (heap st)
    (<[Z.to_nat page_index := mk_h_page u (type (entry st page_index))]>
       (page_table st)).

Definition set_heap (st : state) (hp : list Z) : state :=
  mk_state hp (page_table st).

(** ** alloc.h: address helpers *)

Definition page_base_addr (page_index : Z) : Z := Z.shiftl page_index PAGE_SHIFT.
Definition page_header_addr (page_index : Z) : Z := page_base_addr page_index.
Definition page_data_addr (page_index : Z) : Z :=
  page_base_addr page_index + PAGE_HEADER_SIZE.

(** ** alloc.h: bitmap primitives *)

(** The loop [for (i = 0; i < bit_count; i++)], with [remaining] iterations
    still to run. *)
Fixpoint find_free_block_from (hp : list Z) (bitmap : Z) (remaining : nat) (i : Z) : Z :=
  match remaining with
  | O => UINT16_MAX
  | S r =>
      let byte := load hp (bitmap + Z.shiftr i 3) in
      let mask := u8 (Z.shiftl 1 (Z.land i 7)) in
      if Z.land byte mask =? 0 then i
      else find_free_block_from hp bitmap r (u16 (i + 1))
  end.

Definition find_free_block (hp : list Z) (bitmap : Z) (bit_count : Z) : Z :=
  find_free_block_from hp bitmap (Z.to_nat bit_count) 0.

Definition bitmap_set (hp : list Z) (bitmap : Z) (index : Z) : list Z :=
  let a := bitmap + Z.shiftr index 3 in
  store hp a (u8 (Z.lor (load hp a) (Z.shiftl 1 (Z.land index 7)))).

Definition bitmap_clear (hp : list Z) (bitmap : Z) (index : Z) : list Z :=
  let a := bitmap + Z.shiftr index 3 in
  store hp a (u8 (Z.land (load hp a) (Z.lnot (Z.shiftl 1 (Z.land index 7))))).

Definition bitmap_is_set (hp : list Z) (bitmap : Z) (index : Z) : bool :=
  negb (Z.land (load hp (bitmap + Z.shiftr index 3)) (Z.shiftl 1 (Z.land index 7)) =? 0).

(** [memset(p, c, n)] on the heap. *)
Fixpoint memset (hp : list Z) (p : Z) (c : Z) (n : nat) : list Z :=
  match n with
  | O => hp
  | S k => memset (store hp p (u8 c)) (p + 1) c k
  end.

(** ** alloc.h: page state changes *)

Definition page_set_free (st : state) (page_index : Z) : state :=
  let st1 := set_type st page_index PAGE_FREE in
  let st2 := set_used st1 page_index 0 in
  set_heap st2 (memset (heap st2) (page_header_addr page_index) 0
                  (Z.to_nat PAGE_HEADER_SIZE)).

Definition page_set_small (st : state) (page_index : Z) : state :=
  set_used (set_type st page_index PAGE_SMALL) page_index 0.

Definition page_set_big (st : state) (page_index : Z) : state :=
  set_used (set_type st page_index PAGE_BIG) page_index 0.

(** The loop of [alloc_init], [remaining] pages from page [i] on. *)
Fixpoint alloc_init_from (st : state) (remaining : nat) (i : Z) : state :=
  match remaining with
  | O => st
  | S r => alloc_init_from (page_set_free st i) r (i + 1)
  end.

Definition alloc_init (st : state) : state :=
  alloc_init_from st (Z.to_nat PAGE_COUNT) 0.

(** Slot count and slot size of a page class. *)
Definition segments_of (t : page_type_t) : Z :=
  match t with
  | PAGE_FREE => 0
  | PAGE_SMALL => SMALL_SEGMENTS
  | PAGE_BIG => BIG_SEGMENTS
  end.

Definition slot_size_of (t : page_type_t) : Z :=
  match t with
  | PAGE_FREE => 0
  | PAGE_SMALL => ALIGNED_BLOCK_SMALL
  | PAGE_BIG => ALIGNED_BLOCK_BIG
  end.

(** The three state changes of the allocator, as the code performs them:
    claiming slot [free_block] of a partly used page, claiming slot 0 of a
    free page for class [t], and giving back slot [bit_index]. *)
Definition take_slot (st : state) (page free_block : Z) : state :=
  let st1 := set_heap st (bitmap_set (heap st) (page_header_addr page) free_block) in
  set_used st1 page (u16 (used_segments (entry st1 page) + 1)).

Definition open_page (st : state) (page : Z) (t : page_type_t) : state :=
  let st1 := set_used (set_type st page t) page 0 in
  let st2 := set_heap st1 (bitmap_set (heap st1) (page_header_addr page) 0) in
  set_used st2 page 1.

Definition release_slot (st : state) (page bit_index : Z) : state :=
  let st1 := set_heap st (bitmap_clear (heap st) (page_header_addr page) bit_index) in
  let st2 := set_used st1 page (u16 (used_segments (entry st1 page) - 1)) in
  if used_segments (entry st2 page) =? 0 then page_set_free st2 page else st2.

(** A page of class [t] with room, as the first loop of the allocation
    functions tests it. *)
Definition has_room (st : state) (t : page_type_t) (page : Z) : bool :=
  page_type_eqb (type (entry st page)) t
  && (used_segments (entry st page) <? segments_of t)
  && negb (find_free_block (heap st) (page_header_addr page) (segments_of t)
           =? UINT16_MAX).

Section Allocator.

(** Address of [heap[0]] and width of [size_t]. *)
Variable heap_base : Z.
Variable size_bits : nat.

Definition size_t (z : Z) : Z := z mod 2 ^ Z.of_nat size_bits.

(** The address a heap pointer has as a [void*]. *)
Definition addr_of (p : Z) : Z := heap_base + p.

(** ** alloc.h: alloc_small *)

(** First loop of [alloc_small]: [None] when the loop ends without a
    [return]. *)
Fixpoint alloc_small_partial (st : state) (remaining : nat) (page : Z)
  : option (Z * state) :=
  match remaining with
  | O => None
  | S r =>
      if page_type_eqb (type (entry st page)) PAGE_SMALL
         && (used_segments (entry st page) <? SMALL_SEGMENTS)
      then
        let bitmap := page_header_addr page in
        let free_block := find_free_block (heap st) bitmap SMALL_SEGMENTS in
        if negb (free_block =? UINT16_MAX) then
          let st1 := set_heap st (bitmap_set (heap st) bitmap free_block) in
          let st2 := set_used st1 page (u16 (used_segments (entry st1 page) + 1)) in
          Some (addr_of (page_data_addr page + free_block * ALIGNED_BLOCK_SMALL), st2)
        else alloc_small_partial st r (page + 1)
      else alloc_small_partial st r (page + 1)
  end.

(** Second loop of [alloc_small]. *)
Fixpoint alloc_small_fresh (st : state) (remaining : nat) (page : Z)
  : option (Z * state) :=
  match remaining with
  | O => None
  | S r =>
      if page_type_eqb (type (entry st page)) PAGE_FREE then
        let st1 := page_set_small st page in
        let bitmap := page_header_addr page in
        let st2 := set_heap st1 (bitmap_set (heap st1) bitmap 0) in
        let st3 := set_used st2 page 1 in
        Some (addr_of (page_data_addr page), st3)
      else alloc_small_fresh st r (page + 1)
  end.

Definition alloc_small (st : state) : Z * state :=
  match alloc_small_partial st (Z.to_nat PAGE_COUNT) 0 with
  | Some r => r
  | None =>
      match alloc_small_fresh st (Z.to_nat PAGE_COUNT) 0 with
      | Some r => r
      | None => (NULL, st)
      end
  end.

(** ** alloc.h: alloc_big *)

Fixpoint alloc_big_partial (st : state) (remaining : nat) (page : Z)
  : option (Z * state) :=
  match remaining with
  | O => None
  | S r =>
      if page_type_eqb (type (entry st page)) PAGE_BIG
         && (used_segments (entry st page) <? BIG_SEGMENTS)
      then
        let bitmap := page_header_addr page in
        let free_block := find_free_block (heap st) bitmap BIG_SEGMENTS in
        if negb (free_block =? UINT16_MAX) then
          let st1 := set_heap st (bitmap_set (heap st) bitmap free_block) in
          let st2 := set_used st1 page (u16 (used_segments (entry st1 page) + 1)) in
          Some (addr_of (page_data_addr page + free_block * ALIGNED_BLOCK_BIG), st2)
        else alloc_big_partial st r (page + 1)
      else alloc_big_partial st r (page + 1)
  end.

Fixpoint alloc_big_fresh (st : state) (remaining : nat) (page : Z)
  : option (Z * state) :=
  match remaining with
  | O => None
  | S r =>
      if page_type_eqb (type (entry st page)) PAGE_FREE then
        let st1 := page_set_big st page in
        let bitmap := page_header_addr page in
        let st2 := set_heap st1 (bitmap_set (heap st1) bitmap 0) in
        let st3 := set_used st2 page 1 in
        Some (addr_of (page_data_addr page), st3)
      else alloc_big_fresh st r (page + 1)
  end.

Definition alloc_big (st : state) : Z * state :=
  match alloc_big_partial st (Z.to_nat PAGE_COUNT) 0 with
  | Some r => r
  | None =>
      match alloc_big_fresh st (Z.to_nat PAGE_COUNT) 0 with
      | Some r => r
      | None => (NULL, st)
      end
  end.

(** [alloc_small] and [alloc_big] are one scan, up to the class [t] of
    the page: the first loop takes the lowest free slot of the first page
    of the class with room, the second opens the first free page. *)
Fixpoint alloc_partial (t : page_type_t) (st : state) (remaining : nat) (page : Z)
  : option (Z * state) :=
  match remaining with
  | O => None
  | S r =>
      if has_room st t page then
        let free_block :=
          find_free_block (heap st) (page_header_addr page) (segments_of t) in
        Some (addr_of (page_data_addr page + free_block * slot_size_of t),
              take_slot st page free_block)
      else alloc_partial t st r (page + 1)
  end.

Fixpoint alloc_fresh (t : page_type_t) (st : state) (remaining : nat) (page : Z)
  : option (Z * state) :=
  match remaining with
  | O => None
  | S r =>
      if page_type_eqb (type (entry st page)) PAGE_FREE
      then Some (addr_of (page_data_addr page), open_page st page t)
      else alloc_fresh t st r (page + 1)
  end.

Definition alloc_class (t : page_type_t) (st : state) : Z * state :=
  match alloc_partial t st (Z.to_nat PAGE_COUNT) 0 with
  | Some r => r
  | None =>
      match alloc_fresh t st (Z.to_nat PAGE_COUNT) 0 with
      | Some r => r
      | None => (NULL, st)
      end
  end.

(** ** alloc.h: custom_malloc *)

Definition custom_malloc (st : state) (size : Z) : Z * state :=
  if size =? 0 then (NULL, st)
  else if size <=? BLOCK_SMALL then alloc_small st
  else if size <=? BLOCK_BIG then alloc_big st
  else (NULL, st).

(** ** alloc.h: custom_free *)

(** The body shared, word for word up to the two constants, by the
    [PAGE_SMALL] and the [PAGE_BIG] branch of [custom_free]. *)
Definition free_in_page (st : state) (pointer page_index : Z)
    (aligned_block segments : Z) : state :=
  let offset_in_page := size_t (pointer - addr_of (page_data_addr page_index)) in
  if negb (offset_in_page mod aligned_block =? 0) then st
  else
    let bit_index := offset_in_page / aligned_block in
    if bit_index >=? segments then st
    else
      let bitmap := page_header_addr page_index in
      if negb (bitmap_is_set (heap st) bitmap (u16 bit_index)) then st
      else
        let st1 := set_heap st (bitmap_clear (heap st) bitmap (u16 bit_index)) in
        let st2 := set_used st1 page_index
                     (u16 (used_segments (entry st1 page_index) - 1)) in
        if used_segments (entry st2 page_index) =? 0
        then page_set_free st2 page_index
        else st2.

Definition custom_free (st : state) (ptr : Z) : state :=
  let pointer := ptr in
  if (pointer =? NULL) || (pointer <? addr_of 0)
     || (pointer >=? addr_of HEAP_SIZE)
  then st
  else
    let offset := pointer - addr_of 0 in
    let page_index := Z.shiftr offset PAGE_SHIFT in
    if used_segments (entry st page_index) =? 0 then st
    else
      match type (entry st page_index) with
      | PAGE_SMALL =>
          free_in_page st pointer page_index ALIGNED_BLOCK_SMALL SMALL_SEGMENTS
      | PAGE_BIG =>
          free_in_page st pointer page_index ALIGNED_BLOCK_BIG BIG_SEGMENTS
      | PAGE_FREE => st
      end.

End Allocator.

(** Static storage before [alloc_init] runs: all bytes zero. *)
Definition zero_state : state :=
  mk_state (replicate (Z.to_nat HEAP_SIZE) 0)
           (replicate (Z.to_nat PAGE_COUNT) (mk_h_page 0 PAGE_FREE)).

(** ** Vocabulary of the allocator's specification *)

(** Both arrays have their declared sizes. *)
Definition well_sized (st : state) : Prop :=
  Z.of_nat (length (heap st)) = HEAP_SIZE
  /\ Z.of_nat (length (page_table st)) = PAGE_COUNT.

(** Number of [i < n] with [f i]. *)
Fixpoint count (f : Z -> bool) (n : nat) : Z :=
  match n with
  | O => 0
  | S k => count f k + (if f (Z.of_nat k) then 1 else 0)
  end.

(** Population count of bits [0 .. n) of the bitmap at [bitmap]. *)
Definition popcount (hp : list Z) (bitmap : Z) (n : Z) : Z :=
  count (bitmap_is_set hp bitmap) (Z.to_nat n).

(** All [PAGE_HEADER_SIZE] bytes of the header of a page are zero. *)
Definition header_zero (st : state) (page_index : Z) : Prop :=
  forall k, 0 <= k < PAGE_HEADER_SIZE ->
    load (heap st) (page_header_addr page_index + k) = 0.

(** Invariants 1 and 2 of the data model, for one page. *)
Definition page_consistent (st : state) (page_index : Z) : Prop :=
  match type (entry st page_index) with
  | PAGE_FREE =>
      used_segments (entry st page_index) = 0 /\ header_zero st page_index
  | PAGE_SMALL =>
      used_segments (entry st page_index)
      = popcount (heap st) (page_header_addr page_index) SMALL_SEGMENTS
  | PAGE_BIG =>
      used_segments (entry st page_index)
      = popcount (heap st) (page_header_addr page_index) BIG_SEGMENTS
  end.

Definition consistent (st : state) : Prop :=
  well_sized st
  /\ forall page_index, 0 <= page_index < PAGE_COUNT -> page_consistent st page_index.

(** States the allocator can be in: [alloc_init] on any storage of the
    declared sizes, then any calls of [custom_malloc] and [custom_free]. *)
Inductive reachable (heap_base : Z) (size_bits : nat) : state -> Prop :=
| reach_init st0 :
    well_sized st0 -> reachable heap_base size_bits (alloc_init st0)
| reach_malloc st size :
    reachable heap_base size_bits st ->
    reachable heap_base size_bits (snd (custom_malloc heap_base st size))
| reach_free st ptr :
    reachable heap_base size_bits st ->
    reachable heap_base size_bits (custom_free heap_base size_bits st ptr).

(** Every page that is not free has a slot in use, and every header byte
    is a byte. *)
Definition live_pages (st : state) : Prop :=
  forall p, 0 <= p < PAGE_COUNT ->
    type (entry st p) <> PAGE_FREE -> 1 <= used_segments (entry st p).

Definition header_bytes (st : state) : Prop :=
  forall p k, 0 <= p < PAGE_COUNT -> 0 <= k < PAGE_HEADER_SIZE ->
    0 <= load (heap st) (page_header_addr p + k) < 256.

Definition tidy (st : state) : Prop :=
  consistent st /\ live_pages st /\ header_bytes st.

(** Sum of [used_segments] over the page table. *)
Fixpoint total_used (pt : list h_page) : Z :=
  match pt with
  | [] => 0
  | e :: pt' => used_segments e + total_used pt'
  end.

(** Only pages of class [t] and free pages, with [k] slots in use in all. *)
Definition class_phase (t : page_type_t) (k : Z) (st : state) : Prop :=
  consistent st
  /\ (forall p, 0 <= p < PAGE_COUNT ->
        type (entry st p) = t \/ type (entry st p) = PAGE_FREE)
  /\ total_used (page_table st) = k.

(** Only small and free pages, with [k] slots in use in all. *)
Definition small_phase (k : Z) (st : state) : Prop :=
  consistent st
  /\ (forall p, 0 <= p < PAGE_COUNT -> type (entry st p) <> PAGE_BIG)
  /\ total_used (page_table st) = k.

(** Pointers returned by successive [custom_malloc] calls, one per size. *)
Fixpoint malloc_seq (heap_base : Z) (st : state) (sizes : list Z) : list Z :=
  match sizes with
  | [] => []
  | size :: rest =>
      let r := custom_malloc heap_base st size in
      fst r :: malloc_seq heap_base (snd r) rest
  end.

End Alloc.

Module Bus.

(** ** Driver.h: the three operations of [IDriver] *)

Class IDriver (D : Type) : Type := {
  select : D -> D;
  deselect : D -> D;
  transfer : Z -> D -> Z * D
}.

(** What crosses the bus: chip select falling and rising, and one byte
    out with the byte that came in. *)
Inductive event : Set :=
| Select
| Deselect
| Transfer (out inp : Z).

(** A driver object together with the record of its calls. *)
Record bus (D : Type) : Type := mk_bus { device : D; log : list event }.

Arguments mk_bus {D} _ _.
Arguments device {D} _.
Arguments log {D} _.

Section Calls.
Context {D : Type} `{IDriver D}.

Definition bus_select (b : bus D) : bus D :=
  mk_bus (select (device b)) (log b ++ [Select]).

Definition bus_deselect (b : bus D) : bus D :=
  mk_bus (deselect (device b)) (log b ++ [Deselect]).

(** [transfer] returns a [uint8_t]. *)
Definition bus_transfer (byte : Z) (b : bus D) : Z * bus D :=
  let r := transfer byte (device b) in
  (u8 (fst r), mk_bus (snd r) (log b ++ [Transfer byte (u8 (fst r))])).

End Calls.

(** ** example.cpp: the [Driver] of the example, which answers 0b00000010
    to every byte *)

Inductive Driver : Set := the_Driver.

#[global] Instance Driver_IDriver : IDriver Driver := {
  select d := d;
  deselect d := d;
  transfer _ d := (2, d)
}.

(** A driver that answers with the bytes of a script, in order, and with
    zero once the script has run out. *)
#[global] Instance script_IDriver : IDriver (list Z) := {
  select d := d;
  deselect d := d;
  transfer _ d := match d with [] => (0, []) | r :: d' => (r, d') end
}.

(** ** The outgoing side of the log *)

Inductive bus_op : Set :=
| CS_LOW
| CS_HIGH
| OUT (byte : Z).

Definition op_of (e : event) : bus_op :=
  match e with
  | Select => CS_LOW
  | Deselect => CS_HIGH
  | Transfer out _ => OUT out
  end.

Definition ops {D : Type} (b : bus D) : list bus_op := map op_of (log b).

(** One frame: chip select low, the bytes, chip select high. *)
Definition frame (bytes : list Z) : list bus_op :=
  CS_LOW :: map OUT bytes ++ [CS_HIGH].

End Bus.

Module EEPROM.
Import Bus.

(** ** 25LC040A.h *)

Definition READ : Z := 0x03.
Definition WRITE : Z := 0x02.
Definition WRDI : Z := 0x04.
Definition WREN : Z := 0x06.
Definition RDSR : Z := 0x05.
Definition WRSR : Z := 0x01.

Definition WIP : Z := 0x01.
Definition WEL : Z := 0x02.
Definition BP0 : Z := 0x04.
Definition BP1 : Z := 0x08.

Definition MAX_ADDR : Z := 0x1FF.
Definition PAGE_SIZE : Z := 16.

Inductive error : Set :=
| OK
| ADDRESS_OUT_OF_RANGE
| INDEX_BIT_OUT_OF_RANGE
| WRITE_NOT_ENABLED
| NULL_POINTER.

Section Chip.
Context {D : Type} `{IDriver D}.

Record chip : Type := mk_chip { _driver : bus D; _errorCode : error }.

Definition set_error (c : chip) (e : error) : chip := mk_chip (_driver c) e.

(** [_driver->select()], [_driver->deselect()], [_driver->transfer(byte)]. *)
Definition drv_select (c : chip) : chip :=
  mk_chip (bus_select (_driver c)) (_errorCode c).

Definition drv_deselect (c : chip) : chip :=
  mk_chip (bus_deselect (_driver c)) (_errorCode c).

Definition drv_transfer (byte : Z) (c : chip) : Z * chip :=
  let r := bus_transfer byte (_driver c) in
  (fst r, mk_chip (snd r) (_errorCode c)).

(** ** 25LC040A.cpp *)

Definition checkError (c : chip) : error := _errorCode c.

Definition readStatus (c : chip) : Z * chip :=
  let c1 := drv_select c in
  let r1 := drv_transfer RDSR c1 in
  let r2 := drv_transfer 0xFF (snd r1) in
  (fst r2, drv_deselect (snd r2)).

(** [while (readStatus() & WIP) {}]: at most [fuel] status reads, [None]
    when the device is still busy after them. *)
Fixpoint wait (fuel : nat) (c : chip) : option chip :=
  match fuel with
  | O => None
  | S f =>
      let r := readStatus c in
      if Z.land (fst r) WIP =? 0 then Some (snd r) else wait f (snd r)
  end.

Definition buildAndSendInstruction (instr address : Z) (c : chip) : chip :=
  let cmd := instr in
  let cmd := if Z.land (Z.shiftr address 8) 0x01 =? 0 then cmd
             else u8 (Z.lor cmd 0x08) in
  snd (drv_transfer cmd c).

Definition readByte (c : chip) (address : Z) : Z * chip :=
  if address >? MAX_ADDR then (0, set_error c ADDRESS_OUT_OF_RANGE)
  else
    let c1 := drv_select c in
    let c2 := buildAndSendInstruction READ address c1 in
    let c3 := snd (drv_transfer (u8 (Z.land address 0xFF)) c2) in
    let r := drv_transfer 0xFF c3 in
    let c4 := drv_deselect (snd r) in
    (fst r, set_error c4 OK).

Definition writeByte (fuel : nat) (c : chip) (address byte : Z) : option chip :=
  if address >? MAX_ADDR then Some (set_error c ADDRESS_OUT_OF_RANGE)
  else
    let c1 := drv_deselect (snd (drv_transfer WREN (drv_select c))) in
    let r := readStatus c1 in
    if Z.land (fst r) WEL =? 0 then Some (set_error (snd r) WRITE_NOT_ENABLED)
    else
      let c2 := drv_select (snd r) in
      let c3 := buildAndSendInstruction WRITE address c2 in
      let c4 := snd (drv_transfer (u8 (Z.land address 0xFF)) c3) in
      let c5 := snd (drv_transfer byte c4) in
      let c6 := drv_deselect c5 in
      match wait fuel c6 with
      | None => None
      | Some c7 => Some (set_error c7 OK)
      end.

Definition readBit (c : chip) (address index : Z) : bool * chip :=
  if address >? MAX_ADDR then (false, set_error c ADDRESS_OUT_OF_RANGE)
  else if index >? 7 then (false, set_error c INDEX_BIT_OUT_OF_RANGE)
  else
    let r := readByte c address in
    (negb (Z.land (Z.shiftr (fst r) index) 0x01 =? 0), snd r).

Definition writeBit (fuel : nat) (c : chip) (address index : Z) (value : bool)
  : option chip :=
  if address >? MAX_ADDR then Some (set_error c ADDRESS_OUT_OF_RANGE)
  else if index >? 7 then Some (set_error c INDEX_BIT_OUT_OF_RANGE)
  else
    let r := readByte c address in
    let byte := fst r in
    let byte := if value then u8 (Z.lor byte (Z.shiftl 1 index))
                else u8 (Z.land byte (Z.lnot (Z.shiftl 1 index))) in
    writeByte fuel (snd r) address byte.

(** [for (i = 0; i < length; i++) out[i] = _driver->transfer(0xFF);] *)
Fixpoint read_bytes (remaining : nat) (i : Z) (c : chip) (out : list Z)
  : list Z * chip :=
  match remaining with
  | O => (out, c)
  | S r =>
      let t := drv_transfer 0xFF c in
      read_bytes r (u16 (i + 1)) (snd t) (<[Z.to_nat i := fst t]> out)
  end.

(** [out] is [None] for a null pointer, else the caller's buffer, which
    has room for [length] bytes.  The operands of the range check are
    [uint16_t]: they are promoted to [int], which holds their sum. *)
Definition readArray (c : chip) (address length : Z) (out : option (list Z))
  : option (list Z) * chip :=
  if length =? 0 then (out, set_error c OK)
  else if address + length - 1 >? MAX_ADDR
  then (out, set_error c ADDRESS_OUT_OF_RANGE)
  else
    match out with
    | None => (out, set_error c NULL_POINTER)
    | Some buf =>
        let c1 := drv_select c in
        let c2 := buildAndSendInstruction READ address c1 in
        let c3 := snd (drv_transfer (u8 (Z.land address 0xFF)) c2) in
        let r := read_bytes (Z.to_nat length) 0 c3 buf in
        let c4 := drv_deselect (snd r) in
        (Some (fst r), set_error c4 OK)
    end.

(** [for (j = 0; j < chunk; j++) _driver->transfer(data[offset+j]);] *)
Fixpoint send_bytes (remaining : nat) (j : Z) (c : chip) (data : list Z)
    (offset : Z) : chip :=
  match remaining with
  | O => c
  | S r =>
      send_bytes r (u16 (j + 1))
        (snd (drv_transfer (data !!! Z.to_nat (offset + j)) c)) data offset
  end.

(** The [while (length > 0)] loop of [writeArray].  Every round takes at
    least one byte off [length], so [rounds] of at least [length] is never
    used up. *)
Fixpoint writeArray_loop (fuel : nat) (rounds : nat) (c : chip)
    (address offset length : Z) (data : list Z) : option chip :=
  if length >? 0 then
    match rounds with
    | O => None
    | S rounds' =>
        let page_offset := address mod PAGE_SIZE in
        let chunk := Z.min (u16 (PAGE_SIZE - page_offset)) length in
        let c1 := drv_deselect (snd (drv_transfer WREN (drv_select c))) in
        let r := readStatus c1 in
        if Z.land (fst r) WEL =? 0
        then Some (set_error (snd r) WRITE_NOT_ENABLED)
        else
          let c2 := drv_select (snd r) in
          let c3 := buildAndSendInstruction WRITE address c2 in
          let c4 := snd (drv_transfer (u8 (Z.land address 0xFF)) c3) in
          let c5 := send_bytes (Z.to_nat chunk) 0 c4 data offset in
          let c6 := drv_deselect c5 in
          match wait fuel c6 with
          | None => None
          | Some c7 =>
              writeArray_loop fuel rounds' c7 (u16 (address + chunk))
                (u16 (offset + chunk)) (u16 (length - chunk)) data
          end
    end
  else Some (set_error c OK).

Definition writeArray (fuel : nat) (c : chip) (address length : Z)
    (data : option (list Z)) : option chip :=
  if length =? 0 then Some (set_error c OK)
  else if address + length - 1 >? MAX_ADDR
  then Some (set_error c ADDRESS_OUT_OF_RANGE)
  else
    match data with
    | None => Some (set_error c NULL_POINTER)
    | Some buf => writeArray_loop fuel (Z.to_nat length) c address 0 length buf
    end.

End Chip.

Arguments chip D : clear implicits.

(** ** Vocabulary of the EEPROM driver's specification *)

(** What a chip object has put on the bus. *)
Definition trace {D : Type} (c : chip D) : list bus_op := ops (_driver c).

(** A device that shows WEL set and WIP clear in every byte it answers,
    as the [Driver] of example.cpp does. *)
Definition always_ready (D : Type) `{IDriver D} : Prop :=
  forall byte d,
    Z.land (u8 (fst (transfer byte d))) WEL <> 0
    /\ Z.land (u8 (fst (transfer byte d))) WIP = 0.

(** The chip object of example.cpp: a fresh [EEPROM25LC040A] on the
    example's [Driver]. *)
Definition example_chip : chip Driver := mk_chip (mk_bus the_Driver []) OK.

(** A fresh chip object on a scripted device. *)
Definition scripted_chip (replies : list Z) : chip (list Z) :=
  mk_chip (mk_bus replies []) OK.

(** The instruction byte with address bit 8 folded in at bit 3. *)
Definition cmd_byte (instr address : Z) : Z :=
  Z.lor instr (Z.shiftl (Z.land (Z.shiftr address 8) 1) 3).

Definition status_frame : list bus_op := frame [RDSR; 0xFF].

(** The write-enable frame and the status read that checks WEL. *)
Definition wel_check : list bus_op := frame [WREN] ++ status_frame.

(** One chunk on the bus: WREN frame, WEL check, WRITE frame with the
    chunk's bytes, then [polls] status reads for WIP. *)
Definition chunk_round (address : Z) (bytes : list Z) (polls : nat) : list bus_op :=
  wel_check
  ++ frame (cmd_byte WRITE address :: Z.land address 0xFF :: bytes)
  ++ concat (replicate polls status_frame).

(** The chunks as the specification words them: the first is
    [min(16 - address % 16, remaining)] long, each next one starts where
    the one before ended.  A chunk is [(start, length)]. *)
Fixpoint chunks (rounds : nat) (address remaining : Z) : list (Z * Z) :=
  match rounds with
  | O => []
  | S r =>
      if remaining >? 0 then
        let len := Z.min (16 - address mod 16) remaining in
        (address, len) :: chunks r (address + len) (remaining - len)
      else []
  end.

(** Bytes [offset .. offset + len) of the caller's buffer. *)
Definition slice (data : list Z) (offset len : Z) : list Z :=
  take (Z.to_nat len) (drop (Z.to_nat offset) data).

(** The bus traffic of the chunks [cs] of a write that started at
    [address0], with [polls] status reads after each. *)
Fixpoint rounds_ops (address0 : Z) (data : list Z) (cs : list (Z * Z))
    (polls : list nat) : list bus_op :=
  match cs, polls with
  | (start, len) :: cs', p :: polls' =>
      chunk_round start (slice data (start - address0) len) p
      ++ rounds_ops address0 data cs' polls'
  | _, _ => []
  end.

(** The answers of a device, by their place in the sequence of transfers.
    The round of a chunk of [len] bytes that begins at transfer [off] and
    polls the status [p] times takes [5 + len + 2 * p] transfers: the WREN
    byte, the two bytes of the status read of the WEL check, the
    instruction byte, the address byte and the [len] data bytes of the
    WRITE frame, and two bytes for each poll.  The status of the WEL check
    is the answer to transfer [off + 2], the status of poll [j] the answer
    to transfer [off + 6 + len + 2 * j]. *)
Fixpoint round_transfers (cs : list (Z * Z)) (polls : list nat) : nat :=
  match cs, polls with
  | (_, len) :: cs', p :: polls' =>
      5 + Z.to_nat len + 2 * p + round_transfers cs' polls'
  | _, _ => 0
  end.

(** In the round that begins at transfer [off] the device shows WEL set
    in the WEL check, WIP set in the polls before the last and WIP clear
    in the last of the [p] polls. *)
Definition round_passes (replies : list Z) (off : nat) (len : Z) (p : nat)
  : Prop :=
  Z.land (u8 (nth (off + 2) replies 0)) WEL <> 0
  /\ (forall j : nat, (j + 1 < p)%nat ->
        Z.land (u8 (nth (off + 6 + Z.to_nat len + 2 * j) replies 0)) WIP <> 0)
  /\ Z.land (u8 (nth (off + 6 + Z.to_nat len + 2 * (p - 1)) replies 0)) WIP = 0.

Fixpoint rounds_pass (replies : list Z) (off : nat) (cs : list (Z * Z))
    (polls : list nat) : Prop :=
  match cs, polls with
  | (_, len) :: cs', p :: polls' =>
      round_passes replies off len p
      /\ rounds_pass replies (off + (5 + Z.to_nat len + 2 * p)) cs' polls'
  | _, _ => True
  end.

(** The device shows WEL clear in the WEL check of the round that begins
    at transfer [off]. *)
Definition wel_fails (replies : list Z) (off : nat) : Prop :=
  Z.land (u8 (nth (off + 2) replies 0)) WEL = 0.

(** The errors that reject the arguments of a call. *)
Definition argument_error (e : error) : Prop :=
  e = ADDRESS_OUT_OF_RANGE \/ e = INDEX_BIT_OUT_OF_RANGE \/ e = NULL_POINTER.

(** From [c] to [c'] the bus has seen whole frames only: chip select went
    high after every byte sequence that began with it going low. *)
Definition released {D : Type} (c c' : chip D) : Prop :=
  exists frames : list (list Z),
    trace c' = trace c ++ concat (map frame frames).

(** What a write call that got past its argument checks comes to. *)
Definition write_result {D : Type} (c c' : chip D) : Prop :=
  released c c' /\ (_errorCode c' = OK \/ _errorCode c' = WRITE_NOT_ENABLED).

End EEPROM.

Module NOR.
Import Bus.

(** ** W25Q128.h *)

Definition READ : Z := 0x03.
Definition FAST_READ : Z := 0x0B.
Definition PAGE_PROGRAM : Z := 0x02.
Definition SECTOR_ERASE : Z := 0x20.
Definition BLOCK_ERASE_32K : Z := 0x52.
Definition BLOCK_ERASE_64K : Z := 0xD8.
Definition CHIP_ERASE : Z := 0xC7.
Definition WRITE_ENABLE : Z := 0x06.
Definition WRITE_DISABLE : Z := 0x04.
Definition READ_STATUS_REG1 : Z := 0x05.

Definition BUSY : Z := 0x01.
Definition WEL : Z := 0x02.

Definition SECTOR_SIZE : Z := 4 * 1024.
Definition BLOCK_32K_SIZE : Z := 32 * 1024.
Definition BLOCK_64K_SIZE : Z := 64 * 1024.
Definition MAX_ADDR : Z := 0xFFFFFF.

Inductive error : Set :=
| OK
| ADDRESS_OUT_OF_RANGE
| BAD_ADDRESS_ALIGNMENT
| INDEX_BIT_OUT_OF_RANGE
| WRITE_NOT_ENABLED
| NULL_POINTER
| OUT_OF_PAGE
| NEEDS_ERASE.

Definition error_eqb (a b : error) : bool :=
  match a, b with
  | OK, OK | ADDRESS_OUT_OF_RANGE, ADDRESS_OUT_OF_RANGE
  | BAD_ADDRESS_ALIGNMENT, BAD_ADDRESS_ALIGNMENT
  | INDEX_BIT_OUT_OF_RANGE, INDEX_BIT_OUT_OF_RANGE
  | WRITE_NOT_ENABLED, WRITE_NOT_ENABLED | NULL_POINTER, NULL_POINTER
  | OUT_OF_PAGE, OUT_OF_PAGE | NEEDS_ERASE, NEEDS_ERASE => true
  | _, _ => false
  end.

Section Chip.
Context {D : Type} `{IDriver D}.

Record chip : Type := mk_chip { _driver : bus D; _errorCode : error }.

Definition set_error (c : chip) (e : error) : chip := mk_chip (_driver c) e.

Definition drv_select (c : chip) : chip :=
  mk_chip (bus_select (_driver c)) (_errorCode c).

Definition drv_deselect (c : chip) : chip :=
  mk_chip (bus_deselect (_driver c)) (_errorCode c).

Definition drv_transfer (byte : Z) (c : chip) : Z * chip :=
  let r := bus_transfer byte (_driver c) in
  (fst r, mk_chip (snd r) (_errorCode c)).

(** ** W25Q128.cpp *)

Definition checkError (c : chip) : error := _errorCode c.

Definition readStatusReg1 (c : chip) : Z * chip :=
  let c1 := drv_select c in
  let r1 := drv_transfer READ_STATUS_REG1 c1 in
  let r2 := drv_transfer 0xFF (snd r1) in
  (fst r2, drv_deselect (snd r2)).

(** [while (readStatusReg1() & BUSY) {}], with at most [fuel] reads. *)
Fixpoint wait (fuel : nat) (c : chip) : option chip :=
  match fuel with
  | O => None
  | S f =>
      let r := readStatusReg1 c in
      if Z.land (fst r) BUSY =? 0 then Some (snd r) else wait f (snd r)
  end.

Definition writeEnable (c : chip) : bool * chip :=
  let c1 := drv_deselect (snd (drv_transfer WRITE_ENABLE (drv_select c))) in
  let r := readStatusReg1 c1 in
  (negb (Z.land (fst r) WEL =? 0), snd r).

Definition sendAddress (address : Z) (c : chip) : chip :=
  let c1 := snd (drv_transfer (Z.land (Z.shiftr address 16) 0xFF) c) in
  let c2 := snd (drv_transfer (Z.land (Z.shiftr address 8) 0xFF) c1) in
  snd (drv_transfer (Z.land address 0xFF) c2).

Definition readByte (c : chip) (address : Z) : Z * chip :=
  if address >? MAX_ADDR then (0, set_error c ADDRESS_OUT_OF_RANGE)
  else
    let c1 := drv_select c in
    let c2 := snd (drv_transfer READ c1) in
    let c3 := sendAddress address c2 in
    let r := drv_transfer 0xFF c3 in
    let c4 := drv_deselect (snd r) in
    (fst r, set_error c4 OK).

Definition readBit (c : chip) (address index : Z) : bool * chip :=
  if index >? 7 then (false, set_error c INDEX_BIT_OUT_OF_RANGE)
  else
    let r := readByte c address in
    (negb (Z.land (Z.shiftr (fst r) index) 1 =? 0), snd r).

Fixpoint read_bytes (remaining : nat) (i : Z) (c : chip) (out : list Z)
  : list Z * chip :=
  match remaining with
  | O => (out, c)
  | S r =>
      let t := drv_transfer 0xFF c in
      read_bytes r (u16 (i + 1)) (snd t) (<[Z.to_nat i := fst t]> out)
  end.

(** [address] is a [uint32_t]: [address + length - 1] is computed in
    32-bit unsigned arithmetic. *)
Definition readArray (c : chip) (address length : Z) (out : option (list Z))
  : option (list Z) * chip :=
  if length =? 0 then (out, set_error c OK)
  else
    match out with
    | None => (out, set_error c NULL_POINTER)
    | Some buf =>
        if u32 (address + length - 1) >? MAX_ADDR
        then (out, set_error c ADDRESS_OUT_OF_RANGE)
        else
          let c1 := drv_select c in
          let c2 := snd (drv_transfer FAST_READ c1) in
          let c3 := sendAddress address c2 in
          let c4 := snd (drv_transfer 0xFF c3) in
          let r := read_bytes (Z.to_nat length) 0 c4 buf in
          let c5 := drv_deselect (snd r) in
          (Some (fst r), set_error c5 OK)
    end.

(** The loop of [isProgramCompatible], from byte [i] on. *)
Fixpoint isProgramCompatible_from (remaining : nat) (i : Z) (c : chip)
    (address : Z) (data : list Z) : bool * chip :=
  match remaining with
  | O => (true, c)
  | S r =>
      let rb := readByte c (u32 (address + i)) in
      let oldByte := fst rb in
      if negb (error_eqb (_errorCode (snd rb)) OK) then (false, snd rb)
      else if negb (Z.land oldByte (data !!! Z.to_nat i) =? data !!! Z.to_nat i)
      then (false, snd rb)
      else isProgramCompatible_from r (u16 (i + 1)) (snd rb) address data
  end.

Definition isProgramCompatible (c : chip) (address : Z) (data : list Z)
    (length : Z) : bool * chip :=
  isProgramCompatible_from (Z.to_nat length) 0 c address data.

Fixpoint send_bytes (remaining : nat) (i : Z) (c : chip) (data : list Z) : chip :=
  match remaining with
  | O => c
  | S r =>
      send_bytes r (u16 (i + 1)) (snd (drv_transfer (data !!! Z.to_nat i) c)) data
  end.

Definition pageProgram (fuel : nat) (c : chip) (address : Z)
    (data : option (list Z)) (length : Z) : option chip :=
  if length =? 0 then Some (set_error c OK)
  else if (u32 (address + length - 1) >? MAX_ADDR) || (length >? 256)
  then Some (set_error c ADDRESS_OUT_OF_RANGE)
  else
    let page_off := Z.land address 0xFF in
    if u32 (page_off + length) >? 256 then Some (set_error c OUT_OF_PAGE)
    else
      match data with
      | None => Some (set_error c NULL_POINTER)
      | Some buf =>
          let rc := isProgramCompatible c address buf length in
          if negb (fst rc) then Some (set_error (snd rc) NEEDS_ERASE)
          else
            let rw := writeEnable (snd rc) in
            if negb (fst rw) then Some (set_error (snd rw) WRITE_NOT_ENABLED)
            else
              let c1 := drv_select (snd rw) in
              let c2 := snd (drv_transfer PAGE_PROGRAM c1) in
              let c3 := sendAddress address c2 in
              let c4 := send_bytes (Z.to_nat length) 0 c3 buf in
              let c5 := drv_deselect c4 in
              match wait fuel c5 with
              | None => None
              | Some c6 => Some (set_error c6 OK)
              end
      end.

(** The body shared by [eraseSector], [eraseBlock32] and [eraseBlock64],
    which differ in the unit and in the opcode. *)
Definition erase_unit (fuel : nat) (c : chip) (address unit opcode : Z)
  : option chip :=
  if address >? MAX_ADDR then Some (set_error c ADDRESS_OUT_OF_RANGE)
  else if negb (address mod unit =? 0)
  then Some (set_error c BAD_ADDRESS_ALIGNMENT)
  else
    let rw := writeEnable c in
    if negb (fst rw) then Some (set_error (snd rw) WRITE_NOT_ENABLED)
    else
      let c1 := drv_select (snd rw) in
      let c2 := snd (drv_transfer opcode c1) in
      let c3 := sendAddress address c2 in
      let c4 := drv_deselect c3 in
      match wait fuel c4 with
      | None => None
      | Some c5 => Some (set_error c5 OK)
      end.

Definition eraseSector (fuel : nat) (c : chip) (address : Z) : option chip :=
  erase_unit fuel c address SECTOR_SIZE SECTOR_ERASE.

Definition eraseBlock32 (fuel : nat) (c : chip) (address : Z) : option chip :=
  erase_unit fuel c address BLOCK_32K_SIZE BLOCK_ERASE_32K.

Definition eraseBlock64 (fuel : nat) (c : chip) (address : Z) : option chip :=
  erase_unit fuel c address BLOCK_64K_SIZE BLOCK_ERASE_64K.

Definition eraseChip (fuel : nat) (c : chip) : option chip :=
  let rw := writeEnable c in
  if negb (fst rw) then Some (set_error (snd rw) WRITE_NOT_ENABLED)
  else
    let c1 := drv_select (snd rw) in
    let c2 := snd (drv_transfer CHIP_ERASE c1) in
    let c3 := drv_deselect c2 in
    match wait fuel c3 with
    | None => None
    | Some c4 => Some (set_error c4 OK)
    end.

End Chip.

Arguments chip D : clear implicits.

(** ** Vocabulary of the NOR driver's specification *)

Definition trace {D : Type} (c : chip D) : list bus_op := ops (_driver c).

(** The chip object of example.cpp: a fresh [NORW25Q128] on the example's
    [Driver]. *)
Definition example_chip : chip Driver := mk_chip (mk_bus the_Driver []) OK.

Definition scripted_chip (replies : list Z) : chip (list Z) :=
  mk_chip (mk_bus replies []) OK.

(** The three address bytes, most significant first. *)
Definition address_bytes (address : Z) : list Z :=
  [Z.land (Z.shiftr address 16) 0xFF; Z.land (Z.shiftr address 8) 0xFF;
   Z.land address 0xFF].

Definition status_frame : list bus_op := frame [READ_STATUS_REG1; 0xFF].

(** The write-enable frame and the status read that checks WEL. *)
Definition wel_check : list bus_op := frame [WRITE_ENABLE] ++ status_frame.

(** The READ frame of one byte. *)
Definition read_frame (address : Z) : list bus_op :=
  frame (READ :: address_bytes address ++ [0xFF]).

(** The READ frames of bytes [address .. address + n). *)
Fixpoint read_frames (address : Z) (n : nat) : list bus_op :=
  match n with
  | O => []
  | S k => read_frame address ++ read_frames (address + 1) k
  end.

(** A device that shows WEL set and BUSY clear in every byte it answers,
    as the [Driver] of example.cpp does. *)
Definition always_ready (D : Type) `{IDriver D} : Prop :=
  forall byte d,
    Z.land (u8 (fst (transfer byte d))) WEL <> 0
    /\ Z.land (u8 (fst (transfer byte d))) BUSY = 0.

(** What an erase call of one [unit] with one [opcode] can come to. *)
Inductive erase_outcome {D : Type} (unit opcode address : Z) (c c' : chip D)
  : Prop :=
| erase_out_of_range :
    MAX_ADDR < address -> _errorCode c' = ADDRESS_OUT_OF_RANGE ->
    trace c' = trace c -> erase_outcome unit opcode address c c'
| erase_misaligned :
    address <= MAX_ADDR -> address mod unit <> 0 ->
    _errorCode c' = BAD_ADDRESS_ALIGNMENT ->
    trace c' = trace c -> erase_outcome unit opcode address c c'
| erase_not_enabled :
    address <= MAX_ADDR -> address mod unit = 0 ->
    _errorCode c' = WRITE_NOT_ENABLED ->
    trace c' = trace c ++ wel_check -> erase_outcome unit opcode address c c'
| erase_done (polls : nat) :
    address <= MAX_ADDR -> address mod unit = 0 ->
    _errorCode c' = OK -> (1 <= polls)%nat ->
    trace c'
    = trace c ++ wel_check ++ frame (opcode :: address_bytes address)
      ++ concat (replicate polls status_frame) ->
    erase_outcome unit opcode address c c'.

End NOR.

(** * Facts about the allocator *)

Module AllocFacts.
Import Alloc.

(** ** Bits of a byte *)

Lemma land_bit_eq0 (b k : Z) :
  0 <= k -> (Z.land b (Z.shiftl 1 k) =? 0) = negb (Z.testbit b k).
Proof.
  intros Hk. rewrite Z.shiftl_1_l.
  destruct (Z.testbit b k) eqn:Hb; simpl.
  - apply Z.eqb_neq. intros H0.
    assert (Z.testbit (Z.land b (2 ^ k)) k = false) as Hc
      by (rewrite H0; apply Z.bits_0).
    rewrite Z.land_spec, Hb, Z.pow2_bits_true in Hc by lia. discriminate.
  - apply Z.eqb_eq. apply Z.bits_inj'. intros n Hn.
    rewrite Z.land_spec, Z.bits_0, Z.pow2_bits_eqb by lia.
    destruct (Z.eqb_spec k n) as [->|]; [rewrite Hb|]; auto using andb_false_r.
Qed.

Lemma land7_range (i : Z) : 0 <= Z.land i 7 < 8.
Proof.
  change 7 with (Z.ones 3). rewrite Z.land_ones by lia.
  apply Z.mod_pos_bound. lia.
Qed.

Lemma land7_mod (i : Z) : Z.land i 7 = i mod 8.
Proof. change 7 with (Z.ones 3). now rewrite Z.land_ones by lia. Qed.

Lemma shiftr3_div (i : Z) : Z.shiftr i 3 = i / 8.
Proof. now rewrite Z.shiftr_div_pow2 by lia. Qed.

Lemma u8_testbit (x k : Z) : 0 <= k < 8 -> Z.testbit (u8 x) k = Z.testbit x k.
Proof.
  intros Hk. unfold u8. change 256 with (2 ^ 8).
  apply Z.mod_pow2_bits_low. lia.
Qed.

Lemma u8_mask (k : Z) : 0 <= k < 8 -> u8 (Z.shiftl 1 k) = Z.shiftl 1 k.
Proof.
  intros Hk. unfold u8. rewrite Z.shiftl_1_l. apply Z.mod_small.
  split; [apply Z.pow_nonneg; lia|].
  change 256 with (2 ^ 8). apply Z.pow_lt_mono_r; lia.
Qed.

Lemma u16_small (z : Z) : 0 <= z < 65536 -> u16 z = z.
Proof. intros. unfold u16. now apply Z.mod_small. Qed.

(** ** [load] and [store] *)

Lemma load_store_eq (hp : list Z) (a v : Z) :
  0 <= a < Z.of_nat (length hp) -> load (store hp a v) a = v.
Proof.
  intros Ha. unfold load, store.
  apply list_lookup_total_insert_eq. lia.
Qed.

Lemma load_store_ne (hp : list Z) (a b v : Z) :
  0 <= a -> 0 <= b -> a <> b -> load (store hp a v) b = load hp b.
Proof.
  intros Ha Hb Hab. unfold load, store.
  apply list_lookup_total_insert_ne. lia.
Qed.

Lemma length_store (hp : list Z) (a v : Z) : length (store hp a v) = length hp.
Proof. apply length_insert. Qed.

Lemma length_memset (n : nat) : forall hp p c, length (memset hp p c n) = length hp.
Proof.
  induction n as [|n IH]; intros hp p c; simpl; [reflexivity|].
  now rewrite IH, length_store.
Qed.

Lemma load_memset (n : nat) : forall hp p c a,
  0 <= p -> 0 <= a -> p + Z.of_nat n <= Z.of_nat (length hp) ->
  load (memset hp p c n) a
  = if (p <=? a) && (a <? p + Z.of_nat n) then u8 c else load hp a.
Proof.
  induction n as [|n IH]; intros hp p c a Hp Ha Hlen; simpl memset.
  - destruct (Z.leb_spec p a), (Z.ltb_spec a (p + Z.of_nat 0)); simpl; auto; lia.
  - rewrite IH by (rewrite ?length_store; lia).
    destruct (Z.eq_dec a p) as [->|Hne].
    + rewrite load_store_eq by lia.
      destruct (Z.leb_spec (p + 1) p), (Z.leb_spec p p),
        (Z.ltb_spec p (p + 1 + Z.of_nat n)), (Z.ltb_spec p (p + Z.of_nat (S n)));
        simpl; auto; lia.
    + rewrite load_store_ne by lia.
      destruct (Z.leb_spec (p + 1) a), (Z.leb_spec p a),
        (Z.ltb_spec a (p + 1 + Z.of_nat n)), (Z.ltb_spec a (p + Z.of_nat (S n)));
        simpl; auto; lia.
Qed.

(** ** The three bitmap primitives read and write the same bit *)

Lemma bitmap_is_set_testbit (hp : list Z) (bitmap index : Z) :
  bitmap_is_set hp bitmap index
  = Z.testbit (load hp (bitmap + index / 8)) (index mod 8).
Proof.
  unfold bitmap_is_set.
  rewrite land_bit_eq0 by apply land7_range.
  now rewrite negb_involutive, shiftr3_div, land7_mod.
Qed.

Lemma bitmap_is_set_set (hp : list Z) (bitmap index bitmap' index' : Z) :
  0 <= bitmap + index / 8 < Z.of_nat (length hp) ->
  0 <= bitmap' + index' / 8 ->
  bitmap_is_set (bitmap_set hp bitmap index) bitmap' index'
  = ((bitmap + index / 8 =? bitmap' + index' / 8) && (index mod 8 =? index' mod 8))
    || bitmap_is_set hp bitmap' index'.
Proof.
  intros Ha Hb. rewrite !bitmap_is_set_testbit. unfold bitmap_set.
  rewrite shiftr3_div, land7_mod.
  assert (0 <= index mod 8 < 8) by (apply Z.mod_pos_bound; lia).
  assert (0 <= index' mod 8 < 8) by (apply Z.mod_pos_bound; lia).
  destruct (Z.eqb_spec (bitmap + index / 8) (bitmap' + index' / 8)) as [<-|Hne]; simpl.
  - rewrite load_store_eq, u8_testbit, Z.lor_spec by lia.
    rewrite Z.shiftl_1_l, Z.pow2_bits_eqb by lia. apply orb_comm.
  - now rewrite load_store_ne by lia.
Qed.

Lemma bitmap_is_set_clear (hp : list Z) (bitmap index bitmap' index' : Z) :
  0 <= bitmap + index / 8 < Z.of_nat (length hp) ->
  0 <= bitmap' + index' / 8 ->
  bitmap_is_set (bitmap_clear hp bitmap index) bitmap' index'
  = negb ((bitmap + index / 8 =? bitmap' + index' / 8) && (index mod 8 =? index' mod 8))
    && bitmap_is_set hp bitmap' index'.
Proof.
  intros Ha Hb. rewrite !bitmap_is_set_testbit. unfold bitmap_clear.
  rewrite shiftr3_div, land7_mod.
  assert (0 <= index mod 8 < 8) by (apply Z.mod_pos_bound; lia).
  assert (0 <= index' mod 8 < 8) by (apply Z.mod_pos_bound; lia).
  destruct (Z.eqb_spec (bitmap + index / 8) (bitmap' + index' / 8)) as [<-|Hne]; simpl.
  - rewrite load_store_eq, u8_testbit, Z.land_spec, Z.lnot_spec by lia.
    rewrite Z.shiftl_1_l, Z.pow2_bits_eqb by lia. apply andb_comm.
  - now rewrite load_store_ne by lia.
Qed.

Lemma length_bitmap_set hp bitmap index :
  length (bitmap_set hp bitmap index) = length hp.
Proof. apply length_store. Qed.

Lemma length_bitmap_clear hp bitmap index :
  length (bitmap_clear hp bitmap index) = length hp.
Proof. apply length_store. Qed.

Lemma load_bitmap_set_ne hp bitmap index a :
  0 <= bitmap + index / 8 -> 0 <= a -> a <> bitmap + index / 8 ->
  load (bitmap_set hp bitmap index) a = load hp a.
Proof.
  intros. unfold bitmap_set. rewrite shiftr3_div. apply load_store_ne; lia.
Qed.

Lemma load_bitmap_clear_ne hp bitmap index a :
  0 <= bitmap + index / 8 -> 0 <= a -> a <> bitmap + index / 8 ->
  load (bitmap_clear hp bitmap index) a = load hp a.
Proof.
  intros. unfold bitmap_clear. rewrite shiftr3_div. apply load_store_ne; lia.
Qed.


(** ** Counting bits *)

Lemma count_bounds (f : Z -> bool) (n : nat) : 0 <= count f n <= Z.of_nat n.
Proof.
  induction n as [|n IH]; simpl count; [lia|].
  destruct (f (Z.of_nat n)); lia.
Qed.

Lemma count_ext (f g : Z -> bool) (n : nat) :
  (forall j, 0 <= j < Z.of_nat n -> f j = g j) -> count f n = count g n.
Proof.
  induction n as [|n IH]; intros H; simpl count; [reflexivity|].
  rewrite IH, (H (Z.of_nat n)) by (intros; try apply H; lia). reflexivity.
Qed.

Lemma count_none (f : Z -> bool) (n : nat) :
  (forall j, 0 <= j < Z.of_nat n -> f j = false) -> count f n = 0.
Proof.
  induction n as [|n IH]; intros H; simpl count; [reflexivity|].
  rewrite IH, (H (Z.of_nat n)) by (intros; try apply H; lia). reflexivity.
Qed.

Lemma count_all (f : Z -> bool) (n : nat) :
  (forall j, 0 <= j < Z.of_nat n -> f j = true) -> count f n = Z.of_nat n.
Proof.
  induction n as [|n IH]; intros H; simpl count; [reflexivity|].
  rewrite IH, (H (Z.of_nat n)) by (intros; try apply H; lia). lia.
Qed.

Lemma count_full (f : Z -> bool) (n : nat) :
  count f n = Z.of_nat n -> forall j, 0 <= j < Z.of_nat n -> f j = true.
Proof.
  induction n as [|n IH]; simpl count; intros H j Hj; [lia|].
  pose proof (count_bounds f n) as Hb.
  destruct (f (Z.of_nat n)) eqn:Hn; [|lia].
  destruct (Z.eq_dec j (Z.of_nat n)) as [->|]; [assumption|].
  apply IH; lia.
Qed.

(** Turning one clear bit on adds one, turning one set bit off removes one. *)
Lemma count_turn_on (f g : Z -> bool) (n : nat) (i : Z) :
  0 <= i < Z.of_nat n -> f i = false ->
  (forall j, 0 <= j < Z.of_nat n -> g j = (i =? j) || f j) ->
  count g n = count f n + 1.
Proof.
  induction n as [|n IH]; intros Hi Hf Hg; simpl count; [lia|].
  rewrite (Hg (Z.of_nat n)) by lia.
  destruct (Z.eqb_spec i (Z.of_nat n)) as [->|Hne]; simpl.
  - rewrite Hf. rewrite (count_ext g f); [lia|].
    intros j Hj. rewrite Hg by lia.
    destruct (Z.eqb_spec (Z.of_nat n) j); [lia|reflexivity].
  - rewrite IH; [lia|lia|assumption|]. intros; apply Hg; lia.
Qed.

Lemma count_turn_off (f g : Z -> bool) (n : nat) (i : Z) :
  0 <= i < Z.of_nat n -> f i = true ->
  (forall j, 0 <= j < Z.of_nat n -> g j = negb (i =? j) && f j) ->
  count g n = count f n - 1.
Proof.
  induction n as [|n IH]; intros Hi Hf Hg; simpl count; [lia|].
  rewrite (Hg (Z.of_nat n)) by lia.
  destruct (Z.eqb_spec i (Z.of_nat n)) as [->|Hne]; simpl.
  - rewrite Hf. rewrite (count_ext g f); [lia|].
    intros j Hj. rewrite Hg by lia.
    destruct (Z.eqb_spec (Z.of_nat n) j); [lia|reflexivity].
  - rewrite IH; [lia|lia|assumption|]. intros; apply Hg; lia.
Qed.

(** ** [find_free_block] returns the lowest clear bit *)

Lemma find_free_block_from_spec (hp : list Z) (bitmap : Z) (r : nat) :
  forall i, 0 <= i -> i + Z.of_nat r <= UINT16_MAX ->
  let res := find_free_block_from hp bitmap r i in
  (res = UINT16_MAX
   /\ forall j, i <= j < i + Z.of_nat r -> bitmap_is_set hp bitmap j = true)
  \/ (i <= res < i + Z.of_nat r
      /\ bitmap_is_set hp bitmap res = false
      /\ forall j, i <= j < res -> bitmap_is_set hp bitmap j = true).
Proof.
  unfold UINT16_MAX.
  induction r as [|r IH]; intros i Hi Hr; simpl.
  - left. split; [reflexivity|]. intros; lia.
  - rewrite u8_mask by apply land7_range.
    destruct (Z.land _ _ =? 0) eqn:Hbit.
    + right. split; [lia|]. split.
      * unfold bitmap_is_set. now rewrite Hbit.
      * intros; lia.
    + assert (bitmap_is_set hp bitmap i = true) as Hset
        by (unfold bitmap_is_set; now rewrite Hbit).
      rewrite u16_small by lia.
      destruct (IH (i + 1)) as [[He Hall]|(Hres & Hclr & Hlow)]; [lia|lia| |].
      * left. split; [assumption|]. intros j Hj.
        destruct (Z.eq_dec j i) as [->|]; [assumption|apply Hall; lia].
      * right. split; [lia|]. split; [assumption|]. intros j Hj.
        destruct (Z.eq_dec j i) as [->|]; [assumption|apply Hlow; lia].
Qed.

Lemma find_free_block_spec (hp : list Z) (bitmap n : Z) :
  0 <= n <= UINT16_MAX ->
  let res := find_free_block hp bitmap n in
  (res = UINT16_MAX /\ popcount hp bitmap n = n)
  \/ (0 <= res < n
      /\ bitmap_is_set hp bitmap res = false
      /\ forall j, 0 <= j < res -> bitmap_is_set hp bitmap j = true).
Proof.
  intros Hn. unfold find_free_block.
  destruct (find_free_block_from_spec hp bitmap (Z.to_nat n) 0) as [[He Hall]|H];
    [lia|lia| |].
  - left. split; [assumption|]. unfold popcount.
    rewrite count_all; [lia|]. intros; apply Hall; lia.
  - right. rewrite Z2Nat.id in H by lia. exact H.
Qed.

(** With fewer than [n] bits set, a free block is found. *)
Lemma find_free_block_finds (hp : list Z) (bitmap n : Z) :
  0 <= n <= UINT16_MAX -> popcount hp bitmap n < n ->
  let res := find_free_block hp bitmap n in
  0 <= res < n /\ bitmap_is_set hp bitmap res = false.
Proof.
  intros Hn Hlt. cbv zeta.
  destruct (find_free_block_spec hp bitmap n Hn) as [[_ He]|H].
  - lia.
  - cbv zeta in H. tauto.
Qed.


(** ** Pages *)

Ltac consts :=
  change SMALL_SEGMENTS with 63 in *; change BIG_SEGMENTS with 5 in *;
  change PAGE_COUNT with 64 in *; change HEAP_SIZE with 65536 in *;
  change PAGE_HEADER_SIZE with 16 in *; change PAGE_SIZE with 1024 in *;
  change ALIGNED_BLOCK_SMALL with 16 in *; change ALIGNED_BLOCK_BIG with 192 in *;
  change BLOCK_SMALL with 15 in *; change BLOCK_BIG with 180 in *;
  change UINT16_MAX with 65535 in *; change NULL with 0 in *.

Lemma page_header_addr_eq (p : Z) : page_header_addr p = 1024 * p.
Proof.
  unfold page_header_addr, page_base_addr, PAGE_SHIFT.
  rewrite Z.shiftl_mul_pow2 by lia. lia.
Qed.

Lemma page_data_addr_eq (p : Z) : page_data_addr p = 1024 * p + 16.
Proof.
  unfold page_data_addr. fold (page_header_addr p).
  rewrite page_header_addr_eq. reflexivity.
Qed.

Lemma page_bit_addr (p q i j : Z) :
  0 <= p -> 0 <= q -> 0 <= i < 128 -> 0 <= j < 128 ->
  (1024 * p + i / 8 =? 1024 * q + j / 8) && (i mod 8 =? j mod 8)
  = (p =? q) && (i =? j).
Proof.
  intros Hp Hq Hi Hj.
  destruct (Z.eqb_spec (1024 * p + i / 8) (1024 * q + j / 8)),
    (Z.eqb_spec (i mod 8) (j mod 8)), (Z.eqb_spec p q), (Z.eqb_spec i j);
    simpl; try reflexivity; exfalso; Z.div_mod_to_equations; lia.
Qed.

Lemma page_bit_set (hp : list Z) (p q i j : Z) :
  Z.of_nat (length hp) = HEAP_SIZE ->
  0 <= p < PAGE_COUNT -> 0 <= q < PAGE_COUNT -> 0 <= i < 128 -> 0 <= j < 128 ->
  bitmap_is_set (bitmap_set hp (page_header_addr p) i) (page_header_addr q) j
  = ((p =? q) && (i =? j)) || bitmap_is_set hp (page_header_addr q) j.
Proof.
  consts. intros Hl Hp Hq Hi Hj. rewrite !page_header_addr_eq.
  rewrite bitmap_is_set_set by (Z.div_mod_to_equations; lia).
  now rewrite page_bit_addr by lia.
Qed.

Lemma page_bit_clear (hp : list Z) (p q i j : Z) :
  Z.of_nat (length hp) = HEAP_SIZE ->
  0 <= p < PAGE_COUNT -> 0 <= q < PAGE_COUNT -> 0 <= i < 128 -> 0 <= j < 128 ->
  bitmap_is_set (bitmap_clear hp (page_header_addr p) i) (page_header_addr q) j
  = negb ((p =? q) && (i =? j)) && bitmap_is_set hp (page_header_addr q) j.
Proof.
  consts. intros Hl Hp Hq Hi Hj. rewrite !page_header_addr_eq.
  rewrite bitmap_is_set_clear by (Z.div_mod_to_equations; lia).
  now rewrite page_bit_addr by lia.
Qed.

(** A bitmap that lies in zero bytes has no bit set. *)
Lemma bitmap_is_set_zero (hp : list Z) (bitmap j : Z) :
  load hp (bitmap + j / 8) = 0 -> bitmap_is_set hp bitmap j = false.
Proof. intros H. rewrite bitmap_is_set_testbit, H. apply Z.bits_0. Qed.

(** The bits of a header are a function of its sixteen bytes. *)
Lemma page_bit_ext (hp hp' : list Z) (base j : Z) :
  (forall k, 0 <= k < PAGE_HEADER_SIZE -> load hp' (base + k) = load hp (base + k)) ->
  0 <= j < 128 ->
  bitmap_is_set hp' base j = bitmap_is_set hp base j.
Proof.
  consts. intros H Hj. rewrite !bitmap_is_set_testbit.
  rewrite H by (Z.div_mod_to_equations; lia). reflexivity.
Qed.

Lemma popcount_ext (hp hp' : list Z) (base n : Z) :
  (forall k, 0 <= k < PAGE_HEADER_SIZE -> load hp' (base + k) = load hp (base + k)) ->
  0 <= n <= 128 ->
  popcount hp' base n = popcount hp base n.
Proof.
  intros H Hn. unfold popcount. apply count_ext. intros j Hj.
  apply page_bit_ext; [assumption|lia].
Qed.

Lemma popcount_bounds (hp : list Z) (base n : Z) :
  0 <= n -> 0 <= popcount hp base n <= n.
Proof.
  intros Hn. unfold popcount.
  pose proof (count_bounds (bitmap_is_set hp base) (Z.to_nat n)). lia.
Qed.

(** ** The page table *)

Lemma entry_set_used (st : state) (p q u : Z) :
  well_sized st -> 0 <= p < PAGE_COUNT -> 0 <= q ->
  entry (set_used st p u) q
  = if p =? q then mk_h_page u (type (entry st p)) else entry st q.
Proof.
  intros [_ Hw] Hp Hq. unfold entry, set_used. simpl.
  destruct (Z.eqb_spec p q) as [->|Hne].
  - apply list_lookup_total_insert_eq. lia.
  - apply list_lookup_total_insert_ne. lia.
Qed.

Lemma entry_set_type (st : state) (p q : Z) (t : page_type_t) :
  well_sized st -> 0 <= p < PAGE_COUNT -> 0 <= q ->
  entry (set_type st p t) q
  = if p =? q then mk_h_page (used_segments (entry st p)) t else entry st q.
Proof.
  intros [_ Hw] Hp Hq. unfold entry, set_type. simpl.
  destruct (Z.eqb_spec p q) as [->|Hne].
  - apply list_lookup_total_insert_eq. lia.
  - apply list_lookup_total_insert_ne. lia.
Qed.

Lemma entry_set_heap (st : state) (hp : list Z) (q : Z) :
  entry (set_heap st hp) q = entry st q.
Proof. reflexivity. Qed.

Lemma well_sized_set_used st p u : well_sized st -> well_sized (set_used st p u).
Proof. unfold well_sized, set_used. simpl. now rewrite length_insert. Qed.

Lemma well_sized_set_type st p t : well_sized st -> well_sized (set_type st p t).
Proof. unfold well_sized, set_type. simpl. now rewrite length_insert. Qed.

Lemma well_sized_set_heap st hp :
  well_sized st -> length hp = length (heap st) -> well_sized (set_heap st hp).
Proof. unfold well_sized, set_heap. simpl. intros [H1 H2] ->. auto. Qed.

Lemma well_sized_bitmap_set st bitmap i :
  well_sized st -> well_sized (set_heap st (bitmap_set (heap st) bitmap i)).
Proof. intros. apply well_sized_set_heap; [assumption|apply length_bitmap_set]. Qed.

Lemma well_sized_bitmap_clear st bitmap i :
  well_sized st -> well_sized (set_heap st (bitmap_clear (heap st) bitmap i)).
Proof. intros. apply well_sized_set_heap; [assumption|apply length_bitmap_clear]. Qed.

Create HintDb sized.
#[local] Hint Resolve well_sized_set_used well_sized_set_type
  well_sized_bitmap_set well_sized_bitmap_clear : sized.

Ltac sized := solve [lia | auto with sized].


(** ** What each state change does to a page *)

Lemma page_consistent_ext (st st' : state) (q : Z) :
  entry st' q = entry st q ->
  (forall k, 0 <= k < PAGE_HEADER_SIZE ->
     load (heap st') (page_header_addr q + k) = load (heap st) (page_header_addr q + k)) ->
  page_consistent st q -> page_consistent st' q.
Proof.
  intros He Hl. unfold page_consistent, header_zero. rewrite He.
  destruct (type (entry st q)).
  - intros [Hu Hz]. split; [assumption|]. intros k Hk. rewrite Hl by assumption. auto.
  - intros ->. symmetry. apply popcount_ext; [assumption|consts; lia].
  - intros ->. symmetry. apply popcount_ext; [assumption|consts; lia].
Qed.

Lemma heap_take_slot st p i :
  heap (take_slot st p i) = bitmap_set (heap st) (page_header_addr p) i.
Proof. reflexivity. Qed.

Lemma entry_take_slot st p i q :
  well_sized st -> 0 <= p < PAGE_COUNT -> 0 <= q ->
  entry (take_slot st p i) q
  = if p =? q
    then mk_h_page (u16 (used_segments (entry st p) + 1)) (type (entry st p))
    else entry st q.
Proof.
  intros Hw Hp Hq. unfold take_slot.
  rewrite entry_set_used by sized. reflexivity.
Qed.

Lemma well_sized_take_slot st p i : well_sized st -> well_sized (take_slot st p i).
Proof.
  intros H. unfold take_slot. auto with sized.
Qed.

Lemma heap_open_page st p t :
  heap (open_page st p t) = bitmap_set (heap st) (page_header_addr p) 0.
Proof. reflexivity. Qed.

Lemma entry_open_page st p t q :
  well_sized st -> 0 <= p < PAGE_COUNT -> 0 <= q ->
  entry (open_page st p t) q = if p =? q then mk_h_page 1 t else entry st q.
Proof.
  intros Hw Hp Hq. unfold open_page.
  rewrite entry_set_used by sized.
  rewrite !entry_set_heap, !entry_set_used, !entry_set_type by sized.
  rewrite Z.eqb_refl. destruct (Z.eqb_spec p q); reflexivity.
Qed.

Lemma well_sized_open_page st p t : well_sized st -> well_sized (open_page st p t).
Proof.
  intros H. unfold open_page. auto with sized.
Qed.

Lemma well_sized_page_set_free st p : well_sized st -> well_sized (page_set_free st p).
Proof.
  intros H. apply well_sized_set_heap.
  - now apply well_sized_set_used, well_sized_set_type.
  - apply length_memset.
Qed.

Lemma entry_page_set_free st p q :
  well_sized st -> 0 <= p < PAGE_COUNT -> 0 <= q ->
  entry (page_set_free st p) q
  = if p =? q then mk_h_page 0 PAGE_FREE else entry st q.
Proof.
  intros Hw Hp Hq. unfold page_set_free. rewrite entry_set_heap.
  rewrite entry_set_used by sized.
  rewrite !entry_set_type by sized. rewrite Z.eqb_refl.
  destruct (Z.eqb_spec p q); reflexivity.
Qed.

Lemma load_page_set_free st p a :
  well_sized st -> 0 <= p < PAGE_COUNT -> 0 <= a ->
  load (heap (page_set_free st p)) a
  = if (page_header_addr p <=? a) && (a <? page_header_addr p + PAGE_HEADER_SIZE)
    then 0 else load (heap st) a.
Proof.
  intros [Hh _] Hp Ha. unfold page_set_free. cbn [heap set_heap set_used set_type].
  consts. rewrite page_header_addr_eq.
  rewrite load_memset by (simpl Z.of_nat; lia). reflexivity.
Qed.

Lemma header_zero_page_set_free st p :
  well_sized st -> 0 <= p < PAGE_COUNT -> header_zero (page_set_free st p) p.
Proof.
  intros Hw Hp k Hk. rewrite load_page_set_free; try assumption.
  - consts.
    destruct (Z.leb_spec (page_header_addr p) (page_header_addr p + k)),
      (Z.ltb_spec (page_header_addr p + k) (page_header_addr p + 16));
      simpl; try reflexivity; lia.
  - rewrite page_header_addr_eq. consts. lia.
Qed.

Lemma load_page_set_free_other st p q k :
  well_sized st -> 0 <= p < PAGE_COUNT -> 0 <= q < PAGE_COUNT -> q <> p ->
  0 <= k < PAGE_HEADER_SIZE ->
  load (heap (page_set_free st p)) (page_header_addr q + k)
  = load (heap st) (page_header_addr q + k).
Proof.
  intros Hw Hp Hq Hne Hk.
  rewrite load_page_set_free
    by first [assumption | rewrite ?page_header_addr_eq; consts; lia].
  rewrite !page_header_addr_eq. consts.
  destruct (Z.leb_spec (1024 * p) (1024 * q + k)),
    (Z.ltb_spec (1024 * q + k) (1024 * p + 16)); simpl; try reflexivity; lia.
Qed.

Lemma load_bitmap_set_other hp p i q k :
  0 <= p -> 0 <= q -> q <> p -> 0 <= i < 128 -> 0 <= k < PAGE_HEADER_SIZE ->
  load (bitmap_set hp (page_header_addr p) i) (page_header_addr q + k)
  = load hp (page_header_addr q + k).
Proof.
  consts. intros Hp Hq Hne Hi Hk. rewrite !page_header_addr_eq.
  apply load_bitmap_set_ne; Z.div_mod_to_equations; lia.
Qed.

Lemma load_bitmap_clear_other hp p i q k :
  0 <= p -> 0 <= q -> q <> p -> 0 <= i < 128 -> 0 <= k < PAGE_HEADER_SIZE ->
  load (bitmap_clear hp (page_header_addr p) i) (page_header_addr q + k)
  = load hp (page_header_addr q + k).
Proof.
  consts. intros Hp Hq Hne Hi Hk. rewrite !page_header_addr_eq.
  apply load_bitmap_clear_ne; Z.div_mod_to_equations; lia.
Qed.


(** ** The state changes keep every page consistent *)

Lemma page_consistent_typed (st : state) (p : Z) (t : page_type_t) :
  type (entry st p) = t -> t <> PAGE_FREE ->
  (page_consistent st p
   <-> used_segments (entry st p)
       = popcount (heap st) (page_header_addr p) (segments_of t)).
Proof.
  intros Ht Hne. unfold page_consistent. rewrite Ht.
  destruct t; [contradiction| |]; reflexivity.
Qed.

Lemma segments_of_range (t : page_type_t) : 0 <= segments_of t <= 63.
Proof. destruct t; simpl; consts; lia. Qed.

Lemma popcount_set_bit (hp : list Z) (p i n : Z) :
  Z.of_nat (length hp) = HEAP_SIZE -> 0 <= p < PAGE_COUNT -> 0 <= i < n -> n <= 128 ->
  bitmap_is_set hp (page_header_addr p) i = false ->
  popcount (bitmap_set hp (page_header_addr p) i) (page_header_addr p) n
  = popcount hp (page_header_addr p) n + 1.
Proof.
  intros Hl Hp Hi Hn Hclr. unfold popcount.
  apply count_turn_on with (i := i); [lia|assumption|].
  intros j Hj. rewrite page_bit_set by (assumption || lia).
  now rewrite Z.eqb_refl.
Qed.

Lemma popcount_clear_bit (hp : list Z) (p i n : Z) :
  Z.of_nat (length hp) = HEAP_SIZE -> 0 <= p < PAGE_COUNT -> 0 <= i < n -> n <= 128 ->
  bitmap_is_set hp (page_header_addr p) i = true ->
  popcount (bitmap_clear hp (page_header_addr p) i) (page_header_addr p) n
  = popcount hp (page_header_addr p) n - 1.
Proof.
  intros Hl Hp Hi Hn Hset. unfold popcount.
  apply count_turn_off with (i := i); [lia|assumption|].
  intros j Hj. rewrite page_bit_clear by (assumption || lia).
  now rewrite Z.eqb_refl.
Qed.

Lemma popcount_header_zero (st : state) (p n : Z) :
  header_zero st p -> 0 <= n <= 128 ->
  popcount (heap st) (page_header_addr p) n = 0.
Proof.
  intros Hz Hn. unfold popcount. apply count_none. intros j Hj.
  apply bitmap_is_set_zero, Hz. consts. Z.div_mod_to_equations; lia.
Qed.

Lemma consistent_take_slot (st : state) (p i : Z) (t : page_type_t) :
  consistent st -> 0 <= p < PAGE_COUNT ->
  type (entry st p) = t -> t <> PAGE_FREE -> 0 <= i < segments_of t ->
  bitmap_is_set (heap st) (page_header_addr p) i = false ->
  consistent (take_slot st p i).
Proof.
  intros [Hw Hpages] Hp Ht Hne Hi Hclr.
  pose proof (segments_of_range t) as Hseg.
  split; [now apply well_sized_take_slot|]. intros q Hq.
  destruct (Z.eq_dec q p) as [->|Hqp].
  - apply (page_consistent_typed _ _ t).
    + rewrite entry_take_slot, Z.eqb_refl by (assumption || lia). assumption.
    + assumption.
    + rewrite entry_take_slot, Z.eqb_refl by (assumption || lia).
      cbn [used_segments]. rewrite heap_take_slot.
      rewrite popcount_set_bit by (apply Hw || lia || assumption).
      pose proof (Hpages p Hp) as Hpp.
      apply (page_consistent_typed _ _ t) in Hpp; try assumption.
      rewrite Hpp. apply u16_small.
      pose proof (popcount_bounds (heap st) (page_header_addr p) (segments_of t)).
      lia.
  - apply (page_consistent_ext st); [| |auto].
    + rewrite entry_take_slot by (assumption || lia).
      destruct (Z.eqb_spec p q); [lia|reflexivity].
    + intros k Hk. rewrite heap_take_slot.
      apply load_bitmap_set_other; lia.
Qed.

Lemma consistent_open_page (st : state) (p : Z) (t : page_type_t) :
  consistent st -> 0 <= p < PAGE_COUNT ->
  type (entry st p) = PAGE_FREE -> t <> PAGE_FREE ->
  consistent (open_page st p t).
Proof.
  intros [Hw Hpages] Hp Ht Hne.
  split; [now apply well_sized_open_page|]. intros q Hq.
  destruct (Z.eq_dec q p) as [->|Hqp].
  - apply (page_consistent_typed _ _ t).
    + rewrite entry_open_page, Z.eqb_refl by (assumption || lia). reflexivity.
    + assumption.
    + rewrite entry_open_page, Z.eqb_refl by (assumption || lia).
      cbn [used_segments]. rewrite heap_open_page.
      specialize (Hpages p Hp). unfold page_consistent in Hpages.
      rewrite Ht in Hpages. destruct Hpages as [_ Hz].
      assert (0 < segments_of t <= 63) by (destruct t; simpl; consts; first [congruence | lia]).
      rewrite popcount_set_bit; try (apply Hw || lia || assumption).
      * rewrite popcount_header_zero by (assumption || lia). reflexivity.
      * apply bitmap_is_set_zero, Hz. consts. Z.div_mod_to_equations. lia.
  - apply (page_consistent_ext st); [| |auto].
    + rewrite entry_open_page by (assumption || lia).
      destruct (Z.eqb_spec p q); [lia|reflexivity].
    + intros k Hk. rewrite heap_open_page.
      apply load_bitmap_set_other; lia.
Qed.

Lemma consistent_page_set_free (st : state) (p : Z) :
  well_sized st -> 0 <= p < PAGE_COUNT ->
  (forall q, 0 <= q < PAGE_COUNT -> q <> p -> page_consistent st q) ->
  consistent (page_set_free st p).
Proof.
  intros Hw Hp Hpages. split; [now apply well_sized_page_set_free|].
  intros q Hq. destruct (Z.eq_dec q p) as [->|Hqp].
  - unfold page_consistent.
    rewrite entry_page_set_free, Z.eqb_refl by (assumption || lia).
    cbn [type used_segments]. split; [reflexivity|].
    now apply header_zero_page_set_free.
  - apply (page_consistent_ext st); [| |auto].
    + rewrite entry_page_set_free by (assumption || lia).
      destruct (Z.eqb_spec p q); [lia|reflexivity].
    + intros k Hk. now apply load_page_set_free_other.
Qed.

Lemma consistent_release_slot (st : state) (p i : Z) (t : page_type_t) :
  consistent st -> 0 <= p < PAGE_COUNT ->
  type (entry st p) = t -> t <> PAGE_FREE -> 0 <= i < segments_of t ->
  bitmap_is_set (heap st) (page_header_addr p) i = true ->
  consistent (release_slot st p i).
Proof.
  intros [Hw Hpages] Hp Ht Hne Hi Hset.
  pose proof (segments_of_range t) as Hseg.
  pose proof (popcount_bounds (heap st) (page_header_addr p) (segments_of t)) as Hb.
  assert (Hpc := popcount_clear_bit (heap st) p i (segments_of t)
                   (proj1 Hw) Hp Hi ltac:(lia) Hset).
  pose proof (popcount_bounds (bitmap_clear (heap st) (page_header_addr p) i)
                (page_header_addr p) (segments_of t)) as Hb'.
  assert (Hused : used_segments (entry st p)
                  = popcount (heap st) (page_header_addr p) (segments_of t))
    by (apply (page_consistent_typed _ _ t); auto).
  set (st1 := set_heap st (bitmap_clear (heap st) (page_header_addr p) i)).
  set (st2 := set_used st1 p (u16 (used_segments (entry st1 p) - 1))).
  assert (Hw2 : well_sized st2) by (unfold st2, st1; auto with sized).
  assert (He2 : forall q, 0 <= q ->
            entry st2 q = if p =? q
                          then mk_h_page (used_segments (entry st p) - 1) t
                          else entry st q).
  { intros q Hq. unfold st2. rewrite entry_set_used by (unfold st1; sized).
    unfold st1. rewrite !entry_set_heap, Ht.
    rewrite u16_small by lia. reflexivity. }
  assert (Hc2 : forall q, 0 <= q < PAGE_COUNT -> q <> p -> page_consistent st2 q).
  { intros q Hq Hqp. apply (page_consistent_ext st); [| |auto].
    - rewrite He2 by lia. destruct (Z.eqb_spec p q); [lia|reflexivity].
    - intros k Hk. apply load_bitmap_clear_other; lia. }
  unfold release_slot. fold st1. fold st2.
  destruct (used_segments (entry st2 p) =? 0) eqn:Hz.
  - now apply consistent_page_set_free.
  - split; [assumption|]. intros q Hq.
    destruct (Z.eq_dec q p) as [->|Hqp]; [|auto].
    apply (page_consistent_typed _ _ t).
    + rewrite He2, Z.eqb_refl by lia. reflexivity.
    + assumption.
    + rewrite He2, Z.eqb_refl by lia. cbn [used_segments].
      change (heap st2) with (bitmap_clear (heap st) (page_header_addr p) i).
      rewrite Hpc. lia.
Qed.


(** ** The two allocation functions as one scan *)

Section Scan.
Variable heap_base : Z.

Lemma alloc_small_partial_eq (st : state) (r : nat) : forall page,
  alloc_small_partial heap_base st r page = alloc_partial heap_base PAGE_SMALL st r page.
Proof.
  induction r as [|r IH]; intros page; simpl; [reflexivity|].
  unfold has_room. cbn [segments_of slot_size_of].
  destruct (page_type_eqb _ _ && _); simpl; [|apply IH].
  destruct (_ =? UINT16_MAX); simpl; [apply IH|reflexivity].
Qed.

Lemma alloc_big_partial_eq (st : state) (r : nat) : forall page,
  alloc_big_partial heap_base st r page = alloc_partial heap_base PAGE_BIG st r page.
Proof.
  induction r as [|r IH]; intros page; simpl; [reflexivity|].
  unfold has_room. cbn [segments_of slot_size_of].
  destruct (page_type_eqb _ _ && _); simpl; [|apply IH].
  destruct (_ =? UINT16_MAX); simpl; [apply IH|reflexivity].
Qed.

Lemma alloc_small_fresh_eq (st : state) (r : nat) : forall page,
  alloc_small_fresh heap_base st r page = alloc_fresh heap_base PAGE_SMALL st r page.
Proof.
  induction r as [|r IH]; intros page; simpl; [reflexivity|].
  destruct (page_type_eqb _ _); [reflexivity|apply IH].
Qed.

Lemma alloc_big_fresh_eq (st : state) (r : nat) : forall page,
  alloc_big_fresh heap_base st r page = alloc_fresh heap_base PAGE_BIG st r page.
Proof.
  induction r as [|r IH]; intros page; simpl; [reflexivity|].
  destruct (page_type_eqb _ _); [reflexivity|apply IH].
Qed.

Lemma alloc_small_eq (st : state) :
  alloc_small heap_base st = alloc_class heap_base PAGE_SMALL st.
Proof.
  unfold alloc_small, alloc_class.
  now rewrite alloc_small_partial_eq, alloc_small_fresh_eq.
Qed.

Lemma alloc_big_eq (st : state) :
  alloc_big heap_base st = alloc_class heap_base PAGE_BIG st.
Proof.
  unfold alloc_big, alloc_class.
  now rewrite alloc_big_partial_eq, alloc_big_fresh_eq.
Qed.

Lemma alloc_partial_spec (t : page_type_t) (st : state) (r : nat) : forall page,
  match alloc_partial heap_base t st r page with
  | Some (a, st') =>
      exists p, page <= p < page + Z.of_nat r
        /\ has_room st t p = true
        /\ (forall q, page <= q < p -> has_room st t q = false)
        /\ a = heap_base + (page_data_addr p
               + find_free_block (heap st) (page_header_addr p) (segments_of t)
                 * slot_size_of t)
        /\ st' = take_slot st p
                   (find_free_block (heap st) (page_header_addr p) (segments_of t))
  | None => forall q, page <= q < page + Z.of_nat r -> has_room st t q = false
  end.
Proof.
  induction r as [|r IH]; intros page; simpl alloc_partial.
  - cbv beta iota. intros; lia.
  - destruct (has_room st t page) eqn:Hroom.
    + cbv beta iota zeta. exists page; repeat split; auto; intros; lia.
    + specialize (IH (page + 1)).
      destruct (alloc_partial heap_base t st r (page + 1)) as [[a st']|].
      * destruct IH as (p & Hp & Hr & Hlow & Ha & Hst).
        exists p. repeat split; try lia; auto.
        intros q Hq. destruct (Z.eq_dec q page) as [->|]; [assumption|apply Hlow; lia].
      * intros q Hq. destruct (Z.eq_dec q page) as [->|]; [assumption|apply IH; lia].
Qed.

Lemma alloc_fresh_spec (t : page_type_t) (st : state) (r : nat) : forall page,
  match alloc_fresh heap_base t st r page with
  | Some (a, st') =>
      exists p, page <= p < page + Z.of_nat r
        /\ type (entry st p) = PAGE_FREE
        /\ (forall q, page <= q < p -> type (entry st q) <> PAGE_FREE)
        /\ a = heap_base + page_data_addr p
        /\ st' = open_page st p t
  | None => forall q, page <= q < page + Z.of_nat r -> type (entry st q) <> PAGE_FREE
  end.
Proof.
  induction r as [|r IH]; intros page; simpl alloc_fresh.
  - cbv beta iota. intros; lia.
  - destruct (type (entry st page)) eqn:Ht; simpl.
    1: { cbv beta iota zeta. exists page; repeat split; auto; intros; lia. }
    all: specialize (IH (page + 1));
      destruct (alloc_fresh heap_base t st r (page + 1)) as [[a st']|];
      [ destruct IH as (p & Hp & Hr & Hlow & Ha & Hst);
        exists p; repeat split; try lia; auto;
        intros q Hq; destruct (Z.eq_dec q page) as [->|];
        [congruence|apply Hlow; lia]
      | intros q Hq; destruct (Z.eq_dec q page) as [->|];
        [congruence|apply IH; lia] ].
Qed.

(** The three ways an allocation ends. *)
Lemma alloc_class_cases (t : page_type_t) (st : state) :
  (exists p, 0 <= p < PAGE_COUNT
     /\ has_room st t p = true
     /\ (forall q, 0 <= q < p -> has_room st t q = false)
     /\ alloc_class heap_base t st
        = (heap_base + (page_data_addr p
             + find_free_block (heap st) (page_header_addr p) (segments_of t)
               * slot_size_of t),
           take_slot st p
             (find_free_block (heap st) (page_header_addr p) (segments_of t))))
  \/ (exists p, 0 <= p < PAGE_COUNT
     /\ (forall q, 0 <= q < PAGE_COUNT -> has_room st t q = false)
     /\ type (entry st p) = PAGE_FREE
     /\ (forall q, 0 <= q < p -> type (entry st q) <> PAGE_FREE)
     /\ alloc_class heap_base t st = (heap_base + page_data_addr p, open_page st p t))
  \/ ((forall q, 0 <= q < PAGE_COUNT -> has_room st t q = false)
      /\ (forall q, 0 <= q < PAGE_COUNT -> type (entry st q) <> PAGE_FREE)
      /\ alloc_class heap_base t st = (NULL, st)).
Proof.
  unfold alloc_class.
  pose proof (alloc_partial_spec t st (Z.to_nat PAGE_COUNT) 0) as H1.
  destruct (alloc_partial heap_base t st (Z.to_nat PAGE_COUNT) 0) as [[a st']|].
  - left. destruct H1 as (p & Hp & Hr & Hlow & -> & ->).
    exists p. consts. repeat split; auto; lia.
  - right.
    pose proof (alloc_fresh_spec t st (Z.to_nat PAGE_COUNT) 0) as H2.
    destruct (alloc_fresh heap_base t st (Z.to_nat PAGE_COUNT) 0) as [[a st']|].
    + left. destruct H2 as (p & Hp & Hr & Hlow & -> & ->).
      exists p. consts. repeat split; auto; try lia; intros; apply H1; lia.
    + right. consts. repeat split; intros; auto; (apply H1 || apply H2); lia.
Qed.

(** A page with room has a clear bit, and [find_free_block] returns it. *)
Lemma has_room_slot (t : page_type_t) (st : state) (p : Z) :
  has_room st t p = true ->
  type (entry st p) = t
  /\ used_segments (entry st p) < segments_of t
  /\ 0 <= find_free_block (heap st) (page_header_addr p) (segments_of t) < segments_of t
  /\ bitmap_is_set (heap st) (page_header_addr p)
       (find_free_block (heap st) (page_header_addr p) (segments_of t)) = false.
Proof.
  unfold has_room. intros H.
  apply andb_prop in H as [H Hf]. apply andb_prop in H as [Ht Hu].
  apply Z.ltb_lt in Hu. apply negb_true_iff, Z.eqb_neq in Hf.
  assert (type (entry st p) = t) as Hty
    by (destruct (type (entry st p)), t; simpl in Ht; congruence).
  pose proof (segments_of_range t) as Hseg.
  destruct (find_free_block_spec (heap st) (page_header_addr p) (segments_of t))
    as [[He _]|(Hr & Hclr & _)]; [consts; lia|congruence|].
  auto.
Qed.

Lemma consistent_alloc_class (t : page_type_t) (st : state) :
  consistent st -> t <> PAGE_FREE -> consistent (snd (alloc_class heap_base t st)).
Proof.
  intros Hc Ht.
  destruct (alloc_class_cases t st)
    as [(p & Hp & Hr & _ & ->)|[(p & Hp & _ & Hf & _ & ->)|(_ & _ & ->)]];
    cbn [snd]; [| |assumption].
  - apply has_room_slot in Hr as (Hty & _ & Hi & Hclr).
    now apply (consistent_take_slot st p _ t).
  - now apply consistent_open_page.
Qed.

Lemma consistent_custom_malloc (st : state) (size : Z) :
  consistent st -> consistent (snd (custom_malloc heap_base st size)).
Proof.
  intros Hc. unfold custom_malloc.
  destruct (size =? 0); [assumption|].
  destruct (size <=? BLOCK_SMALL).
  - rewrite alloc_small_eq. now apply consistent_alloc_class.
  - destruct (size <=? BLOCK_BIG); [|assumption].
    rewrite alloc_big_eq. now apply consistent_alloc_class.
Qed.

End Scan.


(** ** [custom_free] either does nothing or gives back one slot *)

Section Release.
Variable heap_base : Z.
Variable size_bits : nat.

Lemma size_t_nonneg (z : Z) : 0 <= size_t size_bits z.
Proof.
  unfold size_t. apply Z.mod_pos_bound. apply Z.pow_pos_nonneg; lia.
Qed.

Lemma free_in_page_cases (st : state) (pointer p slot segs : Z) :
  0 < slot -> 0 <= segs <= 63 ->
  free_in_page heap_base size_bits st pointer p slot segs = st
  \/ exists i,
       size_t size_bits (pointer - (heap_base + page_data_addr p)) = i * slot
       /\ 0 <= i < segs
       /\ bitmap_is_set (heap st) (page_header_addr p) i = true
       /\ free_in_page heap_base size_bits st pointer p slot segs
          = release_slot st p i.
Proof.
  intros Hslot Hsegs. unfold free_in_page, addr_of.
  set (off := size_t size_bits (pointer - (heap_base + page_data_addr p))).
  pose proof (size_t_nonneg (pointer - (heap_base + page_data_addr p))) as Hoff.
  fold off in Hoff.
  destruct (Z.eqb_spec (off mod slot) 0) as [Hmod|]; simpl; [|now left].
  destruct (Z.geb_spec (off / slot) segs) as [|Hlt]; [now left|].
  assert (0 <= off / slot) by (apply Z.div_pos; lia).
  rewrite !u16_small by lia.
  destruct (bitmap_is_set (heap st) (page_header_addr p) (off / slot)) eqn:Hset;
    simpl; [|now left].
  right. exists (off / slot). repeat split; try lia; auto.
  pose proof (Z.div_mod off slot). lia.
Qed.

Lemma page_index_range (ptr : Z) :
  heap_base <= ptr < heap_base + HEAP_SIZE ->
  0 <= Z.shiftr (ptr - (heap_base + 0)) PAGE_SHIFT < PAGE_COUNT
  /\ Z.shiftr (ptr - (heap_base + 0)) PAGE_SHIFT = (ptr - heap_base) / 1024.
Proof.
  consts. unfold PAGE_SHIFT. intros H. rewrite Z.shiftr_div_pow2 by lia.
  rewrite Z.add_0_r. change (2 ^ 10) with 1024.
  split; [|reflexivity]. Z.div_mod_to_equations; lia.
Qed.

Lemma custom_free_cases (st : state) (ptr : Z) :
  custom_free heap_base size_bits st ptr = st
  \/ exists p i t,
       heap_base <= ptr < heap_base + HEAP_SIZE
       /\ p = (ptr - heap_base) / 1024 /\ 0 <= p < PAGE_COUNT
       /\ type (entry st p) = t /\ t <> PAGE_FREE
       /\ used_segments (entry st p) <> 0
       /\ size_t size_bits (ptr - (heap_base + page_data_addr p)) = i * slot_size_of t
       /\ 0 <= i < segments_of t
       /\ bitmap_is_set (heap st) (page_header_addr p) i = true
       /\ custom_free heap_base size_bits st ptr = release_slot st p i.
Proof.
  unfold custom_free, addr_of.
  destruct (Z.eqb_spec ptr NULL); simpl; [now left|].
  destruct (Z.ltb_spec ptr (heap_base + 0)); simpl; [now left|].
  destruct (Z.geb_spec ptr (heap_base + HEAP_SIZE)); simpl; [now left|].
  destruct (page_index_range ptr) as [Hp Hpe]; [lia|].
  set (p := Z.shiftr (ptr - (heap_base + 0)) PAGE_SHIFT) in *.
  destruct (Z.eqb_spec (used_segments (entry st p)) 0); [now left|].
  destruct (type (entry st p)) eqn:Ht; [now left| |].
  - destruct (free_in_page_cases st ptr p ALIGNED_BLOCK_SMALL SMALL_SEGMENTS)
      as [->|(i & Hoff & Hi & Hset & ->)]; [consts; lia|consts; lia|now left|].
    right. exists p, i, PAGE_SMALL.
    repeat split; try exact Hoff; try apply Hi; auto; try lia; congruence.
  - destruct (free_in_page_cases st ptr p ALIGNED_BLOCK_BIG BIG_SEGMENTS)
      as [->|(i & Hoff & Hi & Hset & ->)]; [consts; lia|consts; lia|now left|].
    right. exists p, i, PAGE_BIG.
    repeat split; try exact Hoff; try apply Hi; auto; try lia; congruence.
Qed.

Lemma consistent_custom_free (st : state) (ptr : Z) :
  consistent st -> consistent (custom_free heap_base size_bits st ptr).
Proof.
  intros Hc.
  destruct (custom_free_cases st ptr)
    as [->|(p & i & t & _ & _ & Hp & Ht & Hne & _ & _ & Hi & Hset & ->)];
    [assumption|].
  now apply (consistent_release_slot st p i t).
Qed.

End Release.

(** ** [alloc_init] *)

Lemma page_consistent_page_set_free (st : state) (p q : Z) :
  well_sized st -> 0 <= p < PAGE_COUNT -> 0 <= q < PAGE_COUNT ->
  (q <> p -> page_consistent st q) ->
  page_consistent (page_set_free st p) q.
Proof.
  intros Hw Hp Hq H. destruct (Z.eq_dec q p) as [->|Hqp].
  - unfold page_consistent.
    rewrite entry_page_set_free, Z.eqb_refl by (assumption || lia).
    cbn [type used_segments]. split; [reflexivity|].
    now apply header_zero_page_set_free.
  - apply (page_consistent_ext st); [| |auto].
    + rewrite entry_page_set_free by (assumption || lia).
      destruct (Z.eqb_spec p q); [lia|reflexivity].
    + intros k Hk. now apply load_page_set_free_other.
Qed.

Lemma alloc_init_from_spec (r : nat) : forall st i,
  well_sized st -> 0 <= i -> i + Z.of_nat r <= PAGE_COUNT ->
  well_sized (alloc_init_from st r i)
  /\ (forall q, 0 <= q < PAGE_COUNT ->
        (i <= q < i + Z.of_nat r ->
           entry (alloc_init_from st r i) q = mk_h_page 0 PAGE_FREE
           /\ header_zero (alloc_init_from st r i) q)
        /\ (q < i -> page_consistent st q ->
              page_consistent (alloc_init_from st r i) q)
        /\ (q < i -> entry (alloc_init_from st r i) q = entry st q)).
Proof.
  induction r as [|r IH]; intros st i Hw Hi Hr; simpl alloc_init_from.
  - split; [assumption|]. intros q Hq. repeat split; auto; lia.
  - destruct (IH (page_set_free st i) (i + 1)) as [Hw' Hpages];
      [now apply well_sized_page_set_free|lia|lia|].
    split; [assumption|]. intros q Hq.
    destruct (Hpages q Hq) as (Hnew & Hold & Hent).
    split; [|split].
    + intros Hrange. destruct (Z.eq_dec q i) as [->|Hne]; [|apply Hnew; lia].
      assert (Hci : page_consistent (page_set_free st i) i)
        by (apply page_consistent_page_set_free; auto; lia).
      apply Hold in Hci; [|lia].
      rewrite Hent by lia.
      rewrite entry_page_set_free, Z.eqb_refl by (assumption || lia).
      split; [reflexivity|].
      unfold page_consistent in Hci. rewrite Hent in Hci by lia.
      rewrite entry_page_set_free, Z.eqb_refl in Hci by (assumption || lia).
      apply Hci.
    + intros Hlt Hc. apply Hold; [lia|].
      apply page_consistent_page_set_free; auto; lia.
    + intros Hlt. rewrite Hent by lia.
      rewrite entry_page_set_free by (assumption || lia).
      destruct (Z.eqb_spec i q); [lia|reflexivity].
Qed.

Lemma alloc_init_spec (st0 : state) :
  well_sized st0 ->
  well_sized (alloc_init st0)
  /\ forall q, 0 <= q < PAGE_COUNT ->
       entry (alloc_init st0) q = mk_h_page 0 PAGE_FREE
       /\ header_zero (alloc_init st0) q.
Proof.
  intros Hw. unfold alloc_init.
  assert (Hn : Z.of_nat (Z.to_nat PAGE_COUNT) = PAGE_COUNT) by (consts; lia).
  generalize dependent (Z.to_nat PAGE_COUNT). intros n Hn.
  destruct (alloc_init_from_spec n st0 0) as [Hw' H]; [assumption|lia|lia|].
  split; [assumption|]. intros q Hq.
  destruct (H q Hq) as (Hnew & _ & _). apply Hnew. lia.
Qed.

Lemma consistent_alloc_init (st0 : state) :
  well_sized st0 -> consistent (alloc_init st0).
Proof.
  intros Hw. destruct (alloc_init_spec st0 Hw) as [Hw' H].
  split; [assumption|]. intros q Hq. destruct (H q Hq) as [He Hz].
  unfold page_consistent. rewrite He. cbn [type used_segments]. auto.
Qed.

Lemma reachable_consistent (heap_base : Z) (size_bits : nat) (st : state) :
  reachable heap_base size_bits st -> consistent st.
Proof.
  induction 1.
  - now apply consistent_alloc_init.
  - now apply consistent_custom_malloc.
  - now apply consistent_custom_free.
Qed.

(** ** What an allocation returns *)

Lemma take_slot_bit (st : state) (p i : Z) :
  well_sized st -> 0 <= p < PAGE_COUNT -> 0 <= i < 128 ->
  bitmap_is_set (heap (take_slot st p i)) (page_header_addr p) i = true.
Proof.
  intros [Hh _] Hp Hi. rewrite heap_take_slot, page_bit_set by (assumption || lia).
  now rewrite !Z.eqb_refl.
Qed.

Lemma alloc_class_result (heap_base : Z) (t : page_type_t) (st : state) :
  consistent st -> t <> PAGE_FREE ->
  alloc_class heap_base t st = (NULL, st)
  \/ exists p k,
       0 <= p < PAGE_COUNT /\ 0 <= k < segments_of t
       /\ fst (alloc_class heap_base t st)
          = heap_base + (page_data_addr p + k * slot_size_of t)
       /\ bitmap_is_set (heap st) (page_header_addr p) k = false
       /\ type (entry (snd (alloc_class heap_base t st)) p) = t
       /\ bitmap_is_set (heap (snd (alloc_class heap_base t st)))
            (page_header_addr p) k = true.
Proof.
  intros [Hw Hpages] Ht.
  pose proof (segments_of_range t) as Hseg.
  destruct (alloc_class_cases heap_base t st)
    as [(p & Hp & Hr & _ & ->)|[(p & Hp & _ & Hf & _ & ->)|(_ & _ & ->)]];
    [right|right|now left]; cbn [fst snd].
  - apply has_room_slot in Hr as (Hty & _ & Hi & Hclr).
    exists p, (find_free_block (heap st) (page_header_addr p) (segments_of t)).
    repeat split; try lia; auto.
    + rewrite entry_take_slot, Z.eqb_refl by (assumption || lia). assumption.
    + apply take_slot_bit; auto; lia.
  - assert (0 < segments_of t) by (destruct t; simpl; consts; first [congruence|lia]).
    specialize (Hpages p Hp). unfold page_consistent in Hpages.
    rewrite Hf in Hpages. destruct Hpages as [_ Hz].
    exists p, 0. split; [lia|]. split; [lia|]. split; [|split; [|split]].
    + f_equal. lia.
    + apply bitmap_is_set_zero, Hz. consts. Z.div_mod_to_equations. lia.
    + rewrite entry_open_page, Z.eqb_refl by (assumption || lia). reflexivity.
    + rewrite heap_open_page, page_bit_set by (apply Hw || lia).
      now rewrite !Z.eqb_refl.
Qed.

Lemma has_room_iff (st : state) (t : page_type_t) (q : Z) :
  consistent st -> t <> PAGE_FREE -> 0 <= q < PAGE_COUNT ->
  (has_room st t q = true
   <-> type (entry st q) = t /\ used_segments (entry st q) < segments_of t).
Proof.
  intros [Hw Hpages] Hne Hq. pose proof (segments_of_range t) as Hseg. split.
  - intros Hr. apply has_room_slot in Hr. tauto.
  - intros [Ht Hu]. unfold has_room. rewrite Ht.
    replace (page_type_eqb t t) with true by (now destruct t).
    destruct (Z.ltb_spec (used_segments (entry st q)) (segments_of t)); [|lia].
    cbn [andb]. apply negb_true_iff, Z.eqb_neq.
    specialize (Hpages q Hq).
    apply (page_consistent_typed st q t Ht Hne) in Hpages.
    destruct (find_free_block_finds (heap st) (page_header_addr q) (segments_of t))
      as [Hr _]; [consts; lia|lia|].
    consts. lia.
Qed.

(** What [alloc_small] and [alloc_big] come to: null exactly when no page
    of the class has a slot left and no page is free, else a slot of the
    class that was clear and is now in use. *)
Lemma alloc_class_served (heap_base : Z) (t : page_type_t) (st : state) :
  consistent st -> t <> PAGE_FREE ->
  (alloc_class heap_base t st = (NULL, st)
   <-> forall q, 0 <= q < PAGE_COUNT ->
         type (entry st q) <> PAGE_FREE
         /\ ~ (type (entry st q) = t
               /\ used_segments (entry st q) < segments_of t))
  /\ (alloc_class heap_base t st = (NULL, st)
      \/ exists p k,
           0 <= p < PAGE_COUNT /\ 0 <= k < segments_of t
           /\ fst (alloc_class heap_base t st)
              = heap_base + (page_data_addr p + k * slot_size_of t)
           /\ bitmap_is_set (heap st) (page_header_addr p) k = false
           /\ type (entry (snd (alloc_class heap_base t st)) p) = t
           /\ bitmap_is_set (heap (snd (alloc_class heap_base t st)))
                (page_header_addr p) k = true
           /\ used_segments (entry (snd (alloc_class heap_base t st)) p)
              = used_segments (entry st p) + 1).
Proof.
  intros Hc Ht. pose proof Hc as [Hw Hpages].
  pose proof (segments_of_range t) as Hseg.
  assert (Hsegs : 0 < segments_of t)
    by (destruct t; simpl; consts; first [congruence|lia]).
  destruct (alloc_class_cases heap_base t st)
    as [(p & Hp & Hr & _ & Heq)|[(p & Hp & _ & Hf & _ & Heq)|(Hnone & Hnf & Heq)]].
  - pose proof (has_room_slot _ _ _ Hr) as (Hty & Hu & Hi & Hclr).
    set (k := find_free_block (heap st) (page_header_addr p) (segments_of t)) in *.
    assert (Hused : used_segments (entry (take_slot st p k) p)
                    = used_segments (entry st p) + 1).
    { rewrite entry_take_slot, Z.eqb_refl by (assumption || lia).
      cbn [used_segments]. specialize (Hpages p Hp).
      apply (page_consistent_typed st p t Hty Ht) in Hpages.
      pose proof (popcount_bounds (heap st) (page_header_addr p) (segments_of t)
                    ltac:(lia)).
      apply u16_small. lia. }
    rewrite Heq. split.
    + split.
      * intros Hnull. exfalso.
        assert (Hst : take_slot st p k = st) by congruence.
        rewrite Hst in Hused. lia.
      * intros Hall. exfalso. destruct (Hall p Hp) as [_ Hno]. apply Hno. now split.
    + right. exists p, k. cbn [fst snd].
      split; [assumption|]. split; [assumption|]. split; [reflexivity|].
      split; [assumption|]. split.
      * rewrite entry_take_slot, Z.eqb_refl by (assumption || lia). assumption.
      * split; [apply take_slot_bit; auto; lia|assumption].
  - pose proof (Hpages p Hp) as Hpp. unfold page_consistent in Hpp.
    rewrite Hf in Hpp. destruct Hpp as [Hu0 Hz].
    assert (He : entry (open_page st p t) p = mk_h_page 1 t)
      by (rewrite entry_open_page, Z.eqb_refl by (assumption || lia); reflexivity).
    rewrite Heq. split.
    + split.
      * intros Hnull. exfalso.
        assert (Hst : open_page st p t = st) by congruence.
        rewrite Hst in He. rewrite He in Hf. cbn [type] in Hf. congruence.
      * intros Hall. exfalso. now destruct (Hall p Hp) as [Hno _].
    + right. exists p, 0. cbn [fst snd].
      split; [assumption|]. split; [lia|]. split; [f_equal; lia|].
      split; [apply bitmap_is_set_zero, Hz; consts; Z.div_mod_to_equations; lia|].
      rewrite He. cbn [type used_segments].
      split; [reflexivity|]. split; [|lia].
      rewrite heap_open_page, page_bit_set by (apply Hw || lia).
      now rewrite !Z.eqb_refl.
  - rewrite Heq. split; [|now left]. split; [|reflexivity].
    intros _ q Hq. split; [now apply Hnf|].
    intros Hroom. apply (has_room_iff st t q Hc Ht Hq) in Hroom.
    rewrite Hnone in Hroom by assumption. discriminate.
Qed.

(** C5: [custom_malloc] returns null and keeps the state for a size of 0 and
    for a size above 180.  A size of 1 to 15 is served by [alloc_small] out
    of the small class: the call returns null, leaving the state as it
    was, exactly when no page is free and no [PAGE_SMALL] page has fewer
    than 63 slots in use, and else returns a 16-byte slot of a
    [PAGE_SMALL] page whose bit was clear and is now set, with the page's
    [used_segments] one higher.  A size of 16 to 180 is served in the same
    way by [alloc_big] out of the 192-byte slots of [PAGE_BIG] pages, of
    which a page has 5. *)
Theorem custom_malloc_size_classes (heap_base : Z) (size_bits : nat)
    (st : state) (size : Z) :
  reachable heap_base size_bits st ->
  0 <= size ->
  (size = 0 -> custom_malloc heap_base st size = (NULL, st))
  /\ (180 < size -> custom_malloc heap_base st size = (NULL, st))
  /\ (1 <= size <= 15 ->
        custom_malloc heap_base st size = alloc_small heap_base st
        /\ (custom_malloc heap_base st size = (NULL, st)
            <-> forall q, 0 <= q < PAGE_COUNT ->
                  type (entry st q) <> PAGE_FREE
                  /\ ~ (type (entry st q) = PAGE_SMALL
                        /\ used_segments (entry st q) < SMALL_SEGMENTS))
        /\ (custom_malloc heap_base st size = (NULL, st)
            \/ exists p k,
                 0 <= p < PAGE_COUNT /\ 0 <= k < SMALL_SEGMENTS
                 /\ fst (custom_malloc heap_base st size)
                    = heap_base + (page_data_addr p + k * ALIGNED_BLOCK_SMALL)
                 /\ bitmap_is_set (heap st) (page_header_addr p) k = false
                 /\ type (entry (snd (custom_malloc heap_base st size)) p) = PAGE_SMALL
                 /\ bitmap_is_set (heap (snd (custom_malloc heap_base st size)))
                      (page_header_addr p) k = true
                 /\ used_segments (entry (snd (custom_malloc heap_base st size)) p)
                    = used_segments (entry st p) + 1))
  /\ (16 <= size <= 180 ->
        custom_malloc heap_base st size = alloc_big heap_base st
        /\ (custom_malloc heap_base st size = (NULL, st)
            <-> forall q, 0 <= q < PAGE_COUNT ->
                  type (entry st q) <> PAGE_FREE
                  /\ ~ (type (entry st q) = PAGE_BIG
                        /\ used_segments (entry st q) < BIG_SEGMENTS))
        /\ (custom_malloc heap_base st size = (NULL, st)
            \/ exists p k,
                 0 <= p < PAGE_COUNT /\ 0 <= k < BIG_SEGMENTS
                 /\ fst (custom_malloc heap_base st size)
                    = heap_base + (page_data_addr p + k * ALIGNED_BLOCK_BIG)
                 /\ bitmap_is_set (heap st) (page_header_addr p) k = false
                 /\ type (entry (snd (custom_malloc heap_base st size)) p) = PAGE_BIG
                 /\ bitmap_is_set (heap (snd (custom_malloc heap_base st size)))
                      (page_header_addr p) k = true
                 /\ used_segments (entry (snd (custom_malloc heap_base st size)) p)
                    = used_segments (entry st p) + 1)).
Proof.
  intros Hreach Hsize. apply reachable_consistent in Hreach.
  split; [|split; [|split]].
  - intros ->. reflexivity.
  - intros H. unfold custom_malloc. consts.
    destruct (Z.eqb_spec size 0); [lia|].
    destruct (Z.leb_spec size 15); [lia|].
    destruct (Z.leb_spec size 180); [lia|reflexivity].
  - intros Hs.
    assert (Hm : custom_malloc heap_base st size = alloc_small heap_base st).
    { unfold custom_malloc. consts. destruct (Z.eqb_spec size 0); [lia|].
      destruct (Z.leb_spec size 15); [reflexivity|lia]. }
    split; [exact Hm|]. rewrite Hm, alloc_small_eq.
    exact (alloc_class_served heap_base PAGE_SMALL st Hreach ltac:(discriminate)).
  - intros Hs.
    assert (Hm : custom_malloc heap_base st size = alloc_big heap_base st).
    { unfold custom_malloc. consts. destruct (Z.eqb_spec size 0); [lia|].
      destruct (Z.leb_spec size 15); [lia|].
      destruct (Z.leb_spec size 180); [reflexivity|lia]. }
    split; [exact Hm|]. rewrite Hm, alloc_big_eq.
    exact (alloc_class_served heap_base PAGE_BIG st Hreach ltac:(discriminate)).
Qed.

(** C1: in every state reachable from [alloc_init] by calls of
    [custom_malloc] and [custom_free], a [PAGE_SMALL] page has
    [used_segments] equal to the population count of bits 0 to 62 of its
    header bitmap, a [PAGE_BIG] page to that of bits 0 to 4, and a
    [PAGE_FREE] page has [used_segments = 0] and sixteen zero header
    bytes. *)
Theorem reachable_page_invariant (heap_base : Z) (size_bits : nat)
    (st : state) (page_index : Z) :
  reachable heap_base size_bits st ->
  0 <= page_index < PAGE_COUNT ->
  (type (entry st page_index) = PAGE_SMALL ->
     used_segments (entry st page_index)
     = popcount (heap st) (page_header_addr page_index) 63)
  /\ (type (entry st page_index) = PAGE_BIG ->
     used_segments (entry st page_index)
     = popcount (heap st) (page_header_addr page_index) 5)
  /\ (type (entry st page_index) = PAGE_FREE ->
     used_segments (entry st page_index) = 0
     /\ forall k, 0 <= k < 16 ->
          load (heap st) (page_header_addr page_index + k) = 0).
Proof.
  intros Hreach Hp. apply reachable_consistent in Hreach as [_ Hpages].
  specialize (Hpages page_index Hp). unfold page_consistent in Hpages.
  split; [|split]; intros Ht; rewrite Ht in Hpages; exact Hpages.
Qed.

(** ** Pointers [custom_free] leaves alone *)

Lemma page_of_pointer (heap_base ptr : Z) :
  heap_base <= ptr < heap_base + HEAP_SIZE ->
  0 <= (ptr - heap_base) / 1024 < PAGE_COUNT
  /\ ptr - (heap_base + page_data_addr ((ptr - heap_base) / 1024))
     = (ptr - heap_base) mod 1024 - 16.
Proof.
  intros H. rewrite page_data_addr_eq. consts.
  split; Z.div_mod_to_equations; lia.
Qed.

(** [custom_free] on a pointer into the heap, one test at a time. *)
Lemma custom_free_in_heap (heap_base : Z) (size_bits : nat) (st : state) (ptr : Z) :
  heap_base <= ptr < heap_base + HEAP_SIZE ->
  custom_free heap_base size_bits st ptr
  = let p := (ptr - heap_base) / 1024 in
    if (ptr =? NULL) then st
    else if used_segments (entry st p) =? 0 then st
    else match type (entry st p) with
         | PAGE_SMALL =>
             free_in_page heap_base size_bits st ptr p ALIGNED_BLOCK_SMALL SMALL_SEGMENTS
         | PAGE_BIG =>
             free_in_page heap_base size_bits st ptr p ALIGNED_BLOCK_BIG BIG_SEGMENTS
         | PAGE_FREE => st
         end.
Proof.
  intros H. unfold custom_free, addr_of. cbv zeta.
  destruct (Z.eqb_spec ptr NULL); simpl; [reflexivity|].
  destruct (Z.ltb_spec ptr (heap_base + 0)); simpl; [lia|].
  destruct (Z.geb_spec ptr (heap_base + HEAP_SIZE)); simpl; [lia|].
  destruct (page_index_range heap_base ptr H) as [_ ->]. reflexivity.
Qed.

(** The page entry and the heap after a slot is given back. *)
Lemma entry_release_slot (st : state) (p i : Z) :
  well_sized st -> 0 <= p < PAGE_COUNT ->
  entry (release_slot st p i) p
  = if u16 (used_segments (entry st p) - 1) =? 0
    then mk_h_page 0 PAGE_FREE
    else mk_h_page (u16 (used_segments (entry st p) - 1)) (type (entry st p)).
Proof.
  intros Hw Hp. unfold release_slot.
  rewrite !entry_set_used, !entry_set_heap, Z.eqb_refl by sized.
  cbn [used_segments].
  destruct (u16 (used_segments (entry st p) - 1) =? 0).
  - rewrite entry_page_set_free, Z.eqb_refl by sized. reflexivity.
  - rewrite !entry_set_used, !entry_set_heap, Z.eqb_refl by sized. reflexivity.
Qed.

Lemma heap_release_slot (st : state) (p i : Z) :
  well_sized st -> 0 <= p < PAGE_COUNT ->
  u16 (used_segments (entry st p) - 1) <> 0 ->
  heap (release_slot st p i) = bitmap_clear (heap st) (page_header_addr p) i.
Proof.
  intros Hw Hp Hu. unfold release_slot.
  rewrite !entry_set_used, !entry_set_heap, Z.eqb_refl by sized.
  cbn [used_segments].
  destruct (Z.eqb_spec (u16 (used_segments (entry st p) - 1)) 0); [contradiction|].
  reflexivity.
Qed.

Lemma well_sized_release_slot (st : state) (p i : Z) :
  well_sized st -> well_sized (release_slot st p i).
Proof.
  intros Hw. unfold release_slot.
  destruct (_ =? 0); [apply well_sized_page_set_free|]; sized.
Qed.

(** Giving the same pointer back a second time changes nothing. *)
Lemma custom_free_twice (heap_base : Z) (size_bits : nat) (st : state) (ptr : Z) :
  well_sized st ->
  custom_free heap_base size_bits (custom_free heap_base size_bits st ptr) ptr
  = custom_free heap_base size_bits st ptr.
Proof.
  intros Hw.
  destruct (custom_free_cases heap_base size_bits st ptr)
    as [Hsame|(p & i & t & Hin & Hpe & Hp & Ht & Hne & Hu & Hoff & Hi & Hset & Hrel)].
  - now rewrite !Hsame.
  - rewrite Hrel. rewrite custom_free_in_heap by assumption. cbv zeta.
    rewrite <- Hpe.
    pose proof (segments_of_range t) as Hseg.
    destruct (Z.eqb_spec ptr NULL); [reflexivity|].
    rewrite entry_release_slot by assumption.
    destruct (Z.eqb_spec (u16 (used_segments (entry st p) - 1)) 0) as [|Hnz];
      cbn [used_segments type]; [reflexivity|].
    destruct (Z.eqb_spec (u16 (used_segments (entry st p) - 1)) 0);
      [contradiction|].
    assert (Hagain : forall slot segs,
              slot = slot_size_of t -> segs = segments_of t -> 0 < slot ->
              free_in_page heap_base size_bits (release_slot st p i) ptr p slot segs
              = release_slot st p i).
    { intros slot segs -> -> Hslot. unfold free_in_page, addr_of.
      rewrite Hoff, Z.mod_mul, Z.div_mul by lia. simpl.
      destruct (Z.geb_spec i (segments_of t)); [lia|].
      rewrite u16_small by lia.
      rewrite heap_release_slot by assumption.
      rewrite page_bit_clear by (apply Hw || lia).
      now rewrite !Z.eqb_refl. }
    rewrite Ht. destruct t; [contradiction| |]; apply Hagain; reflexivity.
Qed.

Section Tolerant.
Variable heap_base : Z.
Variable size_bits : nat.
Hypothesis size_t_holds_heap : HEAP_SIZE < 2 ^ Z.of_nat size_bits.

Lemma size_t_small (z : Z) : 0 <= z < HEAP_SIZE -> size_t size_bits z = z.
Proof using size_t_holds_heap.
  intros Hz. unfold size_t. apply Z.mod_small. lia.
Qed.

(** A negative difference of at most 16 wraps to the top of [size_t]. *)
Lemma size_t_underflow (d : Z) :
  -16 <= d < 0 -> size_t size_bits d = 2 ^ Z.of_nat size_bits + d.
Proof using size_t_holds_heap.
  intros Hd. unfold size_t. consts.
  symmetry. apply (Z.mod_unique d _ (-1)); lia.
Qed.

Lemma free_in_page_header (st : state) (ptr p slot segs : Z) :
  -16 <= ptr - (heap_base + page_data_addr p) < 0 ->
  0 < slot <= 192 -> 0 <= segs <= 63 ->
  free_in_page heap_base size_bits st ptr p slot segs = st
  /\ (size_t size_bits (ptr - (heap_base + page_data_addr p)) mod slot <> 0
      \/ segs <= size_t size_bits (ptr - (heap_base + page_data_addr p)) / slot).
Proof using size_t_holds_heap.
  intros Hd Hslot Hsegs. unfold free_in_page, addr_of.
  rewrite (size_t_underflow _ Hd).
  set (off := 2 ^ Z.of_nat size_bits + (ptr - (heap_base + page_data_addr p))).
  assert (Hoff : HEAP_SIZE - 16 < off) by (unfold off; lia).
  assert (Hidx : segs <= off / slot).
  { consts. apply Z.div_le_lower_bound; [lia|]. nia. }
  split; [|now right].
  destruct (off mod slot =? 0); simpl; [|reflexivity].
  destruct (Z.geb_spec (off / slot) segs); [reflexivity|lia].
Qed.

Lemma free_in_page_misaligned (st : state) (ptr p slot segs : Z) :
  -16 <= ptr - (heap_base + page_data_addr p) < 1008 ->
  0 < slot <= 192 -> 0 <= segs <= 63 ->
  (ptr - (heap_base + page_data_addr p)) mod slot <> 0 ->
  free_in_page heap_base size_bits st ptr p slot segs = st.
Proof using size_t_holds_heap.
  intros Hd Hslot Hsegs Hmis.
  destruct (Z.lt_ge_cases (ptr - (heap_base + page_data_addr p)) 0).
  - apply free_in_page_header; lia.
  - unfold free_in_page, addr_of. rewrite size_t_small by (consts; lia).
    destruct (Z.eqb_spec ((ptr - (heap_base + page_data_addr p)) mod slot) 0);
      [contradiction|reflexivity].
Qed.

Lemma free_in_page_slot (st : state) (p k slot segs : Z) :
  0 < slot -> 0 <= k < segs -> segs <= 63 -> k * slot < 1008 ->
  free_in_page heap_base size_bits st
    (heap_base + (page_data_addr p + k * slot)) p slot segs
  = if bitmap_is_set (heap st) (page_header_addr p) k
    then release_slot st p k else st.
Proof using size_t_holds_heap.
  intros Hslot Hk Hsegs Hfit. unfold free_in_page, addr_of.
  replace (heap_base + (page_data_addr p + k * slot)
           - (heap_base + page_data_addr p)) with (k * slot) by lia.
  rewrite size_t_small by (consts; nia).
  rewrite Z.mod_mul, Z.div_mul by lia. simpl.
  destruct (Z.geb_spec k segs); [lia|].
  rewrite u16_small by lia.
  destruct (bitmap_is_set (heap st) (page_header_addr p) k); reflexivity.
Qed.

End Tolerant.

(** C9: a pointer into the 16-byte header of a [PAGE_SMALL] or [PAGE_BIG]
    page is left alone by [custom_free]: the unsigned [offset_in_page]
    wraps to at least [2 ^ size_bits - 16], so either it is not a multiple
    of the slot size or [bit_index] is not below the number of segments,
    and the state, bitmap included, is unchanged. *)
Theorem custom_free_header_pointer (heap_base : Z) (size_bits : nat)
    (st : state) (ptr : Z) :
  HEAP_SIZE < 2 ^ Z.of_nat size_bits ->
  heap_base <= ptr < heap_base + HEAP_SIZE ->
  (ptr - heap_base) mod PAGE_SIZE < PAGE_HEADER_SIZE ->
  type (entry st ((ptr - heap_base) / PAGE_SIZE)) <> PAGE_FREE ->
  let page_index := (ptr - heap_base) / PAGE_SIZE in
  let slot := slot_size_of (type (entry st page_index)) in
  let segments := segments_of (type (entry st page_index)) in
  let offset_in_page :=
    size_t size_bits (ptr - (heap_base + page_data_addr page_index)) in
  custom_free heap_base size_bits st ptr = st
  /\ 2 ^ Z.of_nat size_bits - 16 <= offset_in_page
  /\ (offset_in_page mod slot <> 0 \/ segments <= offset_in_page / slot).
Proof.
  intros Hbits Hin Hhdr Hty. consts. cbv zeta.
  destruct (page_of_pointer heap_base ptr Hin) as [Hp Hd].
  assert (Hneg : -16 <= ptr - (heap_base + page_data_addr ((ptr - heap_base) / 1024)) < 0)
    by (rewrite Hd; Z.div_mod_to_equations; lia).
  rewrite custom_free_in_heap by assumption. cbv zeta.
  rewrite (size_t_underflow size_bits Hbits _ Hneg).
  split; [|split; [lia|]].
  - destruct (ptr =? _); [reflexivity|].
    destruct (_ =? 0); [reflexivity|].
    destruct (type _); [reflexivity| |];
      apply free_in_page_header; consts; try assumption; lia.
  - rewrite <- (size_t_underflow size_bits Hbits _ Hneg).
    destruct (type _); [contradiction| |]; cbn [slot_size_of segments_of];
      apply (free_in_page_header heap_base size_bits Hbits st);
      consts; try assumption; lia.
Qed.

(** C7: [custom_free] returns the state it was given, page table, headers
    and heap bytes alike, for a null pointer, a pointer outside the heap,
    a pointer into a [PAGE_FREE] page, a pointer that is not a multiple of
    the slot size away from the page's data, and a pointer to a slot whose
    bit is clear; and freeing the same pointer a second time changes
    nothing more. *)
Theorem custom_free_tolerant (heap_base : Z) (size_bits : nat)
    (st : state) (ptr : Z) :
  reachable heap_base size_bits st ->
  HEAP_SIZE < 2 ^ Z.of_nat size_bits ->
  (ptr = NULL -> custom_free heap_base size_bits st ptr = st)
  /\ (ptr < heap_base \/ heap_base + HEAP_SIZE <= ptr ->
      custom_free heap_base size_bits st ptr = st)
  /\ (heap_base <= ptr < heap_base + HEAP_SIZE ->
      type (entry st ((ptr - heap_base) / PAGE_SIZE)) = PAGE_FREE ->
      custom_free heap_base size_bits st ptr = st)
  /\ (heap_base <= ptr < heap_base + HEAP_SIZE ->
      (ptr - (heap_base + page_data_addr ((ptr - heap_base) / PAGE_SIZE)))
        mod slot_size_of (type (entry st ((ptr - heap_base) / PAGE_SIZE))) <> 0 ->
      custom_free heap_base size_bits st ptr = st)
  /\ (forall p k,
        0 <= p < PAGE_COUNT -> 0 <= k < segments_of (type (entry st p)) ->
        ptr = heap_base + (page_data_addr p + k * slot_size_of (type (entry st p))) ->
        bitmap_is_set (heap st) (page_header_addr p) k = false ->
        custom_free heap_base size_bits st ptr = st)
  /\ custom_free heap_base size_bits (custom_free heap_base size_bits st ptr) ptr
     = custom_free heap_base size_bits st ptr.
Proof.
  intros Hreach Hbits. apply reachable_consistent in Hreach as [Hw _].
  split; [|split; [|split; [|split; [|split]]]].
  - intros ->. reflexivity.
  - intros Hout. unfold custom_free, addr_of.
    destruct (Z.eqb_spec ptr NULL); simpl; [reflexivity|].
    destruct (Z.ltb_spec ptr (heap_base + 0)); simpl; [reflexivity|].
    destruct (Z.geb_spec ptr (heap_base + HEAP_SIZE)); simpl; [reflexivity|lia].
  - intros Hin Hfree. rewrite custom_free_in_heap by assumption. cbv zeta.
    consts. rewrite Hfree. now repeat destruct (_ =? _).
  - intros Hin Hmis. rewrite custom_free_in_heap by assumption. cbv zeta.
    destruct (page_of_pointer heap_base ptr Hin) as [Hp Hd]. consts.
    assert (-16 <= ptr - (heap_base + page_data_addr ((ptr - heap_base) / 1024)) < 1008)
      by (rewrite Hd; Z.div_mod_to_equations; lia).
    destruct (ptr =? _); [reflexivity|].
    destruct (_ =? 0); [reflexivity|].
    destruct (type _); [reflexivity| |];
      apply free_in_page_misaligned; consts; try assumption; lia.
  - intros p k Hp Hk -> Hclr.
    assert (Hfit : 0 < slot_size_of (type (entry st p))
                   /\ k * slot_size_of (type (entry st p)) < 1008
                   /\ segments_of (type (entry st p)) <= 63).
    { destruct (type (entry st p)); simpl in *; consts; lia. }
    assert (Hin : heap_base
                  <= heap_base + (page_data_addr p
                       + k * slot_size_of (type (entry st p)))
                  < heap_base + HEAP_SIZE)
      by (rewrite page_data_addr_eq; consts; lia).
    rewrite custom_free_in_heap by assumption. cbv zeta.
    replace ((heap_base + (page_data_addr p + k * slot_size_of (type (entry st p)))
              - heap_base) / 1024) with p
      by (rewrite page_data_addr_eq; Z.div_mod_to_equations; lia).
    destruct (_ =? NULL); [reflexivity|].
    destruct (_ =? 0); [reflexivity|].
    destruct (type (entry st p)) eqn:Ht; [reflexivity| |];
      cbn [slot_size_of segments_of] in *;
      rewrite free_in_page_slot by (assumption || lia);
      now rewrite Hclr.
  - now apply custom_free_twice.
Qed.

(** ** Capacity of the small class *)

Lemma total_used_change (pt : list h_page) : forall (pt' : list h_page) (p : nat),
  length pt' = length pt -> (p < length pt)%nat ->
  (forall q, q <> p -> pt' !!! q = pt !!! q) ->
  total_used pt'
  = total_used pt - used_segments (pt !!! p) + used_segments (pt' !!! p).
Proof.
  induction pt as [|e pt IH]; intros [|e' pt'] p Hlen Hp Hsame;
    simpl in Hlen, Hp; try lia.
  destruct p as [|p]; simpl.
  - assert (pt' = pt) as ->.
    { apply list_eq_same_length with (length pt); [reflexivity|lia|].
      intros i x y Hi Hx Hy.
      pose proof (Hsame (S i) ltac:(lia)) as Hq. simpl in Hq.
      rewrite !list_lookup_total_alt, Hx, Hy in Hq. simpl in Hq. congruence. }
    change ((e' :: pt) !!! 0%nat) with e'. change ((e :: pt) !!! 0%nat) with e. lia.
  - pose proof (Hsame 0%nat ltac:(lia)) as H0. simpl in H0.
    change ((e' :: pt') !!! 0%nat) with e' in H0.
    change ((e :: pt) !!! 0%nat) with e in H0. subst e'.
    change ((e :: pt') !!! S p) with (pt' !!! p).
    change ((e :: pt) !!! S p) with (pt !!! p).
    rewrite (IH pt' p); [lia|lia|lia|].
    intros q Hq. apply (Hsame (S q)). lia.
Qed.

Lemma total_used_lower (c : Z) (pt : list h_page) :
  (forall q, (q < length pt)%nat -> c <= used_segments (pt !!! q)) ->
  c * Z.of_nat (length pt) <= total_used pt.
Proof.
  induction pt as [|e pt IH]; intros H; simpl total_used; simpl length; [lia|].
  pose proof (H 0%nat ltac:(simpl; lia)) as H0.
  change ((e :: pt) !!! 0%nat) with e in H0.
  assert (c * Z.of_nat (length pt) <= total_used pt).
  { apply IH. intros q Hq. apply (H (S q)). simpl. lia. }
  lia.
Qed.

Lemma total_used_full (c : Z) (pt : list h_page) :
  (forall q, (q < length pt)%nat -> used_segments (pt !!! q) <= c) ->
  total_used pt = c * Z.of_nat (length pt) ->
  forall q, (q < length pt)%nat -> used_segments (pt !!! q) = c.
Proof.
  induction pt as [|e pt IH]; intros H Ht q Hq; simpl in *; [lia|].
  pose proof (H 0%nat ltac:(lia)) as H0.
  change ((e :: pt) !!! 0%nat) with e in H0.
  assert (Hrest : forall q, (q < length pt)%nat -> used_segments (pt !!! q) <= c)
    by (intros q' Hq'; apply (H (S q')); lia).
  assert (total_used pt <= c * Z.of_nat (length pt)).
  { clear -Hrest. induction pt as [|e pt IH]; simpl total_used; simpl length; [lia|].
    pose proof (Hrest 0%nat ltac:(simpl; lia)) as H0.
    change ((e :: pt) !!! 0%nat) with e in H0.
    assert (total_used pt <= c * Z.of_nat (length pt))
      by (apply IH; intros q Hq; apply (Hrest (S q)); simpl; lia).
    lia. }
  destruct q as [|q].
  - change ((e :: pt) !!! 0%nat) with e. lia.
  - change ((e :: pt) !!! S q) with (pt !!! q). apply IH; [assumption|lia|lia].
Qed.

(** The state change at page [p] moves the total by what it does to [p]. *)
Lemma total_used_step (st st' : state) (p : Z) :
  well_sized st -> well_sized st' -> 0 <= p < PAGE_COUNT ->
  (forall q, 0 <= q < PAGE_COUNT -> q <> p -> entry st' q = entry st q) ->
  total_used (page_table st')
  = total_used (page_table st) - used_segments (entry st p)
    + used_segments (entry st' p).
Proof.
  intros [_ Hw] [_ Hw'] Hp Hsame. unfold entry.
  apply total_used_change; [lia|lia|].
  intros q Hq. destruct (Nat.lt_ge_cases q (length (page_table st))) as [Hlt|Hge].
  - specialize (Hsame (Z.of_nat q)). unfold entry in Hsame.
    rewrite Nat2Z.id in Hsame. apply Hsame; lia.
  - rewrite !list_lookup_total_alt, !lookup_ge_None_2 by lia. reflexivity.
Qed.

Lemma small_phase_used_le (k : Z) (st : state) (p : Z) :
  small_phase k st -> 0 <= p < PAGE_COUNT ->
  0 <= used_segments (entry st p) <= SMALL_SEGMENTS.
Proof.
  intros ([Hw Hpages] & Hty & _) Hp.
  specialize (Hpages p Hp). specialize (Hty p Hp).
  unfold page_consistent in Hpages.
  destruct (type (entry st p)); [| |contradiction].
  - destruct Hpages as [-> _]. consts. lia.
  - rewrite Hpages. apply popcount_bounds. consts. lia.
Qed.

(** Without room in any small page and without a free page, all 4032
    slots are in use. *)
Lemma small_phase_exhausted (k : Z) (st : state) :
  small_phase k st ->
  (forall q, 0 <= q < PAGE_COUNT -> has_room st PAGE_SMALL q = false) ->
  (forall q, 0 <= q < PAGE_COUNT -> type (entry st q) <> PAGE_FREE) ->
  SMALL_SEGMENTS * PAGE_COUNT <= k.
Proof.
  intros Hph Hroom Hfree. pose proof Hph as ([Hw Hpages] & Hty & <-).
  destruct Hw as [Hh Hpt]. rewrite <- Hpt.
  apply total_used_lower. intros q Hq.
  assert (Hq' : 0 <= Z.of_nat q < PAGE_COUNT) by lia.
  specialize (Hroom _ Hq'). specialize (Hfree _ Hq'). specialize (Hty _ Hq').
  specialize (Hpages _ Hq'). unfold page_consistent in Hpages.
  unfold entry in *. rewrite Nat2Z.id in *.
  destruct (Z.lt_ge_cases (used_segments (page_table st !!! q)) SMALL_SEGMENTS)
    as [Hlt|]; [exfalso|assumption].
  destruct (type (page_table st !!! q)) eqn:Ht; try contradiction.
  unfold has_room, entry in Hroom. rewrite Nat2Z.id, Ht in Hroom.
  cbn [page_type_eqb segments_of andb] in Hroom.
  destruct (Z.ltb_spec (used_segments (page_table st !!! q)) SMALL_SEGMENTS); [|lia].
  simpl in Hroom. apply negb_false_iff, Z.eqb_eq in Hroom.
  destruct (find_free_block_finds (heap st) (page_header_addr (Z.of_nat q))
              SMALL_SEGMENTS) as [Hr _]; [consts; lia|lia|].
  consts. lia.
Qed.

Section Capacity.
Variable heap_base : Z.
Hypothesis heap_base_pos : 0 < heap_base.

Lemma small_phase_alloc (k : Z) (st : state) :
  small_phase k st -> 0 <= k <= SMALL_SEGMENTS * PAGE_COUNT ->
  (k < SMALL_SEGMENTS * PAGE_COUNT ->
     fst (alloc_class heap_base PAGE_SMALL st) <> NULL
     /\ small_phase (k + 1) (snd (alloc_class heap_base PAGE_SMALL st)))
  /\ (k = SMALL_SEGMENTS * PAGE_COUNT ->
     alloc_class heap_base PAGE_SMALL st = (NULL, st)).
Proof using heap_base_pos.
  intros Hph Hk. pose proof Hph as (Hc & Hty & Htot).
  pose proof Hc as [Hw Hpages].
  destruct (alloc_class_cases heap_base PAGE_SMALL st)
    as [(p & Hp & Hr & _ & Heq)|[(p & Hp & _ & Hf & _ & Heq)|(Hroom & Hfree & Heq)]].
  - pose proof (has_room_slot _ _ _ Hr) as (Ht & Hu & Hi & Hclr).
    pose proof (small_phase_used_le k st p Hph Hp) as Hup.
    cbn [segments_of slot_size_of] in *.
    split.
    + intros _. rewrite Heq. cbn [fst snd]. split.
      * rewrite page_data_addr_eq. consts. lia.
      * split; [|split].
        -- now apply (consistent_take_slot st p _ PAGE_SMALL).
        -- intros q Hq. rewrite entry_take_slot by (assumption || lia).
           destruct (Z.eqb_spec p q); cbn [type]; [congruence|auto].
        -- rewrite (total_used_step st _ p);
             [|assumption|now apply well_sized_take_slot|assumption|].
           ++ rewrite entry_take_slot, Z.eqb_refl by (assumption || lia).
              cbn [used_segments]. rewrite u16_small by (consts; lia). lia.
           ++ intros q Hq Hne. rewrite entry_take_slot by (assumption || lia).
              destruct (Z.eqb_spec p q); [lia|reflexivity].
    + intros ->. exfalso.
      assert (used_segments (entry st p) = SMALL_SEGMENTS); [|lia].
      destruct Hw as [_ Hpt]. unfold entry.
      apply (total_used_full SMALL_SEGMENTS); [| |lia].
      * intros q Hq.
        apply (small_phase_used_le _ st (Z.of_nat q)) in Hph; [|lia].
        unfold entry in Hph. rewrite Nat2Z.id in Hph. lia.
      * rewrite Htot. lia.
  - pose proof (Hpages p Hp) as Hpp. unfold page_consistent in Hpp.
    rewrite Hf in Hpp. destruct Hpp as [Hu0 _].
    split.
    + intros _. rewrite Heq. cbn [fst snd]. split.
      * rewrite page_data_addr_eq. consts. lia.
      * split; [|split].
        -- apply consistent_open_page; auto; discriminate.
        -- intros q Hq. rewrite entry_open_page by (assumption || lia).
           destruct (Z.eqb_spec p q); cbn [type]; [discriminate|auto].
        -- rewrite (total_used_step st _ p);
             [|assumption|now apply well_sized_open_page|assumption|].
           ++ rewrite entry_open_page, Z.eqb_refl by (assumption || lia).
              cbn [used_segments]. lia.
           ++ intros q Hq Hne. rewrite entry_open_page by (assumption || lia).
              destruct (Z.eqb_spec p q); [lia|reflexivity].
    + intros ->. exfalso.
      assert (used_segments (entry st p) = SMALL_SEGMENTS); [|consts; lia].
      destruct Hw as [_ Hpt]. unfold entry.
      apply (total_used_full SMALL_SEGMENTS); [| |lia].
      * intros q Hq.
        apply (small_phase_used_le _ st (Z.of_nat q)) in Hph; [|lia].
        unfold entry in Hph. rewrite Nat2Z.id in Hph. lia.
      * rewrite Htot. lia.
  - split; [|intros _; assumption].
    intros Hlt. pose proof (small_phase_exhausted k st Hph Hroom Hfree). lia.
Qed.

Lemma malloc_seq_small (sizes : list Z) : forall (k : Z) (st : state),
  small_phase k st -> 0 <= k <= SMALL_SEGMENTS * PAGE_COUNT ->
  Forall (fun size => 1 <= size <= BLOCK_SMALL) sizes ->
  forall (i : nat) (a : Z),
    malloc_seq heap_base st sizes !! i = Some a ->
    (k + Z.of_nat i < SMALL_SEGMENTS * PAGE_COUNT -> a <> NULL)
    /\ (SMALL_SEGMENTS * PAGE_COUNT <= k + Z.of_nat i -> a = NULL).
Proof using heap_base_pos.
  induction sizes as [|size sizes IH]; intros k st Hph Hk Hsizes i a Hi;
    simpl in Hi; [discriminate|].
  inversion Hsizes as [|? ? Hsize Hrest]; subst.
  assert (Hm : custom_malloc heap_base st size = alloc_class heap_base PAGE_SMALL st).
  { unfold custom_malloc. consts.
    destruct (Z.eqb_spec size 0); [lia|].
    destruct (Z.leb_spec size 15); [apply alloc_small_eq|lia]. }
  rewrite Hm in Hi.
  destruct (small_phase_alloc k st Hph Hk) as [Hroom Hfull].
  destruct (Z.lt_ge_cases k (SMALL_SEGMENTS * PAGE_COUNT)) as [Hlt|Hge].
  - destruct (Hroom Hlt) as [Hnn Hph'].
    destruct i as [|i]; simpl in Hi.
    + injection Hi as <-. split; [auto|lia].
    + destruct (IH (k + 1) _ Hph' ltac:(lia) Hrest i a Hi) as [H1 H2].
      split; intros; [apply H1|apply H2]; lia.
  - assert (k = SMALL_SEGMENTS * PAGE_COUNT) as Hk' by lia.
    rewrite (Hfull Hk') in Hi. cbn [fst snd] in Hi.
    destruct i as [|i]; simpl in Hi.
    + injection Hi as <-. split; [lia|reflexivity].
    + destruct (IH k st Hph Hk Hrest i a Hi) as [H1 H2].
      split; intros; [lia|apply H2; lia].
Qed.

End Capacity.

Lemma length_malloc_seq (heap_base : Z) (sizes : list Z) : forall st,
  length (malloc_seq heap_base st sizes) = length sizes.
Proof. induction sizes as [|s sizes IH]; intros st; simpl; [|rewrite IH]; reflexivity. Qed.

Lemma total_used_zero (pt : list h_page) :
  (forall q, (q < length pt)%nat -> used_segments (pt !!! q) = 0) ->
  total_used pt = 0.
Proof.
  induction pt as [|e pt IH]; intros H; simpl; [reflexivity|].
  pose proof (H 0%nat ltac:(simpl; lia)) as H0.
  change ((e :: pt) !!! 0%nat) with e in H0.
  rewrite IH, H0; [reflexivity|].
  intros q Hq. apply (H (S q)). simpl. lia.
Qed.

Lemma small_phase_init (st0 : state) :
  well_sized st0 -> small_phase 0 (alloc_init st0).
Proof.
  intros Hw. destruct (alloc_init_spec st0 Hw) as [Hw' H].
  pose proof (consistent_alloc_init st0 Hw) as Hc.
  generalize dependent (alloc_init st0). intros st Hw' H Hc.
  split; [assumption|]. split.
  - intros p Hp. destruct (H p Hp) as [-> _]. discriminate.
  - apply total_used_zero. intros q Hq. destruct Hw' as [_ Hpt].
    destruct (H (Z.of_nat q) ltac:(lia)) as [He _].
    unfold entry in He. rewrite Nat2Z.id in He. now rewrite He.
Qed.

(** C6: from [alloc_init], [custom_malloc] calls of sizes 1 to 15 with no
    [custom_free] between them return a non-null pointer for each of the
    first 4032 calls (63 slots in each of the 64 pages), and null for the
    4033rd and every later one. *)
Theorem small_capacity (heap_base : Z) (st0 : state) (sizes : list Z) :
  0 < heap_base -> well_sized st0 ->
  Forall (fun size => 1 <= size <= 15) sizes ->
  length (malloc_seq heap_base (alloc_init st0) sizes) = length sizes
  /\ forall (i : nat) (a : Z),
       malloc_seq heap_base (alloc_init st0) sizes !! i = Some a ->
       (Z.of_nat i < 4032 -> a <> NULL) /\ (4032 <= Z.of_nat i -> a = NULL).
Proof.
  intros Hbase Hw Hsizes. split; [apply length_malloc_seq|].
  intros i a Hi.
  destruct (malloc_seq_small heap_base Hbase sizes 0 (alloc_init st0)
              (small_phase_init st0 Hw) ltac:(consts; lia) Hsizes i a Hi) as [H1 H2].
  consts. split; intros; [apply H1|apply H2]; lia.
Qed.
(** ** First fit *)

Lemma has_room_wrong_type (st : state) (t : page_type_t) (q : Z) :
  type (entry st q) <> t -> has_room st t q = false.
Proof.
  intros H. unfold has_room.
  destruct (type (entry st q)), t; simpl; congruence.
Qed.

Lemma find_free_block_lowest (hp : list Z) (bitmap n i : Z) :
  0 <= n <= UINT16_MAX -> 0 <= i < n ->
  bitmap_is_set hp bitmap i = false ->
  (forall j, 0 <= j < i -> bitmap_is_set hp bitmap j = true) ->
  find_free_block hp bitmap n = i.
Proof.
  intros Hn Hi Hclr Hlow.
  destruct (find_free_block_spec hp bitmap n Hn) as [[_ Hfull]|(Hr & Hrc & Hrl)].
  - unfold popcount in Hfull.
    rewrite (count_full _ (Z.to_nat n)) in Hclr; [discriminate|lia|lia].
  - destruct (Z.lt_trichotomy (find_free_block hp bitmap n) i) as [Hlt|[Heq|Hgt]].
    + rewrite Hlow in Hrc by lia. discriminate.
    + assumption.
    + rewrite Hrl in Hclr by lia. discriminate.
Qed.

(** The first page of the class with room is the one that serves. *)
Lemma alloc_class_take (heap_base : Z) (t : page_type_t) (st : state) (p : Z) :
  0 <= p < PAGE_COUNT -> has_room st t p = true ->
  (forall q, 0 <= q < p -> has_room st t q = false) ->
  alloc_class heap_base t st
  = (heap_base + (page_data_addr p
       + find_free_block (heap st) (page_header_addr p) (segments_of t)
         * slot_size_of t),
     take_slot st p (find_free_block (heap st) (page_header_addr p) (segments_of t))).
Proof.
  intros Hp Hr Hlow.
  destruct (alloc_class_cases heap_base t st)
    as [(p' & Hp' & Hr' & Hlow' & ->)|[(p' & _ & Hnone & _)|(Hnone & _)]].
  - destruct (Z.lt_trichotomy p' p) as [Hlt|[->|Hgt]]; [|reflexivity|].
    + rewrite Hlow in Hr' by lia. discriminate.
    + rewrite Hlow' in Hr by lia. discriminate.
  - rewrite Hnone in Hr by assumption. discriminate.
  - rewrite Hnone in Hr by assumption. discriminate.
Qed.

(** With no room in any page of the class, the first free page is opened. *)
Lemma alloc_class_open (heap_base : Z) (t : page_type_t) (st : state) (p : Z) :
  0 <= p < PAGE_COUNT ->
  (forall q, 0 <= q < PAGE_COUNT -> has_room st t q = false) ->
  type (entry st p) = PAGE_FREE ->
  (forall q, 0 <= q < p -> type (entry st q) <> PAGE_FREE) ->
  alloc_class heap_base t st = (heap_base + page_data_addr p, open_page st p t).
Proof.
  intros Hp Hnone Hf Hlow.
  destruct (alloc_class_cases heap_base t st)
    as [(p' & Hp' & Hr' & _)|[(p' & Hp' & _ & Hf' & Hlow' & ->)|(_ & Hnf & _)]].
  - rewrite Hnone in Hr' by assumption. discriminate.
  - destruct (Z.lt_trichotomy p' p) as [Hlt|[->|Hgt]]; [|reflexivity|].
    + exfalso. apply (Hlow p'); [lia|assumption].
    + exfalso. apply (Hlow' p); [lia|assumption].
  - exfalso. now apply (Hnf p).
Qed.

Lemma custom_malloc_small (heap_base : Z) (st : state) (size : Z) :
  1 <= size <= BLOCK_SMALL ->
  custom_malloc heap_base st size = alloc_class heap_base PAGE_SMALL st.
Proof.
  intros H. unfold custom_malloc. consts.
  destruct (Z.eqb_spec size 0); [lia|].
  destruct (Z.leb_spec size 15); [apply alloc_small_eq|lia].
Qed.

Lemma custom_malloc_big (heap_base : Z) (st : state) (size : Z) :
  BLOCK_SMALL < size <= BLOCK_BIG ->
  custom_malloc heap_base st size = alloc_class heap_base PAGE_BIG st.
Proof.
  intros H. unfold custom_malloc. consts.
  destruct (Z.eqb_spec size 0); [lia|].
  destruct (Z.leb_spec size 15); [lia|].
  destruct (Z.leb_spec size 180); [apply alloc_big_eq|lia].
Qed.

(** C8: after [alloc_init], [a = custom_malloc(1)], [b = custom_malloc(16)]
    and [c = custom_malloc(180)] give [a = heap_base + 16] (page 0, which
    becomes small), [b = heap_base + 1024 + 16] (page 1, opened for the big
    class because page 0 is small) and [c = heap_base + 1024 + 208] (the
    second big slot of page 1). *)
Theorem scenario_small_big_big (heap_base : Z) (st0 : state) :
  well_sized st0 ->
  let ra := custom_malloc heap_base (alloc_init st0) 1 in
  let rb := custom_malloc heap_base (snd ra) 16 in
  let rc := custom_malloc heap_base (snd rb) 180 in
  fst ra = heap_base + 16
  /\ fst rb = heap_base + 1024 + 16
  /\ fst rc = heap_base + 1024 + 208
  /\ type (entry (snd rc) 0) = PAGE_SMALL
  /\ type (entry (snd rc) 1) = PAGE_BIG
  /\ used_segments (entry (snd rc) 1) = 2.
Proof.
  intros Hw0. cbv zeta.
  destruct (alloc_init_spec st0 Hw0) as [Hw Hinit].
  generalize dependent (alloc_init st0). intros st Hw Hinit.
  assert (H0 : 0 <= 0 < PAGE_COUNT) by (consts; lia).
  assert (H1 : 0 <= 1 < PAGE_COUNT) by (consts; lia).
  (* a *)
  rewrite (custom_malloc_small heap_base st 1) by (consts; lia).
  rewrite (alloc_class_open heap_base PAGE_SMALL st 0);
    [|assumption
     |intros q Hq; apply has_room_wrong_type;
      destruct (Hinit q Hq) as [-> _]; discriminate
     |destruct (Hinit 0 H0) as [-> _]; reflexivity
     |intros; lia].
  cbn [fst snd].
  remember (open_page st 0 PAGE_SMALL) as st1 eqn:Hst1.
  assert (Hw1 : well_sized st1) by (subst st1; now apply well_sized_open_page).
  assert (He1 : forall q, 0 <= q < PAGE_COUNT ->
            entry st1 q = if 0 =? q then mk_h_page 1 PAGE_SMALL
                          else mk_h_page 0 PAGE_FREE).
  { intros q Hq. subst st1. rewrite entry_open_page by (assumption || lia).
    destruct (0 =? q); [reflexivity|]. now destruct (Hinit q Hq) as [-> _]. }
  (* b *)
  rewrite (custom_malloc_big heap_base st1 16) by (consts; lia).
  rewrite (alloc_class_open heap_base PAGE_BIG st1 1);
    [|assumption
     |intros q Hq; apply has_room_wrong_type; rewrite He1 by assumption;
      destruct (0 =? q); discriminate
     |rewrite He1 by assumption; reflexivity
     |intros q Hq; assert (q = 0) as -> by lia;
      rewrite He1 by assumption; discriminate].
  cbn [fst snd].
  remember (open_page st1 1 PAGE_BIG) as st2 eqn:Hst2.
  assert (Hw2 : well_sized st2) by (subst st2; now apply well_sized_open_page).
  assert (He2 : forall q, 0 <= q < PAGE_COUNT ->
            entry st2 q = if 1 =? q then mk_h_page 1 PAGE_BIG else entry st1 q).
  { intros q Hq. subst st2. now rewrite entry_open_page by (assumption || lia). }
  assert (Hbits : forall j, 0 <= j < 128 ->
            bitmap_is_set (heap st2) (page_header_addr 1) j = (0 =? j)).
  { intros j Hj. rewrite Hst2, heap_open_page.
    rewrite page_bit_set by (apply Hw1 || assumption || lia).
    rewrite Z.eqb_refl. cbn [andb].
    rewrite (bitmap_is_set_zero (heap st1)); [apply orb_false_r|].
    rewrite Hst1, heap_open_page.
    rewrite load_bitmap_set_other by (consts; Z.div_mod_to_equations; lia).
    destruct (Hinit 1 H1) as [_ Hz].
    apply Hz. consts. Z.div_mod_to_equations; lia. }
  assert (Hffb : find_free_block (heap st2) (page_header_addr 1) BIG_SEGMENTS = 1).
  { apply find_free_block_lowest.
    - consts; lia.
    - consts; lia.
    - now rewrite Hbits by lia.
    - intros j Hj. assert (j = 0) as -> by lia. now rewrite Hbits by lia. }
  (* c *)
  rewrite (custom_malloc_big heap_base st2 180) by (consts; lia).
  rewrite (alloc_class_take heap_base PAGE_BIG st2 1); [|assumption| |].
  - cbn [fst snd segments_of slot_size_of]. rewrite Hffb.
    rewrite !page_data_addr_eq.
    rewrite !entry_take_slot by (assumption || lia).
    rewrite !He2, !He1 by assumption.
    change (1 =? 0) with false. change (1 =? 1) with true.
    change (0 =? 0) with true. cbv iota. cbn [type used_segments].
    consts. change (u16 (1 + 1)) with 2.
    repeat split; lia.
  - unfold has_room. rewrite He2 by assumption.
    change (1 =? 1) with true. cbv iota.
    cbn [type used_segments page_type_eqb segments_of andb].
    rewrite Hffb. reflexivity.
  - intros q Hq. assert (q = 0) as -> by lia.
    apply has_room_wrong_type. rewrite He2, He1 by assumption. discriminate.
Qed.
(** ** The theorems at concrete inputs *)

Lemma well_sized_zero_state : well_sized zero_state.
Proof. split; vm_compute; reflexivity. Qed.

Lemma size_t_64_holds_heap : HEAP_SIZE < 2 ^ Z.of_nat 64.
Proof. vm_compute. reflexivity. Qed.

Lemma reachable_page_invariant_witness :
  reachable 4096 64 (snd (custom_malloc 4096 (alloc_init zero_state) 13))
  /\ 0 <= 0 < PAGE_COUNT
  /\ ((type (entry (snd (custom_malloc 4096 (alloc_init zero_state) 13)) 0)
       = PAGE_SMALL ->
       used_segments (entry (snd (custom_malloc 4096 (alloc_init zero_state) 13)) 0)
       = popcount (heap (snd (custom_malloc 4096 (alloc_init zero_state) 13)))
           (page_header_addr 0) 63)
      /\ (type (entry (snd (custom_malloc 4096 (alloc_init zero_state) 13)) 0)
          = PAGE_BIG ->
          used_segments (entry (snd (custom_malloc 4096 (alloc_init zero_state) 13)) 0)
          = popcount (heap (snd (custom_malloc 4096 (alloc_init zero_state) 13)))
              (page_header_addr 0) 5)
      /\ (type (entry (snd (custom_malloc 4096 (alloc_init zero_state) 13)) 0)
          = PAGE_FREE ->
          used_segments (entry (snd (custom_malloc 4096 (alloc_init zero_state) 13)) 0)
          = 0
          /\ forall k, 0 <= k < 16 ->
               load (heap (snd (custom_malloc 4096 (alloc_init zero_state) 13)))
                 (page_header_addr 0 + k) = 0)).
Proof.
  assert (Hr : reachable 4096 64
                 (snd (custom_malloc 4096 (alloc_init zero_state) 13)))
    by (apply reach_malloc, reach_init, well_sized_zero_state).
  assert (Hp : 0 <= 0 < PAGE_COUNT) by (consts; lia).
  split; [exact Hr|]. split; [exact Hp|].
  exact (reachable_page_invariant 4096 64 _ 0 Hr Hp).
Defined.

Lemma custom_malloc_size_classes_witness :
  reachable 4096 64 (snd (custom_malloc 4096 (alloc_init zero_state) 100))
  /\ 0 <= 13
  /\ custom_malloc 4096 (snd (custom_malloc 4096 (alloc_init zero_state) 100)) 13
     = alloc_small 4096 (snd (custom_malloc 4096 (alloc_init zero_state) 100))
  /\ (custom_malloc 4096 (snd (custom_malloc 4096 (alloc_init zero_state) 100)) 13
      = (NULL, snd (custom_malloc 4096 (alloc_init zero_state) 100))
      <-> forall q, 0 <= q < PAGE_COUNT ->
            type (entry (snd (custom_malloc 4096 (alloc_init zero_state) 100)) q)
            <> PAGE_FREE
            /\ ~ (type (entry (snd (custom_malloc 4096 (alloc_init zero_state) 100)) q)
                  = PAGE_SMALL
                  /\ used_segments
                       (entry (snd (custom_malloc 4096 (alloc_init zero_state) 100)) q)
                     < SMALL_SEGMENTS))
  /\ (custom_malloc 4096 (snd (custom_malloc 4096 (alloc_init zero_state) 100)) 13
      = (NULL, snd (custom_malloc 4096 (alloc_init zero_state) 100))
      \/ exists p k,
           0 <= p < PAGE_COUNT /\ 0 <= k < SMALL_SEGMENTS
           /\ fst (custom_malloc 4096
                     (snd (custom_malloc 4096 (alloc_init zero_state) 100)) 13)
              = 4096 + (page_data_addr p + k * ALIGNED_BLOCK_SMALL)
           /\ bitmap_is_set
                (heap (snd (custom_malloc 4096 (alloc_init zero_state) 100)))
                (page_header_addr p) k = false
           /\ type (entry (snd (custom_malloc 4096
                                 (snd (custom_malloc 4096 (alloc_init zero_state) 100))
                                 13)) p) = PAGE_SMALL
           /\ bitmap_is_set
                (heap (snd (custom_malloc 4096
                              (snd (custom_malloc 4096 (alloc_init zero_state) 100))
                              13)))
                (page_header_addr p) k = true
           /\ used_segments
                (entry (snd (custom_malloc 4096
                               (snd (custom_malloc 4096 (alloc_init zero_state) 100))
                               13)) p)
              = used_segments
                  (entry (snd (custom_malloc 4096 (alloc_init zero_state) 100)) p)
                + 1).
Proof.
  assert (Hr : reachable 4096 64
                 (snd (custom_malloc 4096 (alloc_init zero_state) 100)))
    by (apply reach_malloc, reach_init, well_sized_zero_state).
  assert (Hs : 0 <= 13) by lia.
  assert (H13 : 1 <= 13 <= 15) by lia.
  split; [exact Hr|]. split; [exact Hs|].
  exact (proj1 (proj2 (proj2
           (custom_malloc_size_classes 4096 64 _ 13 Hr Hs))) H13).
Defined.

Lemma small_capacity_witness :
  0 < 4096 /\ well_sized zero_state
  /\ Forall (fun size => 1 <= size <= 15) (replicate 4033 1)
  /\ forall (i : nat) (a : Z),
       malloc_seq 4096 (alloc_init zero_state) (replicate 4033 1) !! i = Some a ->
       (Z.of_nat i < 4032 -> a <> NULL) /\ (4032 <= Z.of_nat i -> a = NULL).
Proof.
  assert (Hb : 0 < 4096) by lia.
  assert (Hf : Forall (fun size => 1 <= size <= 15) (replicate 4033 1))
    by (apply Forall_replicate; lia).
  split; [exact Hb|]. split; [exact well_sized_zero_state|]. split; [exact Hf|].
  exact (proj2 (small_capacity 4096 zero_state _ Hb well_sized_zero_state Hf)).
Defined.

Lemma custom_free_tolerant_witness :
  reachable 4096 64 (alloc_init zero_state)
  /\ HEAP_SIZE < 2 ^ Z.of_nat 64
  /\ custom_free 4096 64 (custom_free 4096 64 (alloc_init zero_state) 4112) 4112
     = custom_free 4096 64 (alloc_init zero_state) 4112.
Proof.
  assert (Hr : reachable 4096 64 (alloc_init zero_state))
    by apply reach_init, well_sized_zero_state.
  split; [exact Hr|]. split; [exact size_t_64_holds_heap|].
  exact (proj2 (proj2 (proj2 (proj2 (proj2
           (custom_free_tolerant 4096 64 _ 4112 Hr size_t_64_holds_heap)))))).
Defined.

Lemma scenario_small_big_big_witness :
  well_sized zero_state
  /\ fst (custom_malloc 4096 (alloc_init zero_state) 1) = 4096 + 16.
Proof.
  split; [exact well_sized_zero_state|].
  exact (proj1 (scenario_small_big_big 4096 zero_state well_sized_zero_state)).
Defined.

Lemma custom_free_header_pointer_witness :
  HEAP_SIZE < 2 ^ Z.of_nat 64
  /\ 4096 <= 4099 < 4096 + HEAP_SIZE
  /\ (4099 - 4096) mod PAGE_SIZE < PAGE_HEADER_SIZE
  /\ type (entry (snd (custom_malloc 4096 (alloc_init zero_state) 1))
             ((4099 - 4096) / PAGE_SIZE)) <> PAGE_FREE
  /\ custom_free 4096 64 (snd (custom_malloc 4096 (alloc_init zero_state) 1)) 4099
     = snd (custom_malloc 4096 (alloc_init zero_state) 1).
Proof.
  assert (Hin : 4096 <= 4099 < 4096 + HEAP_SIZE) by (consts; lia).
  assert (Hh : (4099 - 4096) mod PAGE_SIZE < PAGE_HEADER_SIZE) by (vm_compute; reflexivity).
  assert (Ht : type (entry (snd (custom_malloc 4096 (alloc_init zero_state) 1))
                       ((4099 - 4096) / PAGE_SIZE)) <> PAGE_FREE)
    by (vm_compute; discriminate).
  split; [exact size_t_64_holds_heap|]. split; [exact Hin|].
  split; [exact Hh|]. split; [exact Ht|].
  exact (proj1 (custom_free_header_pointer 4096 64 _ 4099
                  size_t_64_holds_heap Hin Hh Ht)).
Defined.

(** ** Two states with the same bytes and the same entries are equal *)

Lemma state_ext (st st' : state) :
  well_sized st -> well_sized st' ->
  (forall a, 0 <= a < HEAP_SIZE -> load (heap st') a = load (heap st) a) ->
  (forall p, 0 <= p < PAGE_COUNT -> entry st' p = entry st p) ->
  st' = st.
Proof.
  intros [Hh Hp] [Hh' Hp'] Hload Hentry.
  destruct st as [hp pt], st' as [hp' pt']. cbn [heap page_table] in *.
  f_equal.
  - apply list_eq_same_length with (length hp); [reflexivity|lia|].
    intros i x y Hi Hx Hy.
    specialize (Hload (Z.of_nat i) ltac:(lia)). unfold load in Hload.
    rewrite Nat2Z.id, !list_lookup_total_alt, Hx, Hy in Hload. exact Hload.
  - apply list_eq_same_length with (length pt); [reflexivity|lia|].
    intros i x y Hi Hx Hy.
    specialize (Hentry (Z.of_nat i) ltac:(lia)). unfold entry in Hentry.
    cbn [page_table] in Hentry.
    rewrite Nat2Z.id, !list_lookup_total_alt, Hx, Hy in Hentry. exact Hentry.
Qed.

(** ** Bytes the allocator writes *)

(** A heap address is in a page header when it is less than 16 bytes into
    its page. *)
Lemma header_address (a : Z) :
  0 <= a < HEAP_SIZE -> a mod PAGE_SIZE < PAGE_HEADER_SIZE ->
  exists p k, 0 <= p < PAGE_COUNT /\ 0 <= k < PAGE_HEADER_SIZE
              /\ a = page_header_addr p + k.
Proof.
  consts. intros Ha Hm. exists (a / 1024), (a mod 1024).
  rewrite page_header_addr_eq. Z.div_mod_to_equations. lia.
Qed.

Lemma load_take_slot_payload (st : state) (p i a : Z) :
  0 <= p < PAGE_COUNT -> 0 <= i < 128 ->
  0 <= a -> PAGE_HEADER_SIZE <= a mod PAGE_SIZE ->
  load (heap (take_slot st p i)) a = load (heap st) a.
Proof.
  consts. intros Hp Hi Ha Hm. rewrite heap_take_slot, page_header_addr_eq.
  apply load_bitmap_set_ne; Z.div_mod_to_equations; lia.
Qed.

Lemma load_open_page_payload (st : state) (p a : Z) (t : page_type_t) :
  0 <= p < PAGE_COUNT -> 0 <= a -> PAGE_HEADER_SIZE <= a mod PAGE_SIZE ->
  load (heap (open_page st p t)) a = load (heap st) a.
Proof.
  consts. intros Hp Ha Hm. rewrite heap_open_page, page_header_addr_eq.
  apply load_bitmap_set_ne; Z.div_mod_to_equations; lia.
Qed.

Lemma load_page_set_free_payload (st : state) (p a : Z) :
  well_sized st -> 0 <= p < PAGE_COUNT ->
  0 <= a -> PAGE_HEADER_SIZE <= a mod PAGE_SIZE ->
  load (heap (page_set_free st p)) a = load (heap st) a.
Proof.
  intros Hw Hp Ha Hm. rewrite load_page_set_free by assumption.
  rewrite page_header_addr_eq. consts.
  destruct (Z.leb_spec (1024 * p) a), (Z.ltb_spec a (1024 * p + 16)); simpl;
    try reflexivity.
  exfalso. Z.div_mod_to_equations. lia.
Qed.

Lemma load_release_slot_payload (st : state) (p i a : Z) :
  well_sized st -> 0 <= p < PAGE_COUNT -> 0 <= i < 128 ->
  0 <= a -> PAGE_HEADER_SIZE <= a mod PAGE_SIZE ->
  load (heap (release_slot st p i)) a = load (heap st) a.
Proof.
  intros Hw Hp Hi Ha Hm. unfold release_slot.
  assert (Hclr : load (bitmap_clear (heap st) (page_header_addr p) i) a
                 = load (heap st) a).
  { rewrite page_header_addr_eq. consts.
    apply load_bitmap_clear_ne; Z.div_mod_to_equations; lia. }
  destruct (_ =? 0).
  - rewrite load_page_set_free_payload by first [assumption | sized].
    exact Hclr.
  - exact Hclr.
Qed.

(** The allocator writes only into page headers: a byte that lies 16 or
    more bytes into its page is the same after [custom_malloc] and after
    [custom_free]. *)
Theorem payload_untouched (heap_base : Z) (size_bits : nat)
    (st : state) (a : Z) :
  reachable heap_base size_bits st ->
  0 <= a < HEAP_SIZE -> PAGE_HEADER_SIZE <= a mod PAGE_SIZE ->
  (forall size,
     load (heap (snd (custom_malloc heap_base st size))) a = load (heap st) a)
  /\ (forall ptr,
        load (heap (custom_free heap_base size_bits st ptr)) a = load (heap st) a).
Proof.
  intros Hreach Ha Hm. apply reachable_consistent in Hreach as [Hw _].
  assert (Hclass : forall t,
            load (heap (snd (alloc_class heap_base t st))) a = load (heap st) a).
  { intros t. pose proof (segments_of_range t) as Hseg.
    destruct (alloc_class_cases heap_base t st)
      as [(p & Hp & Hr & _ & ->)|[(p & Hp & _ & _ & _ & ->)|(_ & _ & ->)]];
      cbn [snd]; [| |reflexivity].
    - apply has_room_slot in Hr as (_ & _ & Hi & _).
      apply load_take_slot_payload; lia.
    - apply load_open_page_payload; lia. }
  split.
  - intros size. unfold custom_malloc.
    destruct (size =? 0); [reflexivity|].
    destruct (size <=? BLOCK_SMALL); [rewrite alloc_small_eq; apply Hclass|].
    destruct (size <=? BLOCK_BIG); [rewrite alloc_big_eq; apply Hclass|reflexivity].
  - intros ptr.
    destruct (custom_free_cases heap_base size_bits st ptr)
      as [->|(p & i & t & _ & _ & Hp & _ & _ & _ & _ & Hi & _ & ->)];
      [reflexivity|].
    pose proof (segments_of_range t).
    apply load_release_slot_payload; try assumption; lia.
Qed.

(** [custom_malloc] returns null only without changing the state. *)
Theorem custom_malloc_null_keeps_state (heap_base : Z) (st : state) (size : Z) :
  0 < heap_base ->
  fst (custom_malloc heap_base st size) = NULL ->
  snd (custom_malloc heap_base st size) = st.
Proof.
  intros Hb.
  assert (Hclass : forall t,
            fst (alloc_class heap_base t st) = NULL ->
            snd (alloc_class heap_base t st) = st).
  { intros t.
    destruct (alloc_class_cases heap_base t st)
      as [(p & Hp & Hr & _ & ->)|[(p & Hp & _ & _ & _ & ->)|(_ & _ & ->)]];
      cbn [fst snd]; [| |reflexivity].
    - apply has_room_slot in Hr as (_ & _ & Hi & _).
      assert (0 <= slot_size_of t) by (destruct t; simpl; consts; lia).
      rewrite page_data_addr_eq. consts. nia.
    - rewrite page_data_addr_eq. consts. lia. }
  unfold custom_malloc.
  destruct (size =? 0); [reflexivity|].
  destruct (size <=? BLOCK_SMALL); [rewrite alloc_small_eq; apply Hclass|].
  destruct (size <=? BLOCK_BIG); [rewrite alloc_big_eq; apply Hclass|reflexivity].
Qed.
(** ** Live pages and header bytes *)

Lemma u8_range (z : Z) : 0 <= u8 z < 256.
Proof. unfold u8. apply Z.mod_pos_bound. lia. Qed.

Lemma load_bitmap_set_cases (hp : list Z) (bitmap i a : Z) :
  0 <= bitmap + i / 8 < Z.of_nat (length hp) -> 0 <= a ->
  load (bitmap_set hp bitmap i) a = load hp a
  \/ 0 <= load (bitmap_set hp bitmap i) a < 256.
Proof.
  intros Hb Ha. destruct (Z.eq_dec a (bitmap + i / 8)) as [->|Hne].
  - right. unfold bitmap_set. rewrite shiftr3_div, load_store_eq by lia.
    apply u8_range.
  - left. apply load_bitmap_set_ne; lia.
Qed.

Lemma load_bitmap_clear_cases (hp : list Z) (bitmap i a : Z) :
  0 <= bitmap + i / 8 < Z.of_nat (length hp) -> 0 <= a ->
  load (bitmap_clear hp bitmap i) a = load hp a
  \/ 0 <= load (bitmap_clear hp bitmap i) a < 256.
Proof.
  intros Hb Ha. destruct (Z.eq_dec a (bitmap + i / 8)) as [->|Hne].
  - right. unfold bitmap_clear. rewrite shiftr3_div, load_store_eq by lia.
    apply u8_range.
  - left. apply load_bitmap_clear_ne; lia.
Qed.

Lemma header_bytes_kept (st st' : state) :
  header_bytes st ->
  (forall a, 0 <= a ->
     load (heap st') a = load (heap st) a \/ 0 <= load (heap st') a < 256) ->
  header_bytes st'.
Proof.
  intros Hb Hk p k Hp Hk'.
  destruct (Hk (page_header_addr p + k)) as [->|Hr]; auto.
  rewrite page_header_addr_eq. consts. lia.
Qed.

Lemma page_bit_byte (p i : Z) :
  0 <= p < PAGE_COUNT -> 0 <= i < 128 ->
  0 <= page_header_addr p + i / 8 < HEAP_SIZE.
Proof.
  intros Hp Hi. rewrite page_header_addr_eq. consts.
  Z.div_mod_to_equations. lia.
Qed.

Lemma tidy_take_slot (st : state) (p i : Z) (t : page_type_t) :
  tidy st -> 0 <= p < PAGE_COUNT ->
  type (entry st p) = t -> t <> PAGE_FREE -> 0 <= i < segments_of t ->
  bitmap_is_set (heap st) (page_header_addr p) i = false ->
  tidy (take_slot st p i).
Proof.
  intros (Hc & Hlive & Hbytes) Hp Ht Hne Hi Hclr.
  pose proof Hc as [Hw Hpages]. pose proof (segments_of_range t) as Hseg.
  split; [now apply (consistent_take_slot st p i t)|]. split.
  - intros q Hq. rewrite entry_take_slot by (assumption || lia).
    destruct (Z.eqb_spec p q) as [<-|Hpq]; cbn [type used_segments]; [|auto].
    intros _.
    assert (Hu : used_segments (entry st p)
                 = popcount (heap st) (page_header_addr p) (segments_of t))
      by (apply (page_consistent_typed _ _ t); auto).
    pose proof (popcount_bounds (heap st) (page_header_addr p) (segments_of t)).
    rewrite u16_small; lia.
  - apply (header_bytes_kept st); [assumption|]. intros a Ha.
    rewrite heap_take_slot. apply load_bitmap_set_cases; [|assumption].
    destruct Hw as [-> _]. apply page_bit_byte; lia.
Qed.

Lemma tidy_open_page (st : state) (p : Z) (t : page_type_t) :
  tidy st -> 0 <= p < PAGE_COUNT ->
  type (entry st p) = PAGE_FREE -> t <> PAGE_FREE ->
  tidy (open_page st p t).
Proof.
  intros (Hc & Hlive & Hbytes) Hp Ht Hne. pose proof Hc as [Hw Hpages].
  split; [now apply consistent_open_page|]. split.
  - intros q Hq. rewrite entry_open_page by (assumption || lia).
    destruct (Z.eqb_spec p q) as [<-|Hpq]; cbn [type used_segments]; [lia|auto].
  - apply (header_bytes_kept st); [assumption|]. intros a Ha.
    rewrite heap_open_page. apply load_bitmap_set_cases; [|assumption].
    destruct Hw as [-> _]. apply page_bit_byte; consts; lia.
Qed.

Lemma entry_release_slot_other (st : state) (p i q : Z) :
  well_sized st -> 0 <= p < PAGE_COUNT -> 0 <= q -> q <> p ->
  entry (release_slot st p i) q = entry st q.
Proof.
  intros Hw Hp Hq Hne. unfold release_slot.
  destruct (_ =? 0).
  - rewrite entry_page_set_free by sized.
    destruct (Z.eqb_spec p q); [lia|].
    rewrite entry_set_used by sized. destruct (Z.eqb_spec p q); [lia|reflexivity].
  - rewrite entry_set_used by sized. destruct (Z.eqb_spec p q); [lia|reflexivity].
Qed.

Lemma load_release_slot_cases (st : state) (p i a : Z) :
  well_sized st -> 0 <= p < PAGE_COUNT -> 0 <= i < 128 -> 0 <= a ->
  load (heap (release_slot st p i)) a = load (heap st) a
  \/ 0 <= load (heap (release_slot st p i)) a < 256.
Proof.
  intros Hw Hp Hi Ha. unfold release_slot.
  assert (Hclr : load (bitmap_clear (heap st) (page_header_addr p) i) a
                 = load (heap st) a
                 \/ 0 <= load (bitmap_clear (heap st) (page_header_addr p) i) a < 256).
  { apply load_bitmap_clear_cases; [|assumption].
    destruct Hw as [-> _]. now apply page_bit_byte. }
  destruct (_ =? 0); [|exact Hclr].
  rewrite load_page_set_free by first [assumption | sized].
  destruct (_ && _); [right; lia|exact Hclr].
Qed.

Lemma tidy_release_slot (st : state) (p i : Z) (t : page_type_t) :
  tidy st -> 0 <= p < PAGE_COUNT ->
  type (entry st p) = t -> t <> PAGE_FREE -> 0 <= i < segments_of t ->
  bitmap_is_set (heap st) (page_header_addr p) i = true ->
  tidy (release_slot st p i).
Proof.
  intros (Hc & Hlive & Hbytes) Hp Ht Hne Hi Hset.
  pose proof Hc as [Hw Hpages]. pose proof (segments_of_range t) as Hseg.
  split; [now apply (consistent_release_slot st p i t)|]. split.
  - intros q Hq. destruct (Z.eq_dec q p) as [->|Hqp].
    + rewrite entry_release_slot by assumption.
      assert (1 <= used_segments (entry st p)) by (apply Hlive; congruence).
      assert (Hu : used_segments (entry st p)
                   = popcount (heap st) (page_header_addr p) (segments_of t))
        by (apply (page_consistent_typed _ _ t); auto).
      pose proof (popcount_bounds (heap st) (page_header_addr p) (segments_of t)).
      rewrite u16_small by lia.
      destruct (Z.eqb_spec (used_segments (entry st p) - 1) 0);
        cbn [type used_segments]; [congruence|lia].
    + rewrite entry_release_slot_other by (assumption || lia). auto.
  - apply (header_bytes_kept st); [assumption|]. intros a Ha.
    apply load_release_slot_cases; (assumption || lia).
Qed.

Lemma tidy_alloc_init (st0 : state) : well_sized st0 -> tidy (alloc_init st0).
Proof.
  intros Hw. destruct (alloc_init_spec st0 Hw) as [Hw' H].
  pose proof (consistent_alloc_init st0 Hw) as Hc.
  generalize dependent (alloc_init st0). intros st Hw' H Hc.
  split; [assumption|]. split.
  - intros p Hp Ht. destruct (H p Hp) as [He _]. rewrite He in Ht. contradiction.
  - intros p k Hp Hk. destruct (H p Hp) as [_ Hz]. rewrite Hz by assumption. lia.
Qed.

Lemma reachable_tidy (heap_base : Z) (size_bits : nat) (st : state) :
  reachable heap_base size_bits st -> tidy st.
Proof.
  induction 1 as [st0 Hw|st size _ IH|st ptr _ IH].
  - now apply tidy_alloc_init.
  - assert (Hclass : forall t, t <> PAGE_FREE ->
              tidy (snd (alloc_class heap_base t st))).
    { intros t Ht.
      destruct (alloc_class_cases heap_base t st)
        as [(p & Hp & Hr & _ & ->)|[(p & Hp & _ & Hf & _ & ->)|(_ & _ & ->)]];
        cbn [snd]; [| |assumption].
      - apply has_room_slot in Hr as (Hty & _ & Hi & Hclr).
        now apply (tidy_take_slot st p _ t).
      - now apply tidy_open_page. }
    unfold custom_malloc.
    destruct (size =? 0); [assumption|].
    destruct (size <=? BLOCK_SMALL);
      [rewrite alloc_small_eq; now apply Hclass|].
    destruct (size <=? BLOCK_BIG); [|assumption].
    rewrite alloc_big_eq; now apply Hclass.
  - destruct (custom_free_cases heap_base size_bits st ptr)
      as [->|(p & i & t & _ & _ & Hp & Ht & Hne & _ & _ & Hi & Hset & ->)];
      [assumption|].
    now apply (tidy_release_slot st p i t).
Qed.

(** In every reachable state a page is free exactly when none of its
    slots is in use, and no page has more slots in use than its class
    has. *)
Theorem used_segments_bounds (heap_base : Z) (size_bits : nat)
    (st : state) (page_index : Z) :
  reachable heap_base size_bits st ->
  0 <= page_index < PAGE_COUNT ->
  (type (entry st page_index) = PAGE_FREE
   <-> used_segments (entry st page_index) = 0)
  /\ 0 <= used_segments (entry st page_index)
       <= segments_of (type (entry st page_index)).
Proof.
  intros Hreach Hp. apply reachable_tidy in Hreach as ([_ Hpages] & Hlive & _).
  specialize (Hpages page_index Hp). specialize (Hlive page_index Hp).
  unfold page_consistent in Hpages.
  destruct (type (entry st page_index)) eqn:Ht; cbn [segments_of].
  - destruct Hpages as [-> _]. split; [tauto|lia].
  - specialize (Hlive ltac:(discriminate)).
    pose proof (popcount_bounds (heap st) (page_header_addr page_index)
                  SMALL_SEGMENTS ltac:(consts; lia)).
    split; [split; [discriminate|lia]|lia].
  - specialize (Hlive ltac:(discriminate)).
    pose proof (popcount_bounds (heap st) (page_header_addr page_index)
                  BIG_SEGMENTS ltac:(consts; lia)).
    split; [split; [discriminate|lia]|lia].
Qed.
(** ** Allocating and giving back *)

Lemma clear_set_byte (x k : Z) :
  0 <= x < 256 -> 0 <= k < 8 -> Z.testbit x k = false ->
  u8 (Z.land (u8 (Z.lor x (Z.shiftl 1 k))) (Z.lnot (Z.shiftl 1 k))) = x.
Proof.
  intros Hx Hk Hclr. apply Z.bits_inj'. intros n Hn.
  destruct (Z.lt_ge_cases n 8) as [Hlt|Hge].
  - rewrite u8_testbit, Z.land_spec, u8_testbit, Z.lor_spec, Z.lnot_spec by lia.
    rewrite Z.shiftl_1_l, Z.pow2_bits_eqb by lia.
    destruct (Z.eqb_spec k n) as [->|]; simpl.
    + now rewrite Hclr.
    + now rewrite orb_false_r, andb_true_r.
  - unfold u8 at 1. change 256 with (2 ^ 8).
    rewrite Z.mod_pow2_bits_high by lia.
    symmetry. apply Z.bits_above_log2; [lia|].
    destruct (Z.eq_dec x 0) as [->|]; [simpl; lia|].
    apply Z.log2_lt_pow2; [lia|].
    apply Z.lt_le_trans with (2 ^ 8); [simpl; lia|].
    apply Z.pow_le_mono_r; lia.
Qed.

Lemma load_clear_set (hp : list Z) (bitmap i a : Z) :
  0 <= bitmap + i / 8 < Z.of_nat (length hp) ->
  0 <= load hp (bitmap + i / 8) < 256 ->
  bitmap_is_set hp bitmap i = false -> 0 <= a ->
  load (bitmap_clear (bitmap_set hp bitmap i) bitmap i) a = load hp a.
Proof.
  intros Hb Hbyte Hclr Ha.
  destruct (Z.eq_dec a (bitmap + i / 8)) as [->|Hne].
  - unfold bitmap_clear, bitmap_set. rewrite !shiftr3_div, !land7_mod.
    rewrite !load_store_eq by (rewrite ?length_store; lia).
    rewrite bitmap_is_set_testbit in Hclr.
    apply clear_set_byte; [assumption| |assumption].
    apply Z.mod_pos_bound. lia.
  - rewrite load_bitmap_clear_ne, load_bitmap_set_ne by lia. reflexivity.
Qed.

Lemma entry_eta (e : h_page) : mk_h_page (used_segments e) (type e) = e.
Proof. now destruct e. Qed.

(** Giving back a slot that was just taken restores the state. *)
Lemma release_take_slot (st : state) (p i : Z) (t : page_type_t) :
  tidy st -> 0 <= p < PAGE_COUNT ->
  type (entry st p) = t -> t <> PAGE_FREE -> 0 <= i < segments_of t ->
  used_segments (entry st p) < segments_of t ->
  bitmap_is_set (heap st) (page_header_addr p) i = false ->
  release_slot (take_slot st p i) p i = st.
Proof.
  intros (Hc & Hlive & Hbytes) Hp Ht Hne Hi Hroom Hclr.
  pose proof Hc as [Hw Hpages]. pose proof (segments_of_range t) as Hseg.
  assert (Hw1 : well_sized (take_slot st p i)) by now apply well_sized_take_slot.
  assert (Hu : 1 <= used_segments (entry st p)) by (apply Hlive; congruence).
  assert (He1 : entry (take_slot st p i) p
                = mk_h_page (used_segments (entry st p) + 1) t).
  { rewrite entry_take_slot, Z.eqb_refl, Ht by (assumption || lia).
    now rewrite u16_small by lia. }
  assert (Hnz : u16 (used_segments (entry (take_slot st p i) p) - 1) <> 0).
  { rewrite He1. cbn [used_segments]. rewrite u16_small; lia. }
  apply state_ext; [assumption|now apply well_sized_release_slot| |].
  - intros a Ha. rewrite heap_release_slot, heap_take_slot by assumption.
    pose proof (page_bit_byte p i Hp ltac:(lia)) as Hbyte.
    apply load_clear_set; try assumption; try lia.
    + destruct Hw as [-> _]. lia.
    + rewrite page_header_addr_eq.
      replace (1024 * p + i / 8) with (page_header_addr p + i / 8)
        by (rewrite page_header_addr_eq; reflexivity).
      apply Hbytes; [assumption|]. consts. Z.div_mod_to_equations. lia.
  - intros q Hq. destruct (Z.eq_dec q p) as [->|Hqp].
    + rewrite entry_release_slot by assumption.
      destruct (Z.eqb_spec (u16 (used_segments (entry (take_slot st p i) p) - 1)) 0);
        [contradiction|].
      rewrite He1. cbn [used_segments type]. rewrite u16_small by lia.
      rewrite <- (entry_eta (entry st p)) at 2. rewrite Ht. f_equal. lia.
    + rewrite entry_release_slot_other by (assumption || lia).
      rewrite entry_take_slot by (assumption || lia).
      destruct (Z.eqb_spec p q); [lia|reflexivity].
Qed.

(** Giving back the only slot of a page that was just opened restores the
    free page. *)
Lemma release_open_page (st : state) (p : Z) (t : page_type_t) :
  tidy st -> 0 <= p < PAGE_COUNT ->
  type (entry st p) = PAGE_FREE -> t <> PAGE_FREE ->
  release_slot (open_page st p t) p 0 = st.
Proof.
  intros (Hc & Hlive & Hbytes) Hp Ht Hne. pose proof Hc as [Hw Hpages].
  assert (Hw1 : well_sized (open_page st p t)) by now apply well_sized_open_page.
  pose proof (Hpages p Hp) as Hpp. unfold page_consistent in Hpp.
  rewrite Ht in Hpp. destruct Hpp as [Hu0 Hz].
  assert (He1 : entry (open_page st p t) p = mk_h_page 1 t)
    by (rewrite entry_open_page, Z.eqb_refl by (assumption || lia); reflexivity).
  assert (Hrel : release_slot (open_page st p t) p 0
                 = page_set_free
                     (set_used
                        (set_heap (open_page st p t)
                           (bitmap_clear (heap (open_page st p t))
                              (page_header_addr p) 0)) p 0) p).
  { unfold release_slot. rewrite !entry_set_used, !entry_set_heap, Z.eqb_refl by sized.
    rewrite He1. cbn [used_segments]. reflexivity. }
  apply state_ext; [assumption|now apply well_sized_release_slot| |].
  - intros a Ha. rewrite Hrel, load_page_set_free by first [assumption | lia | sized].
    cbn [heap set_used set_heap].
    destruct (Z.leb_spec (page_header_addr p) a),
      (Z.ltb_spec a (page_header_addr p + PAGE_HEADER_SIZE)); cbn [andb].
    1: { replace a with (page_header_addr p + (a - page_header_addr p)) by lia.
         rewrite Hz; [reflexivity|lia]. }
    all: rewrite heap_open_page; rewrite page_header_addr_eq in *; consts;
      rewrite load_bitmap_clear_ne, load_bitmap_set_ne
        by (Z.div_mod_to_equations; lia); reflexivity.
  - intros q Hq. destruct (Z.eq_dec q p) as [->|Hqp].
    + rewrite entry_release_slot by assumption. rewrite He1. cbn [used_segments].
      change (u16 (1 - 1) =? 0) with true. cbv iota.
      rewrite <- (entry_eta (entry st p)) at 1. rewrite Ht, Hu0. reflexivity.
    + rewrite entry_release_slot_other by (assumption || lia).
      rewrite entry_open_page by (assumption || lia).
      destruct (Z.eqb_spec p q); [lia|reflexivity].
Qed.

(** Freeing the pointer that [custom_malloc] has just returned brings the
    allocator back to the state before the allocation: page table, page
    headers and heap bytes. *)
Theorem malloc_free_round_trip (heap_base : Z) (size_bits : nat)
    (st : state) (size : Z) :
  reachable heap_base size_bits st ->
  0 < heap_base -> HEAP_SIZE < 2 ^ Z.of_nat size_bits ->
  custom_free heap_base size_bits
    (snd (custom_malloc heap_base st size)) (fst (custom_malloc heap_base st size))
  = st.
Proof.
  intros Hreach Hb Hbits. apply reachable_tidy in Hreach as Htidy.
  pose proof Htidy as ([Hw Hpages] & Hlive & Hbytes).
  assert (Hnull : custom_free heap_base size_bits st NULL = st) by reflexivity.
  assert (Hclass : forall t, t <> PAGE_FREE ->
            custom_free heap_base size_bits
              (snd (alloc_class heap_base t st)) (fst (alloc_class heap_base t st))
            = st).
  { intros t Ht. pose proof (segments_of_range t) as Hseg.
    assert (Hslot : 0 < slot_size_of t
                    /\ (segments_of t - 1) * slot_size_of t < 1008)
      by (destruct t; simpl; consts; first [congruence | lia]).
    destruct (alloc_class_cases heap_base t st)
      as [(p & Hp & Hr & _ & ->)|[(p & Hp & _ & Hf & _ & ->)|(_ & _ & ->)]];
      cbn [fst snd]; [| |assumption].
    - apply has_room_slot in Hr as (Hty & Hroom & Hi & Hclr).
      set (i := find_free_block (heap st) (page_header_addr p) (segments_of t)) in *.
      assert (Hfit : i * slot_size_of t < 1008) by nia.
      assert (Hin : heap_base <= heap_base + (page_data_addr p + i * slot_size_of t)
                    < heap_base + HEAP_SIZE)
        by (rewrite page_data_addr_eq; consts; nia).
      rewrite custom_free_in_heap by assumption. cbv zeta.
      replace ((heap_base + (page_data_addr p + i * slot_size_of t) - heap_base) / 1024)
        with p by (rewrite page_data_addr_eq; Z.div_mod_to_equations; nia).
      destruct (Z.eqb_spec (heap_base + (page_data_addr p + i * slot_size_of t)) NULL)
        as [Hz|_]; [rewrite page_data_addr_eq in Hz; consts; nia|].
      rewrite entry_take_slot, Z.eqb_refl by (assumption || lia).
      cbn [used_segments type].
      assert (Hu : 1 <= used_segments (entry st p)) by (apply Hlive; congruence).
      rewrite u16_small by lia.
      destruct (Z.eqb_spec (used_segments (entry st p) + 1) 0); [lia|].
      assert (Hfree : free_in_page heap_base size_bits (take_slot st p i)
                        (heap_base + (page_data_addr p + i * slot_size_of t)) p
                        (slot_size_of t) (segments_of t) = st).
      { rewrite free_in_page_slot by (assumption || lia).
        rewrite take_slot_bit by (assumption || lia).
        now apply (release_take_slot st p i t). }
      rewrite Hty. destruct t; [contradiction| |]; exact Hfree.
    - assert (Hin : heap_base <= heap_base + page_data_addr p
                    < heap_base + HEAP_SIZE)
        by (rewrite page_data_addr_eq; consts; lia).
      rewrite custom_free_in_heap by assumption. cbv zeta.
      replace ((heap_base + page_data_addr p - heap_base) / 1024)
        with p by (rewrite page_data_addr_eq; Z.div_mod_to_equations; lia).
      destruct (Z.eqb_spec (heap_base + page_data_addr p) NULL)
        as [Hz|_]; [rewrite page_data_addr_eq in Hz; consts; lia|].
      rewrite entry_open_page, Z.eqb_refl by (assumption || lia).
      cbn [used_segments type]. change (1 =? 0) with false. cbv iota.
      assert (Hfree : free_in_page heap_base size_bits (open_page st p t)
                        (heap_base + page_data_addr p) p
                        (slot_size_of t) (segments_of t) = st).
      { replace (heap_base + page_data_addr p)
          with (heap_base + (page_data_addr p + 0 * slot_size_of t)) by lia.
        assert (0 < segments_of t)
          by (destruct t; simpl; consts; first [congruence | lia]).
        rewrite free_in_page_slot by (assumption || lia).
        rewrite heap_open_page, page_bit_set by (apply Hw || lia).
        rewrite !Z.eqb_refl. cbn [andb orb].
        now apply release_open_page. }
      destruct t; [contradiction| |]; exact Hfree. }
  unfold custom_malloc.
  destruct (size =? 0); [assumption|].
  destruct (size <=? BLOCK_SMALL);
    [rewrite alloc_small_eq; now apply Hclass|].
  destruct (size <=? BLOCK_BIG); [|assumption].
  rewrite alloc_big_eq; now apply Hclass.
Qed.
(** ** Capacity of a class *)

Lemma page_type_eqb_refl (t : page_type_t) : page_type_eqb t t = true.
Proof. now destruct t. Qed.

Lemma class_phase_used_le (t : page_type_t) (k : Z) (st : state) (p : Z) :
  class_phase t k st -> t <> PAGE_FREE -> 0 <= p < PAGE_COUNT ->
  0 <= used_segments (entry st p) <= segments_of t.
Proof.
  intros ([Hw Hpages] & Hty & _) Hne Hp.
  pose proof (segments_of_range t) as Hseg.
  specialize (Hpages p Hp). destruct (Hty p Hp) as [Ht|Hf].
  - apply (page_consistent_typed st p t Ht Hne) in Hpages. rewrite Hpages.
    apply popcount_bounds. lia.
  - unfold page_consistent in Hpages. rewrite Hf in Hpages.
    destruct Hpages as [-> _]. lia.
Qed.

(** Without room in any page of the class and without a free page, every
    slot of every page is in use. *)
Lemma class_phase_exhausted (t : page_type_t) (k : Z) (st : state) :
  class_phase t k st -> t <> PAGE_FREE ->
  (forall q, 0 <= q < PAGE_COUNT -> has_room st t q = false) ->
  (forall q, 0 <= q < PAGE_COUNT -> type (entry st q) <> PAGE_FREE) ->
  segments_of t * PAGE_COUNT <= k.
Proof.
  intros Hph Hne Hroom Hfree. pose proof Hph as ([Hw Hpages] & Hty & <-).
  pose proof (segments_of_range t) as Hseg.
  destruct Hw as [Hh Hpt]. rewrite <- Hpt.
  apply total_used_lower. intros q Hq.
  assert (Hq' : 0 <= Z.of_nat q < PAGE_COUNT) by lia.
  specialize (Hroom _ Hq'). specialize (Hfree _ Hq').
  specialize (Hpages _ Hq').
  destruct (Hty _ Hq') as [Ht|Hf]; [|contradiction].
  apply (page_consistent_typed st _ t Ht Hne) in Hpages.
  replace (page_table st !!! q) with (entry st (Z.of_nat q))
    by (unfold entry; now rewrite Nat2Z.id).
  destruct (Z.lt_ge_cases (used_segments (entry st (Z.of_nat q))) (segments_of t))
    as [Hlt|]; [exfalso|assumption].
  unfold has_room in Hroom. rewrite Ht, page_type_eqb_refl in Hroom.
  destruct (Z.ltb_spec (used_segments (entry st (Z.of_nat q))) (segments_of t));
    [|lia].
  cbn [andb] in Hroom. apply negb_false_iff, Z.eqb_eq in Hroom.
  destruct (find_free_block_finds (heap st) (page_header_addr (Z.of_nat q))
              (segments_of t)) as [Hr _]; [consts; lia|lia|].
  consts. lia.
Qed.

Lemma class_phase_alloc (heap_base : Z) (t : page_type_t) (k : Z) (st : state) :
  0 < heap_base -> t <> PAGE_FREE ->
  class_phase t k st -> 0 <= k <= segments_of t * PAGE_COUNT ->
  (k < segments_of t * PAGE_COUNT ->
     fst (alloc_class heap_base t st) <> NULL
     /\ class_phase t (k + 1) (snd (alloc_class heap_base t st)))
  /\ (k = segments_of t * PAGE_COUNT ->
     alloc_class heap_base t st = (NULL, st)).
Proof.
  intros Hbase Hne Hph Hk. pose proof Hph as (Hc & Hty & Htot).
  pose proof Hc as [Hw Hpages]. pose proof (segments_of_range t) as Hseg.
  assert (Hslot : 0 < slot_size_of t /\ 0 < segments_of t)
    by (destruct t; simpl; consts; first [congruence | lia]).
  assert (Hfull : k = segments_of t * PAGE_COUNT ->
            forall p, 0 <= p < PAGE_COUNT ->
              used_segments (entry st p) = segments_of t).
  { intros -> p Hp. destruct Hw as [_ Hpt].
    replace (entry st p) with (page_table st !!! Z.to_nat p) by reflexivity.
    apply (total_used_full (segments_of t)); [| |lia].
    - intros q Hq.
      pose proof (class_phase_used_le t _ st (Z.of_nat q) Hph Hne ltac:(lia)) as Hu.
      unfold entry in Hu. rewrite Nat2Z.id in Hu. lia.
    - rewrite Htot. lia. }
  destruct (alloc_class_cases heap_base t st)
    as [(p & Hp & Hr & _ & Heq)|[(p & Hp & _ & Hf & _ & Heq)|(Hroom & Hfree & Heq)]].
  - pose proof (has_room_slot _ _ _ Hr) as (Ht & Hu & Hi & Hclr).
    pose proof (class_phase_used_le t k st p Hph Hne Hp) as Hup.
    split.
    + intros _. rewrite Heq. cbn [fst snd]. split.
      * rewrite page_data_addr_eq. consts. nia.
      * split; [|split].
        -- now apply (consistent_take_slot st p _ t).
        -- intros q Hq. rewrite entry_take_slot by (assumption || lia).
           destruct (Z.eqb_spec p q); cbn [type]; [now left|auto].
        -- rewrite (total_used_step st _ p);
             [|assumption|now apply well_sized_take_slot|assumption|].
           ++ rewrite entry_take_slot, Z.eqb_refl by (assumption || lia).
              cbn [used_segments]. rewrite u16_small by lia. lia.
           ++ intros q Hq Hqp. rewrite entry_take_slot by (assumption || lia).
              destruct (Z.eqb_spec p q); [lia|reflexivity].
    + intros Hmax. specialize (Hfull Hmax p Hp). lia.
  - pose proof (Hpages p Hp) as Hpp. unfold page_consistent in Hpp.
    rewrite Hf in Hpp. destruct Hpp as [Hu0 _].
    split.
    + intros _. rewrite Heq. cbn [fst snd]. split.
      * rewrite page_data_addr_eq. consts. lia.
      * split; [|split].
        -- now apply consistent_open_page.
        -- intros q Hq. rewrite entry_open_page by (assumption || lia).
           destruct (Z.eqb_spec p q); cbn [type]; [now left|auto].
        -- rewrite (total_used_step st _ p);
             [|assumption|now apply well_sized_open_page|assumption|].
           ++ rewrite entry_open_page, Z.eqb_refl by (assumption || lia).
              cbn [used_segments]. lia.
           ++ intros q Hq Hqp. rewrite entry_open_page by (assumption || lia).
              destruct (Z.eqb_spec p q); [lia|reflexivity].
    + intros Hmax. specialize (Hfull Hmax p Hp). lia.
  - split; [|intros _; assumption].
    intros Hlt.
    pose proof (class_phase_exhausted t k st Hph Hne Hroom Hfree). lia.
Qed.

Lemma malloc_seq_class (heap_base : Z) (t : page_type_t) (sizes : list Z) :
  0 < heap_base -> t <> PAGE_FREE ->
  forall (k : Z) (st : state),
    class_phase t k st -> 0 <= k <= segments_of t * PAGE_COUNT ->
    (forall st' size, In size sizes ->
       custom_malloc heap_base st' size = alloc_class heap_base t st') ->
    forall (i : nat) (a : Z),
      malloc_seq heap_base st sizes !! i = Some a ->
      (k + Z.of_nat i < segments_of t * PAGE_COUNT -> a <> NULL)
      /\ (segments_of t * PAGE_COUNT <= k + Z.of_nat i -> a = NULL).
Proof.
  intros Hbase Hne.
  induction sizes as [|size sizes IH]; intros k st Hph Hk Hcls i a Hi;
    simpl in Hi; [discriminate|].
  rewrite (Hcls st size (or_introl eq_refl)) in Hi.
  assert (Hrest : forall st' size', In size' sizes ->
            custom_malloc heap_base st' size' = alloc_class heap_base t st')
    by (intros st' size' Hin; apply Hcls; now right).
  destruct (class_phase_alloc heap_base t k st Hbase Hne Hph Hk) as [Hroom Hfull].
  destruct (Z.lt_ge_cases k (segments_of t * PAGE_COUNT)) as [Hlt|Hge].
  - destruct (Hroom Hlt) as [Hnn Hph'].
    destruct i as [|i]; simpl in Hi.
    + injection Hi as <-. split; [auto|lia].
    + destruct (IH (k + 1) _ Hph' ltac:(lia) Hrest i a Hi) as [H1 H2].
      split; intros; [apply H1|apply H2]; lia.
  - assert (k = segments_of t * PAGE_COUNT) as Hk' by lia.
    rewrite (Hfull Hk') in Hi. cbn [fst snd] in Hi.
    destruct i as [|i]; simpl in Hi.
    + injection Hi as <-. split; [lia|reflexivity].
    + destruct (IH k st Hph Hk Hrest i a Hi) as [H1 H2].
      split; intros; [lia|apply H2; lia].
Qed.

Lemma class_phase_init (t : page_type_t) (st0 : state) :
  well_sized st0 -> class_phase t 0 (alloc_init st0).
Proof.
  intros Hw. destruct (alloc_init_spec st0 Hw) as [Hw' H].
  pose proof (consistent_alloc_init st0 Hw) as Hc.
  generalize dependent (alloc_init st0). intros st Hw' H Hc.
  split; [assumption|]. split.
  - intros p Hp. destruct (H p Hp) as [-> _]. now right.
  - apply total_used_zero. intros q Hq. destruct Hw' as [_ Hpt].
    destruct (H (Z.of_nat q) ltac:(lia)) as [He _].
    unfold entry in He. rewrite Nat2Z.id in He. now rewrite He.
Qed.

(** From [alloc_init], [custom_malloc] calls of sizes 16 to 180 with no
    [custom_free] between them return a non-null pointer for each of the
    first 320 calls (5 slots in each of the 64 pages), and null for every
    later one. *)
Theorem big_capacity (heap_base : Z) (st0 : state) (sizes : list Z) :
  0 < heap_base -> well_sized st0 ->
  Forall (fun size => 16 <= size <= 180) sizes ->
  forall (i : nat) (a : Z),
    malloc_seq heap_base (alloc_init st0) sizes !! i = Some a ->
    (Z.of_nat i < 320 -> a <> NULL) /\ (320 <= Z.of_nat i -> a = NULL).
Proof.
  intros Hbase Hw Hsizes i a Hi.
  destruct (malloc_seq_class heap_base PAGE_BIG sizes Hbase ltac:(discriminate)
              0 (alloc_init st0) (class_phase_init PAGE_BIG st0 Hw)
              ltac:(simpl; consts; lia)) with (i := i) (a := a) as [H1 H2].
  - intros st' size Hin. apply custom_malloc_big.
    rewrite Forall_forall in Hsizes. specialize (Hsizes size Hin). consts. lia.
  - assumption.
  - simpl in H1, H2. consts. split; intros; [apply H1|apply H2]; lia.
Qed.

(** ** Where a block lies *)

(** A block that [custom_malloc] returns lies in the data area of one
    page: it starts at or after the 16 header bytes, and its [size] bytes
    end before the next page begins. *)
Theorem custom_malloc_block_in_page (heap_base : Z) (size_bits : nat)
    (st : state) (size : Z) :
  reachable heap_base size_bits st ->
  0 <= size ->
  fst (custom_malloc heap_base st size) <> NULL ->
  exists p,
    0 <= p < PAGE_COUNT
    /\ heap_base + page_data_addr p <= fst (custom_malloc heap_base st size)
    /\ fst (custom_malloc heap_base st size) + size
       <= heap_base + page_base_addr p + PAGE_SIZE.
Proof.
  intros Hreach Hsize Hnn. apply reachable_consistent in Hreach as Hc.
  assert (Hclass : forall t, t <> PAGE_FREE -> size <= slot_size_of t ->
            (segments_of t - 1) * slot_size_of t + slot_size_of t <= 1008 ->
            fst (alloc_class heap_base t st) <> NULL ->
            exists p, 0 <= p < PAGE_COUNT
              /\ heap_base + page_data_addr p <= fst (alloc_class heap_base t st)
              /\ fst (alloc_class heap_base t st) + size
                 <= heap_base + page_base_addr p + PAGE_SIZE).
  { intros t Ht Hfit Hgeo Hn.
    destruct (alloc_class_result heap_base t st Hc Ht)
      as [Hnull|(p & k & Hp & Hk & Hptr & _)];
      [rewrite Hnull in Hn; now cbn [fst] in Hn|].
    exists p. split; [assumption|]. rewrite Hptr, !page_data_addr_eq.
    change (page_base_addr p) with (page_header_addr p).
    rewrite page_header_addr_eq. consts.
    assert (0 <= k * slot_size_of t <= (segments_of t - 1) * slot_size_of t) by nia.
    lia. }
  unfold custom_malloc in *. consts.
  destruct (Z.eqb_spec size 0); [now cbn [fst] in Hnn|].
  destruct (Z.leb_spec size 15).
  - rewrite alloc_small_eq in *.
    apply Hclass; try assumption; [discriminate|simpl; consts; lia..].
  - destruct (Z.leb_spec size 180); [|now cbn [fst] in Hnn].
    rewrite alloc_big_eq in *.
    apply Hclass; try assumption; [discriminate|simpl; consts; lia..].
Qed.

(** ** First fit *)

(** [custom_malloc] prefers a page of the class that is already open.
    When [p] is the lowest page of the class with fewer slots in use than
    the class has, the call takes the lowest clear slot [k] of [p]: it
    returns the address of that slot and the state with bit [k] of the
    page set and its [used_segments] one higher.  When no page of the
    class has a slot left and [p] is the lowest free page, the call opens
    [p] for the class and returns its slot 0. *)
Theorem custom_malloc_first_fit (heap_base : Z) (size_bits : nat)
    (st : state) (size p : Z) (t : page_type_t) :
  reachable heap_base size_bits st ->
  (1 <= size <= 15 /\ t = PAGE_SMALL) \/ (16 <= size <= 180 /\ t = PAGE_BIG) ->
  0 <= p < PAGE_COUNT ->
  (type (entry st p) = t ->
   used_segments (entry st p) < segments_of t ->
   (forall q, 0 <= q < p ->
      ~ (type (entry st q) = t
         /\ used_segments (entry st q) < segments_of t)) ->
   exists k,
     0 <= k < segments_of t
     /\ bitmap_is_set (heap st) (page_header_addr p) k = false
     /\ (forall j, 0 <= j < k ->
           bitmap_is_set (heap st) (page_header_addr p) j = true)
     /\ custom_malloc heap_base st size
        = (heap_base + (page_data_addr p + k * slot_size_of t),
           take_slot st p k)
     /\ bitmap_is_set (heap (take_slot st p k)) (page_header_addr p) k = true
     /\ entry (take_slot st p k) p
        = mk_h_page (used_segments (entry st p) + 1) t)
  /\ (type (entry st p) = PAGE_FREE ->
      (forall q, 0 <= q < PAGE_COUNT ->
         ~ (type (entry st q) = t
            /\ used_segments (entry st q) < segments_of t)) ->
      (forall q, 0 <= q < p -> type (entry st q) <> PAGE_FREE) ->
      custom_malloc heap_base st size
      = (heap_base + page_data_addr p, open_page st p t)
      /\ bitmap_is_set (heap (open_page st p t)) (page_header_addr p) 0 = true
      /\ entry (open_page st p t) p = mk_h_page 1 t).
Proof.
  intros Hreach Hsz Hp.
  apply reachable_consistent in Hreach as Hc. pose proof Hc as [Hw Hpages].
  pose proof (segments_of_range t) as Hseg.
  assert (Hne : t <> PAGE_FREE) by (destruct Hsz as [[_ ->]|[_ ->]]; discriminate).
  assert (Hm : custom_malloc heap_base st size = alloc_class heap_base t st).
  { destruct Hsz as [[Hs ->]|[Hs ->]];
      [apply custom_malloc_small|apply custom_malloc_big]; consts; lia. }
  assert (Hno : forall q, 0 <= q < PAGE_COUNT ->
            ~ (type (entry st q) = t
               /\ used_segments (entry st q) < segments_of t) ->
            has_room st t q = false).
  { intros q Hq Hn. destruct (has_room st t q) eqn:Hr; [|reflexivity].
    exfalso. apply Hn. now apply (has_room_iff st t q Hc Hne Hq). }
  split.
  - intros Ht Hu Hlow.
    assert (Hr : has_room st t p = true)
      by (apply (has_room_iff st t p Hc Hne Hp); now split).
    pose proof (has_room_slot _ _ _ Hr) as (_ & _ & Hi & Hclr).
    set (k := find_free_block (heap st) (page_header_addr p) (segments_of t)) in *.
    exists k. split; [assumption|]. split; [assumption|]. split.
    { intros j Hj.
      destruct (find_free_block_spec (heap st) (page_header_addr p) (segments_of t))
        as [[He _]|(_ & _ & Hall)]; [consts; lia|fold k in He; consts; lia|].
      now apply Hall. }
    split.
    { rewrite Hm. apply alloc_class_take; [assumption|assumption|].
      intros q Hq. apply Hno; [lia|]. apply Hlow. lia. }
    split; [apply take_slot_bit; auto; lia|].
    rewrite entry_take_slot, Z.eqb_refl, Ht by (assumption || lia).
    f_equal. apply u16_small.
    specialize (Hpages p Hp).
    apply (page_consistent_typed st p t Ht Hne) in Hpages.
    pose proof (popcount_bounds (heap st) (page_header_addr p) (segments_of t)
                  ltac:(lia)).
    lia.
  - intros Hf Hnone Hlow. split.
    { rewrite Hm. apply alloc_class_open; try assumption.
      intros q Hq. now apply Hno, Hnone. }
    split.
    + rewrite heap_open_page, page_bit_set by (apply Hw || lia).
      now rewrite !Z.eqb_refl.
    + rewrite entry_open_page, Z.eqb_refl by (assumption || lia). reflexivity.
Qed.

(** ** What [alloc_init] does to the heap *)

Lemma load_alloc_init_from (r : nat) : forall (st : state) (i a : Z),
  well_sized st -> 0 <= i -> i + Z.of_nat r <= PAGE_COUNT -> 0 <= a ->
  load (heap (alloc_init_from st r i)) a
  = if (1024 * i <=? a) && (a <? 1024 * (i + Z.of_nat r)) && (a mod 1024 <? 16)
    then 0 else load (heap st) a.
Proof.
  induction r as [|r IH]; intros st i a Hw Hi Hr Ha; cbn [alloc_init_from].
  - destruct (Z.leb_spec (1024 * i) a), (Z.ltb_spec a (1024 * (i + Z.of_nat 0)));
      cbn [andb]; try reflexivity; lia.
  - rewrite IH by (try apply well_sized_page_set_free; assumption || lia).
    rewrite load_page_set_free by (assumption || lia).
    rewrite page_header_addr_eq. consts.
    destruct (Z.leb_spec (1024 * (i + 1)) a),
      (Z.ltb_spec a (1024 * (i + 1 + Z.of_nat r))),
      (Z.ltb_spec (a mod 1024) 16),
      (Z.leb_spec (1024 * i) a),
      (Z.ltb_spec a (1024 * (i + Z.of_nat (S r)))),
      (Z.ltb_spec a (1024 * i + 16));
      cbn [andb]; try reflexivity; exfalso; Z.div_mod_to_equations; lia.
Qed.

(** [alloc_init] makes every page free whatever the heap and the page
    table held before: each entry is [{0, PAGE_FREE}], the sixteen header
    bytes of each page are zero, and every other byte of the heap is
    left as it was. *)
Theorem alloc_init_resets (st0 : state) :
  well_sized st0 ->
  (forall p, 0 <= p < PAGE_COUNT ->
     entry (alloc_init st0) p = mk_h_page 0 PAGE_FREE)
  /\ (forall a, 0 <= a < HEAP_SIZE ->
        load (heap (alloc_init st0)) a
        = if a mod PAGE_SIZE <? PAGE_HEADER_SIZE then 0 else load (heap st0) a).
Proof.
  intros Hw. split.
  - intros p Hp. now destruct (alloc_init_spec st0 Hw) as [_ H]; destruct (H p Hp).
  - intros a Ha. unfold alloc_init.
    assert (Hn : Z.of_nat (Z.to_nat PAGE_COUNT) = PAGE_COUNT) by (consts; lia).
    generalize dependent (Z.to_nat PAGE_COUNT). intros n Hn.
    rewrite load_alloc_init_from by (assumption || lia).
    rewrite Hn. consts.
    destruct (Z.leb_spec (1024 * 0) a), (Z.ltb_spec a (1024 * (0 + 64)));
      cbn [andb]; try reflexivity; lia.
Qed.

(** Calling [alloc_init] again on a state it has produced changes
    nothing. *)
Theorem alloc_init_idempotent (st0 : state) :
  well_sized st0 -> alloc_init (alloc_init st0) = alloc_init st0.
Proof.
  intros Hw. destruct (alloc_init_spec st0 Hw) as [Hw1 H1].
  destruct (alloc_init_spec (alloc_init st0) Hw1) as [Hw2 H2].
  assert (Hn : Z.of_nat (Z.to_nat PAGE_COUNT) = PAGE_COUNT) by (consts; lia).
  assert (Hload : forall st, well_sized st -> forall a, 0 <= a < HEAP_SIZE ->
            load (heap (alloc_init st)) a
            = if a mod 1024 <? 16 then 0 else load (heap st) a).
  { intros st Hst a Ha. unfold alloc_init.
    generalize dependent (Z.to_nat PAGE_COUNT). intros n Hn.
    rewrite load_alloc_init_from by (assumption || lia).
    rewrite Hn. consts.
    destruct (Z.leb_spec (1024 * 0) a), (Z.ltb_spec a (1024 * (0 + 64)));
      cbn [andb]; try reflexivity; lia. }
  pose proof (Hload st0 Hw) as L1. pose proof (Hload (alloc_init st0) Hw1) as L2.
  generalize dependent (alloc_init (alloc_init st0)). intros st2 Hw2 H2 L2.
  generalize dependent (alloc_init st0). intros st1 Hw1 H1 L1 L2.
  apply state_ext; [assumption|assumption| |].
  - intros a Ha. rewrite L2, L1 by assumption.
    now destruct (a mod 1024 <? 16).
  - intros q Hq. destruct (H1 q Hq) as [-> _]. now destruct (H2 q Hq) as [-> _].
Qed.
(** ** The theorems at work on the heap of example.c *)

Lemma reachable_init_zero : reachable 4096 64 (alloc_init zero_state).
Proof. apply reach_init, well_sized_zero_state. Defined.

Lemma payload_untouched_witness :
  reachable 4096 64 (alloc_init zero_state)
  /\ 0 <= 16 < HEAP_SIZE /\ PAGE_HEADER_SIZE <= 16 mod PAGE_SIZE
  /\ (forall size,
        load (heap (snd (custom_malloc 4096 (alloc_init zero_state) size))) 16
        = load (heap (alloc_init zero_state)) 16)
  /\ (forall ptr,
        load (heap (custom_free 4096 64 (alloc_init zero_state) ptr)) 16
        = load (heap (alloc_init zero_state)) 16).
Proof.
  assert (Ha : 0 <= 16 < HEAP_SIZE) by (consts; lia).
  assert (Hm : PAGE_HEADER_SIZE <= 16 mod PAGE_SIZE) by (vm_compute; discriminate).
  split; [exact reachable_init_zero|]. split; [exact Ha|]. split; [exact Hm|].
  exact (payload_untouched 4096 64 _ 16 reachable_init_zero Ha Hm).
Defined.

Lemma custom_malloc_null_keeps_state_witness :
  0 < 4096
  /\ fst (custom_malloc 4096 zero_state 181) = NULL
  /\ snd (custom_malloc 4096 zero_state 181) = zero_state.
Proof.
  assert (Hb : 0 < 4096) by lia.
  assert (Hn : fst (custom_malloc 4096 zero_state 181) = NULL) by reflexivity.
  split; [exact Hb|]. split; [exact Hn|].
  exact (custom_malloc_null_keeps_state 4096 zero_state 181 Hb Hn).
Defined.

Lemma used_segments_bounds_witness :
  reachable 4096 64 (alloc_init zero_state) /\ 0 <= 0 < PAGE_COUNT
  /\ (type (entry (alloc_init zero_state) 0) = PAGE_FREE
      <-> used_segments (entry (alloc_init zero_state) 0) = 0)
  /\ 0 <= used_segments (entry (alloc_init zero_state) 0)
       <= segments_of (type (entry (alloc_init zero_state) 0)).
Proof.
  assert (Hp : 0 <= 0 < PAGE_COUNT) by (consts; lia).
  split; [exact reachable_init_zero|]. split; [exact Hp|].
  exact (used_segments_bounds 4096 64 _ 0 reachable_init_zero Hp).
Defined.

Lemma malloc_free_round_trip_witness :
  reachable 4096 64 (alloc_init zero_state)
  /\ 0 < 4096 /\ HEAP_SIZE < 2 ^ Z.of_nat 64
  /\ custom_free 4096 64
       (snd (custom_malloc 4096 (alloc_init zero_state) 100))
       (fst (custom_malloc 4096 (alloc_init zero_state) 100))
     = alloc_init zero_state.
Proof.
  assert (Hb : 0 < 4096) by lia.
  split; [exact reachable_init_zero|]. split; [exact Hb|].
  split; [exact size_t_64_holds_heap|].
  exact (malloc_free_round_trip 4096 64 _ 100 reachable_init_zero Hb
           size_t_64_holds_heap).
Defined.

Lemma big_capacity_witness :
  0 < 4096 /\ well_sized zero_state
  /\ Forall (fun size => 16 <= size <= 180) (replicate 321 180)
  /\ forall (i : nat) (a : Z),
       malloc_seq 4096 (alloc_init zero_state) (replicate 321 180) !! i = Some a ->
       (Z.of_nat i < 320 -> a <> NULL) /\ (320 <= Z.of_nat i -> a = NULL).
Proof.
  assert (Hb : 0 < 4096) by lia.
  assert (Hf : Forall (fun size => 16 <= size <= 180) (replicate 321 180))
    by (apply Forall_replicate; lia).
  split; [exact Hb|]. split; [exact well_sized_zero_state|]. split; [exact Hf|].
  exact (big_capacity 4096 zero_state _ Hb well_sized_zero_state Hf).
Defined.

Lemma custom_malloc_block_in_page_witness :
  reachable 4096 64 (alloc_init zero_state) /\ 0 <= 180
  /\ fst (custom_malloc 4096 (alloc_init zero_state) 180) <> NULL
  /\ exists p,
       0 <= p < PAGE_COUNT
       /\ 4096 + page_data_addr p
          <= fst (custom_malloc 4096 (alloc_init zero_state) 180)
       /\ fst (custom_malloc 4096 (alloc_init zero_state) 180) + 180
          <= 4096 + page_base_addr p + PAGE_SIZE.
Proof.
  assert (Hs : 0 <= 180) by lia.
  assert (Hn : fst (custom_malloc 4096 (alloc_init zero_state) 180) <> NULL)
    by (vm_compute; discriminate).
  split; [exact reachable_init_zero|]. split; [exact Hs|]. split; [exact Hn|].
  exact (custom_malloc_block_in_page 4096 64 _ 180 reachable_init_zero Hs Hn).
Defined.

Lemma custom_malloc_first_fit_witness :
  reachable 4096 64 (snd (custom_malloc 4096 (alloc_init zero_state) 7))
  /\ ((1 <= 7 <= 15 /\ PAGE_SMALL = PAGE_SMALL)
      \/ (16 <= 7 <= 180 /\ PAGE_SMALL = PAGE_BIG))
  /\ 0 <= 0 < PAGE_COUNT
  /\ type (entry (snd (custom_malloc 4096 (alloc_init zero_state) 7)) 0)
     = PAGE_SMALL
  /\ used_segments (entry (snd (custom_malloc 4096 (alloc_init zero_state) 7)) 0)
     < segments_of PAGE_SMALL
  /\ exists k,
       0 <= k < segments_of PAGE_SMALL
       /\ bitmap_is_set
            (heap (snd (custom_malloc 4096 (alloc_init zero_state) 7)))
            (page_header_addr 0) k = false
       /\ (forall j, 0 <= j < k ->
             bitmap_is_set
               (heap (snd (custom_malloc 4096 (alloc_init zero_state) 7)))
               (page_header_addr 0) j = true)
       /\ custom_malloc 4096
            (snd (custom_malloc 4096 (alloc_init zero_state) 7)) 7
          = (4096 + (page_data_addr 0 + k * slot_size_of PAGE_SMALL),
             take_slot (snd (custom_malloc 4096 (alloc_init zero_state) 7)) 0 k)
       /\ bitmap_is_set
            (heap (take_slot
                     (snd (custom_malloc 4096 (alloc_init zero_state) 7)) 0 k))
            (page_header_addr 0) k = true
       /\ entry (take_slot
                   (snd (custom_malloc 4096 (alloc_init zero_state) 7)) 0 k) 0
          = mk_h_page
              (used_segments
                 (entry (snd (custom_malloc 4096 (alloc_init zero_state) 7)) 0) + 1)
              PAGE_SMALL.
Proof.
  assert (Hr : reachable 4096 64
                 (snd (custom_malloc 4096 (alloc_init zero_state) 7)))
    by (apply reach_malloc; exact reachable_init_zero).
  assert (Hsz : (1 <= 7 <= 15 /\ PAGE_SMALL = PAGE_SMALL)
                \/ (16 <= 7 <= 180 /\ PAGE_SMALL = PAGE_BIG))
    by (left; split; [lia|reflexivity]).
  assert (Hp : 0 <= 0 < PAGE_COUNT) by (consts; lia).
  assert (Ht : type (entry (snd (custom_malloc 4096 (alloc_init zero_state) 7)) 0)
               = PAGE_SMALL) by (vm_compute; reflexivity).
  assert (Hu : used_segments
                 (entry (snd (custom_malloc 4096 (alloc_init zero_state) 7)) 0)
               < segments_of PAGE_SMALL) by (vm_compute; reflexivity).
  assert (Hlow : forall q, 0 <= q < 0 ->
            ~ (type (entry (snd (custom_malloc 4096 (alloc_init zero_state) 7)) q)
               = PAGE_SMALL
               /\ used_segments
                    (entry (snd (custom_malloc 4096 (alloc_init zero_state) 7)) q)
                  < segments_of PAGE_SMALL)) by (intros q Hq; lia).
  split; [exact Hr|]. split; [exact Hsz|]. split; [exact Hp|].
  split; [exact Ht|]. split; [exact Hu|].
  exact (proj1 (custom_malloc_first_fit 4096 64 _ 7 0 PAGE_SMALL Hr Hsz Hp)
           Ht Hu Hlow).
Defined.

Lemma alloc_init_resets_witness :
  well_sized zero_state
  /\ forall p, 0 <= p < PAGE_COUNT ->
       entry (alloc_init zero_state) p = mk_h_page 0 PAGE_FREE.
Proof.
  split; [exact well_sized_zero_state|].
  exact (proj1 (alloc_init_resets zero_state well_sized_zero_state)).
Defined.

Lemma alloc_init_idempotent_witness :
  well_sized zero_state
  /\ alloc_init (alloc_init zero_state) = alloc_init zero_state.
Proof.
  split; [exact well_sized_zero_state|].
  exact (alloc_init_idempotent zero_state well_sized_zero_state).
Defined.

End AllocFacts.

(** * Facts about the EEPROM driver *)

Module EEPROMFacts.
Import Bus EEPROM.

Section Facts.
Context {D : Type} `{IDriver D}.

(** ** What each call adds to the bus *)

Lemma trace_select (c : chip D) : trace (drv_select c) = trace c ++ [CS_LOW].
Proof. unfold trace, ops. simpl. now rewrite map_app. Qed.

Lemma trace_deselect (c : chip D) : trace (drv_deselect c) = trace c ++ [CS_HIGH].
Proof. unfold trace, ops. simpl. now rewrite map_app. Qed.

Lemma trace_transfer (byte : Z) (c : chip D) :
  trace (snd (drv_transfer byte c)) = trace c ++ [OUT byte].
Proof. unfold trace, ops. simpl. now rewrite map_app. Qed.

Lemma trace_set_error (c : chip D) (e : error) : trace (set_error c e) = trace c.
Proof. reflexivity. Qed.

Lemma error_select (c : chip D) : _errorCode (drv_select c) = _errorCode c.
Proof. reflexivity. Qed.

Lemma error_deselect (c : chip D) : _errorCode (drv_deselect c) = _errorCode c.
Proof. reflexivity. Qed.

Lemma error_transfer (byte : Z) (c : chip D) :
  _errorCode (snd (drv_transfer byte c)) = _errorCode c.
Proof. reflexivity. Qed.

Lemma trace_readStatus (c : chip D) :
  trace (snd (readStatus c)) = trace c ++ status_frame.
Proof.
  unfold readStatus. cbn [snd].
  rewrite trace_deselect, !trace_transfer, trace_select.
  now rewrite <- !app_assoc.
Qed.

Lemma error_readStatus (c : chip D) :
  _errorCode (snd (readStatus c)) = _errorCode c.
Proof. reflexivity. Qed.

Lemma trace_wait (fuel : nat) : forall (c c' : chip D),
  wait fuel c = Some c' ->
  _errorCode c' = _errorCode c
  /\ exists polls : nat,
       (1 <= polls <= fuel)%nat
       /\ trace c' = trace c ++ concat (replicate polls status_frame).
Proof.
  induction fuel as [|fuel IH]; intros c c' Hw; cbn [wait] in Hw; [discriminate|].
  destruct (Z.land (fst (readStatus c)) WIP =? 0).
  - apply (inj Some) in Hw. subst c'.
    split; [reflexivity|]. exists 1%nat. split; [lia|].
    rewrite trace_readStatus. cbn [replicate concat]. now rewrite app_nil_r.
  - destruct (IH _ _ Hw) as (He & polls & Hp & Ht).
    split; [now rewrite He|]. exists (S polls). split; [lia|].
    rewrite Ht, trace_readStatus. cbn [replicate concat].
    now rewrite <- !app_assoc.
Qed.

Lemma wait_more_fuel (fuel : nat) : forall (fuel' : nat) (c c' : chip D),
  wait fuel c = Some c' -> (fuel <= fuel')%nat -> wait fuel' c = Some c'.
Proof.
  induction fuel as [|fuel IH]; intros fuel' c c' Hw Hle; cbn [wait] in Hw;
    [discriminate|].
  destruct fuel' as [|fuel']; [lia|]. cbn [wait].
  destruct (Z.land (fst (readStatus c)) WIP =? 0); [assumption|].
  apply IH; [assumption|lia].
Qed.

Lemma cmd_byte_cases (instr address : Z) :
  instr = READ \/ instr = WRITE ->
  (if Z.land (Z.shiftr address 8) 0x01 =? 0 then instr else u8 (Z.lor instr 0x08))
  = cmd_byte instr address.
Proof.
  intros Hi. unfold cmd_byte.
  assert (Hb : Z.land (Z.shiftr address 8) 1 = 0 \/ Z.land (Z.shiftr address 8) 1 = 1).
  { pose proof (Z.land_ones (Z.shiftr address 8) 1 ltac:(lia)) as Hl.
    change (Z.ones 1) with 1 in Hl. change (2 ^ 1) with 2 in Hl.
    pose proof (Z.mod_pos_bound (Z.shiftr address 8) 2). lia. }
  destruct Hb as [-> | ->]; destruct Hi as [-> | ->]; reflexivity.
Qed.

Lemma trace_buildAndSendInstruction (instr address : Z) (c : chip D) :
  instr = READ \/ instr = WRITE ->
  trace (buildAndSendInstruction instr address c)
  = trace c ++ [OUT (cmd_byte instr address)].
Proof.
  intros Hi. unfold buildAndSendInstruction. cbv zeta.
  now rewrite trace_transfer, cmd_byte_cases.
Qed.

Lemma error_buildAndSendInstruction (instr address : Z) (c : chip D) :
  _errorCode (buildAndSendInstruction instr address c) = _errorCode c.
Proof. reflexivity. Qed.

Lemma u8_land_255 (z : Z) : u8 (Z.land z 0xFF) = Z.land z 0xFF.
Proof.
  unfold u8. change 0xFF with (Z.ones 8). rewrite Z.land_ones by lia.
  change (2 ^ 8) with 256. apply Z.mod_mod. lia.
Qed.

Lemma trace_send_bytes (data : list Z) (offset : Z) (n : nat) :
  forall (j : Z) (c : chip D),
    0 <= offset -> 0 <= j -> j + Z.of_nat n < 65536 ->
    offset + j + Z.of_nat n <= Z.of_nat (length data) ->
    trace (send_bytes n j c data offset)
    = trace c ++ map OUT (slice data (offset + j) (Z.of_nat n))
    /\ _errorCode (send_bytes n j c data offset) = _errorCode c.
Proof.
  unfold slice.
  induction n as [|n IH]; intros j c Ho Hj Hn Hlen.
  - split; [|reflexivity]. cbn [send_bytes]. rewrite Nat2Z.id.
    cbn [take map]. now rewrite app_nil_r.
  - cbn [send_bytes].
    assert (Hu : u16 (j + 1) = j + 1) by (unfold u16; apply Z.mod_small; lia).
    rewrite Hu.
    destruct (IH (j + 1) (snd (drv_transfer (data !!! Z.to_nat (offset + j)) c)))
      as [Ht He]; [lia|lia|lia|lia|].
    rewrite Ht, He, trace_transfer. split; [|reflexivity].
    rewrite <- app_assoc. f_equal. rewrite !Nat2Z.id.
    destruct (lookup_lt_is_Some_2 data (Z.to_nat (offset + j))) as [x Hx]; [lia|].
    rewrite (drop_S _ _ _ Hx), (list_lookup_total_correct _ _ _ Hx).
    replace (Z.to_nat (offset + (j + 1))) with (S (Z.to_nat (offset + j))) by lia.
    reflexivity.
Qed.

Lemma trace_wren (c : chip D) :
  trace (drv_deselect (snd (drv_transfer WREN (drv_select c))))
  = trace c ++ frame [WREN].
Proof.
  rewrite trace_deselect, trace_transfer, trace_select.
  now rewrite <- !app_assoc.
Qed.

Lemma trace_wel_check (c : chip D) :
  trace (snd (readStatus (drv_deselect (snd (drv_transfer WREN (drv_select c))))))
  = trace c ++ wel_check.
Proof.
  rewrite trace_readStatus, trace_wren. unfold wel_check.
  now rewrite <- !app_assoc.
Qed.

(** The WRITE frame of one chunk. *)
Lemma trace_write_frame (c : chip D) (address offset chunk : Z) (data : list Z) :
  0 <= offset -> 0 <= chunk < 65536 ->
  offset + chunk <= Z.of_nat (length data) ->
  trace (drv_deselect
           (send_bytes (Z.to_nat chunk) 0
              (snd (drv_transfer (u8 (Z.land address 0xFF))
                      (buildAndSendInstruction WRITE address (drv_select c))))
              data offset))
  = trace c
    ++ frame (cmd_byte WRITE address :: Z.land address 0xFF :: slice data offset chunk)
  /\ _errorCode
       (drv_deselect
          (send_bytes (Z.to_nat chunk) 0
             (snd (drv_transfer (u8 (Z.land address 0xFF))
                     (buildAndSendInstruction WRITE address (drv_select c))))
             data offset))
     = _errorCode c.
Proof.
  intros Ho Hc Hlen.
  set (c4 := snd (drv_transfer (u8 (Z.land address 0xFF))
                    (buildAndSendInstruction WRITE address (drv_select c)))).
  destruct (trace_send_bytes data offset (Z.to_nat chunk) 0 c4) as [Ht He];
    [lia|lia|lia|lia|].
  rewrite trace_deselect, error_deselect, Ht, He.
  split; [|reflexivity].
  unfold c4. rewrite trace_transfer, trace_buildAndSendInstruction, trace_select
    by now right.
  rewrite u8_land_255, Z.add_0_r, Z2Nat.id by lia.
  unfold frame. cbn [map]. rewrite <- !app_assoc. reflexivity.
Qed.

(** ** The rounds of [writeArray] *)

Lemma chunk_bounds (address length : Z) :
  0 < length ->
  Z.min (u16 (PAGE_SIZE - address mod PAGE_SIZE)) length
  = Z.min (16 - address mod 16) length
  /\ 1 <= Z.min (16 - address mod 16) length <= 16
  /\ Z.min (16 - address mod 16) length <= length.
Proof.
  intros Hl. unfold PAGE_SIZE.
  pose proof (Z.mod_pos_bound address 16 ltac:(lia)).
  unfold u16. rewrite Z.mod_small by lia. lia.
Qed.

Lemma writeArray_loop_run (fuel : nat) (a0 : Z) (data : list Z) (rounds : nat) :
  forall (c c' : chip D) (address length : Z),
    0 <= a0 <= address -> address + length <= 512 ->
    0 <= length <= Z.of_nat rounds ->
    address - a0 + length <= Z.of_nat (List.length data) ->
    writeArray_loop fuel rounds c address (address - a0) length data = Some c' ->
    exists (k : nat) (polls : list nat),
      (k <= List.length (chunks rounds address length))%nat
      /\ List.length polls = k
      /\ Forall (fun m => (1 <= m <= fuel)%nat) polls
      /\ trace c'
         = trace c
           ++ rounds_ops a0 data (take k (chunks rounds address length)) polls
           ++ (if (k <? List.length (chunks rounds address length))%nat
               then wel_check else [])
      /\ _errorCode c'
         = if (k <? List.length (chunks rounds address length))%nat
           then WRITE_NOT_ENABLED else OK.
Proof.
  induction rounds as [|rounds IH]; intros c c' address length Ha Hr Hl Hd Hrun.
  - destruct (Z.gtb_spec length 0) as [Hpos|Hzero]; [lia|].
    cbn [writeArray_loop] in Hrun.
    destruct (Z.gtb_spec length 0); [lia|].
    apply (inj Some) in Hrun. subst c'.
    exists 0%nat, []. cbn [chunks List.length take rounds_ops Nat.ltb Nat.leb app].
    repeat split; auto. now rewrite app_nil_r.
  - cbn [writeArray_loop] in Hrun. cbn [chunks].
    destruct (Z.gtb_spec length 0) as [Hpos|Hzero].
    2: { apply (inj Some) in Hrun. subst c'.
         exists 0%nat, []. cbn [List.length take rounds_ops Nat.ltb Nat.leb app].
         repeat split; auto. now rewrite app_nil_r. }
    destruct (chunk_bounds address length Hpos) as (Hchunk & Hc1 & Hc2).
    cbv zeta in Hrun. rewrite Hchunk in Hrun. cbv zeta.
    set (chunk := Z.min (16 - address mod 16) length) in *.
    set (rest := chunks rounds (address + chunk) (length - chunk)).
    destruct (Z.land (fst (readStatus (drv_deselect
                (snd (drv_transfer WREN (drv_select c)))))) WEL =? 0).
    + apply (inj Some) in Hrun. subst c'.
      exists 0%nat, []. cbn [List.length take rounds_ops Nat.ltb Nat.leb app].
      repeat split; auto; try lia.
      rewrite trace_set_error. apply trace_wel_check.
    + destruct (trace_write_frame
                  (snd (readStatus (drv_deselect
                     (snd (drv_transfer WREN (drv_select c))))))
                  address (address - a0) chunk data) as [Htw Hew]; [lia|lia|lia|].
      destruct (wait fuel _) as [c7|] eqn:Hwait; [|discriminate].
      destruct (trace_wait _ _ _ Hwait) as (He7 & m & Hm & Ht7).
      assert (Hu1 : u16 (address + chunk) = address + chunk)
        by (unfold u16; apply Z.mod_small; lia).
      assert (Hu2 : u16 (address - a0 + chunk) = address + chunk - a0)
        by (unfold u16; rewrite Z.mod_small by lia; lia).
      assert (Hu3 : u16 (length - chunk) = length - chunk)
        by (unfold u16; apply Z.mod_small; lia).
      rewrite Hu1, Hu2, Hu3 in Hrun.
      destruct (IH c7 c' (address + chunk) (length - chunk))
        as (k & polls & Hk & Hlen & Hall & Ht & He); [lia|lia|lia|lia|assumption|].
      fold rest in Hk, Ht, He.
      exists (S k), (m :: polls).
      cbn [List.length take rounds_ops].
      change (S k <? S (List.length rest))%nat with (k <? List.length rest)%nat.
      split; [lia|]. split; [now rewrite Hlen|]. split; [now constructor|].
      split; [|assumption].
      rewrite Ht, Ht7, Htw, trace_wel_check. unfold chunk_round.
      now rewrite <- !app_assoc.
Qed.

Lemma writeArray_loop_more_fuel (fuel fuel' : nat) (data : list Z) (rounds : nat) :
  (fuel <= fuel')%nat ->
  forall (c c' : chip D) (address offset length : Z),
    writeArray_loop fuel rounds c address offset length data = Some c' ->
    writeArray_loop fuel' rounds c address offset length data = Some c'.
Proof.
  intros Hle. induction rounds as [|rounds IH]; intros c c' address offset length Hrun;
    cbn [writeArray_loop] in *; destruct (length >? 0); try assumption.
  cbv zeta in *.
  destruct (Z.land _ WEL =? 0); [assumption|].
  destruct (wait fuel _) as [c7|] eqn:Hwait; [|discriminate].
  rewrite (wait_more_fuel _ _ _ _ Hwait Hle). now apply IH.
Qed.

Lemma status_always_ready (c : chip D) :
  always_ready D ->
  Z.land (fst (readStatus c)) WEL <> 0 /\ Z.land (fst (readStatus c)) WIP = 0.
Proof. intros Hr. unfold readStatus. cbn [fst]. apply Hr. Qed.

Lemma wait_always_ready (fuel : nat) (c : chip D) :
  always_ready D -> wait (S fuel) c = Some (snd (readStatus c)).
Proof.
  intros Hr. cbn [wait].
  destruct (status_always_ready c Hr) as [_ ->]. reflexivity.
Qed.

Lemma writeArray_loop_always_ready (fuel : nat) (data : list Z) (rounds : nat) :
  always_ready D -> (0 < fuel)%nat ->
  forall (c : chip D) (address offset length : Z),
    0 <= length <= Z.of_nat rounds -> length < 65536 ->
    exists c', writeArray_loop fuel rounds c address offset length data = Some c'
               /\ _errorCode c' = OK.
Proof.
  intros Hr Hf. destruct fuel as [|fuel]; [lia|].
  induction rounds as [|rounds IH]; intros c address offset length Hl Hlt;
    cbn [writeArray_loop]; destruct (Z.gtb_spec length 0) as [Hpos|Hzero];
    try lia; try (eexists; split; reflexivity).
  cbv zeta.
  destruct (status_always_ready
              (drv_deselect (snd (drv_transfer WREN (drv_select c)))) Hr) as [Hwel _].
  destruct (Z.eqb_spec (Z.land (fst (readStatus
              (drv_deselect (snd (drv_transfer WREN (drv_select c)))))) WEL) 0);
    [contradiction|].
  rewrite wait_always_ready by assumption.
  destruct (chunk_bounds address length Hpos) as (Hchunk & Hc1 & Hc2).
  rewrite Hchunk. apply IH.
  - unfold u16. rewrite Z.mod_small by lia. lia.
  - unfold u16. rewrite Z.mod_small by lia. lia.
Qed.

(** ** The chunks, as the specification words them *)

Lemma chunks_head (rounds : nat) (address length : Z) :
  0 < length -> (0 < rounds)%nat ->
  exists rest,
    chunks rounds address length
    = (address, Z.min (16 - address mod 16) length) :: rest.
Proof.
  intros Hl Hr. destruct rounds as [|rounds]; [lia|]. cbn [chunks].
  destruct (Z.gtb_spec length 0); [|lia]. eexists. reflexivity.
Qed.

(** A chunk stays inside its 16-byte page, and the chunk after it starts
    at the next page boundary. *)
Lemma chunks_pages (rounds : nat) : forall (address length : Z),
  Forall (fun ch => 1 <= snd ch /\ fst ch mod 16 + snd ch <= 16)
    (chunks rounds address length)
  /\ forall (i : nat) (ch ch' : Z * Z),
       chunks rounds address length !! i = Some ch ->
       chunks rounds address length !! S i = Some ch' ->
       fst ch' = fst ch + snd ch /\ fst ch' = 16 * (fst ch / 16 + 1).
Proof.
  induction rounds as [|rounds IH]; intros address length; cbn [chunks].
  - split; [constructor|]. intros i ch ch' Hi. discriminate.
  - destruct (Z.gtb_spec length 0) as [Hpos|Hzero].
    2: { split; [constructor|]. intros i ch ch' Hi. discriminate. }
    cbv zeta. pose proof (Z.mod_pos_bound address 16 ltac:(lia)) as Hm.
    destruct (IH (address + Z.min (16 - address mod 16) length)
                (length - Z.min (16 - address mod 16) length)) as [Hall Hnext].
    split.
    + constructor; [cbn [fst snd]; lia|assumption].
    + intros [|i] ch ch' Hi Hi'; [|now apply (Hnext i)].
      cbn in Hi. apply (inj Some) in Hi. subst ch. cbn [fst snd].
      change (((address, Z.min (16 - address mod 16) length)
                 :: chunks rounds (address + Z.min (16 - address mod 16) length)
                      (length - Z.min (16 - address mod 16) length)) !! 1%nat)
        with (chunks rounds (address + Z.min (16 - address mod 16) length)
                (length - Z.min (16 - address mod 16) length) !! 0%nat) in Hi'.
      destruct rounds as [|rounds]; [discriminate|]. cbn [chunks] in Hi'.
      destruct (Z.gtb_spec (length - Z.min (16 - address mod 16) length) 0);
        [|discriminate].
      cbn in Hi'. apply (inj Some) in Hi'. subst ch'. cbn [fst].
      split; [reflexivity|]. Z.div_mod_to_equations. lia.
Qed.

Lemma writeArray_in_range (fuel : nat) (c : chip D) (address length : Z)
    (data : list Z) :
  0 < length -> address + length - 1 <= MAX_ADDR ->
  writeArray fuel c address length (Some data)
  = writeArray_loop fuel (Z.to_nat length) c address 0 length data.
Proof.
  intros Hl Hr. unfold writeArray.
  destruct (Z.eqb_spec length 0); [lia|].
  destruct (Z.gtb_spec (address + length - 1) MAX_ADDR); [lia|reflexivity].
Qed.

(** Every run of an in-range [writeArray] that returns: [k] complete
    rounds, then either the end with [OK] or a failed WEL check with
    [WRITE_NOT_ENABLED]. *)
Lemma writeArray_run (fuel : nat) (c c' : chip D) (address length : Z)
    (data : list Z) :
  0 <= address -> 0 < length -> address + length - 1 <= MAX_ADDR ->
  length <= Z.of_nat (List.length data) ->
  writeArray fuel c address length (Some data) = Some c' ->
  exists (k : nat) (polls : list nat),
    (k <= List.length (chunks (Z.to_nat length) address length))%nat
    /\ List.length polls = k
    /\ Forall (fun m => (1 <= m <= fuel)%nat) polls
    /\ trace c'
       = trace c
         ++ rounds_ops address data
              (take k (chunks (Z.to_nat length) address length)) polls
         ++ (if (k <? List.length (chunks (Z.to_nat length) address length))%nat
             then wel_check else [])
    /\ _errorCode c'
       = if (k <? List.length (chunks (Z.to_nat length) address length))%nat
         then WRITE_NOT_ENABLED else OK.
Proof.
  intros Ha Hl Hr Hd Hrun. rewrite writeArray_in_range in Hrun by assumption.
  unfold MAX_ADDR in Hr.
  apply (writeArray_loop_run fuel address data (Z.to_nat length) c c' address length);
    try lia.
  now rewrite Z.sub_diag.
Qed.

End Facts.

Lemma out_of_range_refused_example (address length : Z) :
  0 <= address < 65536 -> 0 < length < 65536 ->
  MAX_ADDR < address + length - 1 ->
  readArray example_chip address length (Some (replicate 16 0))
  = (Some (replicate 16 0), set_error example_chip ADDRESS_OUT_OF_RANGE)
  /\ writeArray 1 example_chip address length (Some (replicate 16 0))
     = Some (set_error example_chip ADDRESS_OUT_OF_RANGE).
Proof.
  intros Ha Hl Hr. unfold readArray, writeArray.
  destruct (Z.eqb_spec length 0); [lia|].
  destruct (Z.gtb_spec (address + length - 1) MAX_ADDR); [|lia].
  auto.
Qed.

(** C3: an in-range [writeArray] with a buffer and [length > 0] goes out
    chunk by chunk.  The first chunk is [min(16 - address % 16, length)]
    bytes at [address]; every chunk stays inside its 16-byte page and the
    next one starts at the following page boundary; a run that ends with
    [OK] has put on the bus, for each chunk in turn, a WREN frame, the
    status read of the WEL check, one WRITE frame with the chunk's bytes
    and at least one status read polling WIP, and nothing else; on a
    device that always shows WEL set and WIP clear the run does end with
    [OK].  For [writeArray(0x000E, 4, [1,2,3,4])] these are exactly two
    WRITE frames, [1,2] at 0x000E and [3,4] at 0x0010. *)
Theorem writeArray_page_chunks (D : Type) `{IDriver D} (fuel : nat)
    (c : chip D) (address length : Z) (data : list Z) :
  0 <= address -> 0 < length -> address + length - 1 <= MAX_ADDR ->
  length <= Z.of_nat (List.length data) ->
  (exists rest,
     chunks (Z.to_nat length) address length
     = (address, Z.min (16 - address mod 16) length) :: rest)
  /\ Forall (fun ch => 1 <= snd ch /\ fst ch mod 16 + snd ch <= 16)
       (chunks (Z.to_nat length) address length)
  /\ (forall (i : nat) (ch ch' : Z * Z),
        chunks (Z.to_nat length) address length !! i = Some ch ->
        chunks (Z.to_nat length) address length !! S i = Some ch' ->
        fst ch' = fst ch + snd ch /\ fst ch' = 16 * (fst ch / 16 + 1))
  /\ (forall c',
        writeArray fuel c address length (Some data) = Some c' ->
        checkError c' = OK ->
        exists polls : list nat,
          List.length polls = List.length (chunks (Z.to_nat length) address length)
          /\ Forall (fun m => (1 <= m <= fuel)%nat) polls
          /\ trace c'
             = trace c
               ++ rounds_ops address data
                    (chunks (Z.to_nat length) address length) polls)
  /\ (always_ready D -> (0 < fuel)%nat ->
      exists c', writeArray fuel c address length (Some data) = Some c'
                 /\ checkError c' = OK)
  /\ (forall c1 c1' : chip D,
        writeArray fuel c1 0x000E 4 (Some [1; 2; 3; 4]) = Some c1' ->
        checkError c1' = OK ->
        exists p0 p1 : nat,
          trace c1'
          = trace c1 ++ chunk_round 0x000E [1; 2] p0
                     ++ chunk_round 0x0010 [3; 4] p1).
Proof.
  intros Ha Hl Hr Hd.
  split; [apply chunks_head; lia|].
  split; [apply chunks_pages|].
  split; [apply chunks_pages|].
  split; [|split].
  - intros c' Hrun Hok.
    destruct (writeArray_run fuel c c' address length data Ha Hl Hr Hd Hrun)
      as (k & polls & Hk & Hlen & Hall & Ht & He).
    unfold checkError in Hok. rewrite Hok in He.
    destruct (Nat.ltb_spec k (List.length (chunks (Z.to_nat length) address length)));
      [discriminate|].
    exists polls. split; [lia|]. split; [assumption|].
    rewrite Ht, firstn_all2 by lia. now rewrite app_nil_r.
  - intros Hready Hf. rewrite writeArray_in_range by assumption.
    unfold MAX_ADDR in Hr.
    apply writeArray_loop_always_ready; try assumption; lia.
  - intros c1 c1' Hrun Hok.
    destruct (writeArray_run fuel c1 c1' 0x000E 4 [1; 2; 3; 4]) as
      (k & polls & Hk & Hlen & Hall & Ht & He);
      [lia|lia|unfold MAX_ADDR; lia|simpl; lia|assumption|].
    unfold checkError in Hok. rewrite Hok in He.
    change (chunks (Z.to_nat 4) 14 4) with [(14, 2); (16, 2)] in *.
    cbn [List.length] in *.
    destruct (Nat.ltb_spec k 2); [discriminate|].
    assert (k = 2%nat) by lia. subst k.
    destruct polls as [|p0 [|p1 [|? ?]]]; try discriminate.
    exists p0, p1. rewrite Ht. cbn [List.length take rounds_ops].
    change (slice [1; 2; 3; 4] (14 - 14) 2) with [1; 2].
    change (slice [1; 2; 3; 4] (16 - 14) 2) with [3; 4].
    now rewrite !app_nil_r.
Qed.

(** ** A device that plays a script *)

Lemma drop_nth (m : nat) : forall l : list Z,
  (drop m l = [] /\ nth m l 0 = 0 /\ drop (S m) l = [])
  \/ drop m l = nth m l 0 :: drop (S m) l.
Proof.
  induction m as [|m IH]; intros [|x l].
  - left. repeat split.
  - right. reflexivity.
  - left. repeat split.
  - exact (IH l).
Qed.

Section Script.
Variable replies : list Z.

Lemma script_transfer (m : nat) (byte : Z) (c : chip (list Z)) :
  device (_driver c) = drop m replies ->
  fst (drv_transfer byte c) = u8 (nth m replies 0)
  /\ device (_driver (snd (drv_transfer byte c))) = drop (S m) replies.
Proof.
  intros Hd. unfold drv_transfer, bus_transfer. cbn. rewrite Hd.
  destruct (drop_nth m replies) as [(-> & -> & ->)| ->]; split; reflexivity.
Qed.

Lemma script_readStatus (m : nat) (c : chip (list Z)) :
  device (_driver c) = drop m replies ->
  fst (readStatus c) = u8 (nth (S m) replies 0)
  /\ device (_driver (snd (readStatus c))) = drop (S (S m)) replies.
Proof.
  intros Hd. unfold readStatus. cbv zeta.
  assert (Hd0 : device (_driver (drv_select c)) = drop m replies) by exact Hd.
  destruct (script_transfer m RDSR (drv_select c) Hd0) as [_ H1].
  destruct (script_transfer (S m) 0xFF _ H1) as [H2 H3].
  cbn [fst snd]. split; [exact H2|exact H3].
Qed.

Lemma script_wel_check (m : nat) (c : chip (list Z)) :
  device (_driver c) = drop m replies ->
  fst (readStatus (drv_deselect (snd (drv_transfer WREN (drv_select c)))))
  = u8 (nth (m + 2) replies 0)
  /\ device (_driver (snd (readStatus
               (drv_deselect (snd (drv_transfer WREN (drv_select c)))))))
     = drop (m + 3) replies.
Proof.
  intros Hd.
  assert (Hd0 : device (_driver (drv_select c)) = drop m replies) by exact Hd.
  destruct (script_transfer m WREN (drv_select c) Hd0) as [_ H1].
  assert (H1' : device (_driver (drv_deselect (snd (drv_transfer WREN (drv_select c)))))
                = drop (S m) replies) by exact H1.
  destruct (script_readStatus (S m)
              (drv_deselect (snd (drv_transfer WREN (drv_select c)))) H1')
    as [H2 H3].
  replace (m + 2)%nat with (S (S m)) by lia.
  replace (m + 3)%nat with (S (S (S m))) by lia.
  split; assumption.
Qed.

Lemma script_send_bytes (data : list Z) (offset : Z) (n : nat) :
  forall (j : Z) (c : chip (list Z)) (m : nat),
    device (_driver c) = drop m replies ->
    device (_driver (send_bytes n j c data offset)) = drop (m + n) replies.
Proof.
  induction n as [|n IH]; intros j c m Hd; cbn [send_bytes].
  - now rewrite Nat.add_0_r.
  - destruct (script_transfer m (data !!! Z.to_nat (offset + j)) c Hd) as [_ H1].
    rewrite (IH _ _ (S m) H1). f_equal. lia.
Qed.

Lemma script_write_frame (m : nat) (c : chip (list Z)) (address offset : Z)
    (n : nat) (data : list Z) :
  device (_driver c) = drop m replies ->
  device (_driver
            (drv_deselect
               (send_bytes n 0
                  (snd (drv_transfer (u8 (Z.land address 0xFF))
                          (buildAndSendInstruction WRITE address (drv_select c))))
                  data offset)))
  = drop (m + 2 + n) replies.
Proof.
  intros Hd. unfold buildAndSendInstruction. cbv zeta.
  assert (Hd0 : device (_driver (drv_select c)) = drop m replies) by exact Hd.
  destruct (script_transfer m
              (if Z.land (Z.shiftr address 8) 1 =? 0 then WRITE
               else u8 (Z.lor WRITE 8)) (drv_select c) Hd0) as [_ H1].
  destruct (script_transfer (S m) (u8 (Z.land address 0xFF)) _ H1) as [_ H2].
  change (device (_driver (drv_deselect ?x))) with (device (_driver x)).
  rewrite (script_send_bytes data offset n 0 _ (S (S m)) H2). f_equal. lia.
Qed.

(** The polling loop on the script: [p] status reads, the last of which
    shows WIP clear. *)
Lemma script_wait (p : nat) : forall (fuel : nat) (c : chip (list Z)) (m : nat),
  (1 <= p <= fuel)%nat ->
  device (_driver c) = drop m replies ->
  (forall j : nat, (j + 1 < p)%nat ->
     Z.land (u8 (nth (m + 1 + 2 * j) replies 0)) WIP <> 0) ->
  Z.land (u8 (nth (m + 1 + 2 * (p - 1)) replies 0)) WIP = 0 ->
  exists c',
    wait fuel c = Some c'
    /\ device (_driver c') = drop (m + 2 * p) replies
    /\ trace c' = trace c ++ concat (replicate p status_frame)
    /\ _errorCode c' = _errorCode c.
Proof.
  induction p as [|p IH]; intros fuel c m Hp Hd Hbusy Hdone; [lia|].
  destruct fuel as [|fuel]; [lia|]. cbn [wait].
  destruct (script_readStatus m c Hd) as [Hs Hd'].
  rewrite Hs.
  destruct p as [|p].
  - replace (m + 1 + 2 * (1 - 1))%nat with (S m) in Hdone by lia.
    rewrite Hdone. cbn [Z.eqb]. eexists. split; [reflexivity|].
    split; [rewrite Hd'; f_equal; lia|].
    split; [|reflexivity].
    rewrite trace_readStatus. cbn [replicate concat]. now rewrite app_nil_r.
  - pose proof (Hbusy 0%nat ltac:(lia)) as H0.
    replace (m + 1 + 2 * 0)%nat with (S m) in H0 by lia.
    destruct (Z.eqb_spec (Z.land (u8 (nth (S m) replies 0)) WIP) 0);
      [contradiction|].
    destruct (IH fuel (snd (readStatus c)) (S (S m))) as (c' & Hw & Hdev & Ht & He).
    + lia.
    + exact Hd'.
    + intros j Hj. specialize (Hbusy (S j) ltac:(lia)).
      replace (S (S m) + 1 + 2 * j)%nat with (m + 1 + 2 * S j)%nat by lia.
      exact Hbusy.
    + replace (S (S m) + 1 + 2 * (S p - 1))%nat
        with (m + 1 + 2 * (S (S p) - 1))%nat by lia.
      exact Hdone.
    + exists c'. split; [exact Hw|].
      split; [rewrite Hdev; f_equal; lia|].
      split; [|now rewrite He].
      rewrite Ht, trace_readStatus. cbn [replicate concat].
      now rewrite <- !app_assoc.
Qed.

(** The loop of [writeArray] on the script: the rounds of the first [k]
    chunks pass, the WEL check of the next one fails. *)
Lemma writeArray_loop_script (fuel : nat) (a0 : Z) (data : list Z) (rounds : nat) :
  forall (k : nat) (polls : list nat) (c : chip (list Z)) (address length : Z)
         (m : nat),
    0 <= a0 <= address -> address + length <= 512 ->
    0 <= length <= Z.of_nat rounds ->
    address - a0 + length <= Z.of_nat (List.length data) ->
    device (_driver c) = drop m replies ->
    (k < List.length (chunks rounds address length))%nat ->
    List.length polls = k ->
    Forall (fun p => (1 <= p <= fuel)%nat) polls ->
    rounds_pass replies m (take k (chunks rounds address length)) polls ->
    wel_fails replies
      (m + round_transfers (take k (chunks rounds address length)) polls) ->
    exists c',
      writeArray_loop fuel rounds c address (address - a0) length data = Some c'
      /\ _errorCode c' = WRITE_NOT_ENABLED
      /\ trace c'
         = trace c
           ++ rounds_ops a0 data (take k (chunks rounds address length)) polls
           ++ wel_check.
Proof.
  induction rounds as [|rounds IH];
    intros k polls c address length m Ha Hr Hl Hd Hdev Hk Hlen Hall Hpass Hfail;
    cbn [chunks] in *; [cbn in Hk; lia|].
  cbn [writeArray_loop].
  destruct (Z.gtb_spec length 0) as [Hpos|Hzero]; [|cbn in Hk; lia].
  destruct (chunk_bounds address length Hpos) as (Hchunk & Hc1 & Hc2).
  cbv zeta in *. rewrite Hchunk.
  set (chunk := Z.min (16 - address mod 16) length) in *.
  destruct (script_wel_check m c Hdev) as [Hs Hdev3]. rewrite Hs.
  destruct k as [|k].
  - destruct polls; [|discriminate].
    cbn [take round_transfers rounds_ops app] in *. unfold wel_fails in Hfail.
    rewrite Nat.add_0_r in Hfail. rewrite Hfail. cbn [Z.eqb].
    eexists. split; [reflexivity|]. split; [reflexivity|].
    rewrite trace_set_error. apply trace_wel_check.
  - destruct polls as [|p polls]; [discriminate|].
    cbn [take round_transfers rounds_pass rounds_ops] in *.
    destruct Hpass as [(Hwel & Hbusy & Hdone) Hpass].
    inversion Hall as [|? ? Hp Hall']; subst.
    destruct (Z.eqb_spec (Z.land (u8 (nth (m + 2) replies 0)) WEL) 0);
      [contradiction|].
    destruct (trace_write_frame
                (snd (readStatus (drv_deselect
                   (snd (drv_transfer WREN (drv_select c))))))
                address (address - a0) chunk data) as [Htw Hew]; [lia|lia|lia|].
    pose proof (script_write_frame (m + 3) _ address (address - a0)
                  (Z.to_nat chunk) data Hdev3) as Hdev6.
    destruct (script_wait p fuel _ (m + 3 + 2 + Z.to_nat chunk) Hp Hdev6)
      as (c7 & Hwait & Hdev7 & Ht7 & He7).
    + intros j Hj. specialize (Hbusy j Hj).
      replace (m + 3 + 2 + Z.to_nat chunk + 1 + 2 * j)%nat
        with (m + 6 + Z.to_nat chunk + 2 * j)%nat by lia.
      exact Hbusy.
    + replace (m + 3 + 2 + Z.to_nat chunk + 1 + 2 * (p - 1))%nat
        with (m + 6 + Z.to_nat chunk + 2 * (p - 1))%nat by lia.
      exact Hdone.
    + rewrite Hwait.
      assert (Hu1 : u16 (address + chunk) = address + chunk)
        by (unfold u16; apply Z.mod_small; lia).
      assert (Hu2 : u16 (address - a0 + chunk) = address + chunk - a0)
        by (unfold u16; rewrite Z.mod_small by lia; lia).
      assert (Hu3 : u16 (length - chunk) = length - chunk)
        by (unfold u16; apply Z.mod_small; lia).
      rewrite Hu1, Hu2, Hu3.
      destruct (IH k polls c7 (address + chunk) (length - chunk)
                  (m + (5 + Z.to_nat chunk + 2 * p))%nat)
        as (c' & Hrun & Herr & Ht); try lia.
      * rewrite Hdev7. f_equal. lia.
      * cbn [List.length] in Hk. lia.
      * cbn [List.length] in Hlen. lia.
      * exact Hall'.
      * exact Hpass.
      * unfold wel_fails in *.
        replace (m + (5 + Z.to_nat chunk + 2 * p)
                 + round_transfers
                     (take k (chunks rounds (address + chunk) (length - chunk)))
                     polls + 2)%nat
          with (m + (5 + Z.to_nat chunk + 2 * p
                     + round_transfers
                         (take k (chunks rounds (address + chunk) (length - chunk)))
                         polls) + 2)%nat by lia.
        exact Hfail.
      * exists c'. split; [exact Hrun|]. split; [exact Herr|].
        rewrite Ht, Ht7, Htw, trace_wel_check. unfold chunk_round.
        now rewrite <- !app_assoc.
Qed.

End Script.

(** C10: [writeArray] is not atomic across chunks.  On any device, an
    in-range run that returns with [WRITE_NOT_ENABLED] has put on the bus
    the complete rounds of the first [k] chunks, WIP polling included, for
    some [k] below the number of chunks, then the WREN frame and status
    read of the failed WEL check, and nothing of chunk [k] or of any later
    chunk; more fuel for the polling loops gives the same result.  And
    such runs happen for every [k]: when the device's answers let the
    rounds of the first [k] chunks pass, with WEL set in each WEL check and
    WIP clear in the last poll of each round, and show WEL clear in the
    WEL check before chunk [k], the call returns with [WRITE_NOT_ENABLED]
    after exactly those [k] rounds and the failed check, the bytes of the
    first [k] chunks sent and none of the others. *)
Theorem writeArray_not_atomic (address length : Z) (data : list Z) :
  0 <= address -> 0 < length -> address + length - 1 <= MAX_ADDR ->
  length <= Z.of_nat (List.length data) ->
  (forall (D : Type) (H : IDriver D) (fuel : nat) (c c' : chip D),
     writeArray fuel c address length (Some data) = Some c' ->
     checkError c' = WRITE_NOT_ENABLED ->
     (exists (k : nat) (polls : list nat),
        (k < List.length (chunks (Z.to_nat length) address length))%nat
        /\ List.length polls = k
        /\ Forall (fun m => (1 <= m <= fuel)%nat) polls
        /\ trace c'
           = trace c
             ++ rounds_ops address data
                  (take k (chunks (Z.to_nat length) address length)) polls
             ++ wel_check)
     /\ forall fuel' : nat,
          (fuel <= fuel')%nat ->
          writeArray fuel' c address length (Some data) = Some c')
  /\ (forall (k : nat) (polls : list nat) (replies : list Z) (fuel : nat),
        (k < List.length (chunks (Z.to_nat length) address length))%nat ->
        List.length polls = k ->
        Forall (fun p => (1 <= p <= fuel)%nat) polls ->
        rounds_pass replies 0
          (take k (chunks (Z.to_nat length) address length)) polls ->
        wel_fails replies
          (round_transfers
             (take k (chunks (Z.to_nat length) address length)) polls) ->
        exists c',
          writeArray fuel (scripted_chip replies) address length (Some data)
          = Some c'
          /\ checkError c' = WRITE_NOT_ENABLED
          /\ trace c'
             = rounds_ops address data
                 (take k (chunks (Z.to_nat length) address length)) polls
               ++ wel_check).
Proof.
  intros Ha Hl Hr Hd. split.
  - intros D H fuel c c' Hrun Herr. split.
    + destruct (writeArray_run fuel c c' address length data Ha Hl Hr Hd Hrun)
        as (k & polls & Hk & Hlen & Hall & Ht & He).
      unfold checkError in Herr. rewrite Herr in He.
      destruct (Nat.ltb_spec k
                  (List.length (chunks (Z.to_nat length) address length)));
        [|discriminate].
      exists k, polls. auto.
    + intros fuel' Hle. rewrite writeArray_in_range in * by assumption.
      now apply (writeArray_loop_more_fuel fuel fuel').
  - intros k polls replies fuel Hk Hlen Hall Hpass Hfail.
    rewrite writeArray_in_range by assumption. unfold MAX_ADDR in Hr.
    destruct (writeArray_loop_script replies fuel address data (Z.to_nat length)
                k polls (scripted_chip replies) address length 0%nat)
      as (c' & Hrun & Herr & Ht); try assumption; try lia.
    + reflexivity.
    + rewrite Z.sub_diag in Hrun. exists c'. split; [exact Hrun|].
      split; [exact Herr|]. exact Ht.
Qed.

(** C4, as the code has it: the operands of the range check of
    [readArray] and [writeArray] are promoted to [int], so the check does
    not wrap at 16 bits, and every request that runs past [MAX_ADDR] is
    refused with [ADDRESS_OUT_OF_RANGE] before any bus traffic, also when
    [address + length] needs more than 16 bits. *)
Theorem range_check_no_wraparound (D : Type) `{IDriver D} (fuel : nat)
    (c : chip D) (address length : Z) (out data : option (list Z)) :
  0 <= address < 65536 -> 0 < length < 65536 ->
  MAX_ADDR < address + length - 1 ->
  readArray c address length out = (out, set_error c ADDRESS_OUT_OF_RANGE)
  /\ writeArray fuel c address length data
     = Some (set_error c ADDRESS_OUT_OF_RANGE)
  /\ trace (snd (readArray c address length out)) = trace c.
Proof.
  intros Ha Hl Hr. unfold readArray, writeArray.
  destruct (Z.eqb_spec length 0); [lia|].
  destruct (Z.gtb_spec (address + length - 1) MAX_ADDR); [|lia].
  auto.
Qed.

(** C4, as the specification words it, does not hold: no address up to
    0x1FF and length whose sum needs more than 16 bits gets past the range
    check of [readArray] or of [writeArray]. *)
Lemma range_check_wraparound_refuted :
  ~ exists address length : Z,
      0 <= address <= 0x1FF /\ 0 <= length <= 65535
      /\ 65536 <= address + length
      /\ (checkError (snd (readArray example_chip address length
                             (Some (replicate 16 0))))
          <> ADDRESS_OUT_OF_RANGE
          \/ writeArray 1 example_chip address length (Some (replicate 16 0))
             <> Some (set_error example_chip ADDRESS_OUT_OF_RANGE)).
Proof.
  intros (address & length & Ha & Hl & Hsum & Hnot).
  destruct (out_of_range_refused_example address length) as [Hr Hw];
    [lia|lia|unfold MAX_ADDR; lia|].
  destruct Hnot as [Hn|Hn]; [apply Hn; now rewrite Hr|now apply Hn].
Qed.

(** ** The theorems at concrete inputs *)

Lemma writeArray_page_chunks_witness :
  0 <= 0x000E /\ 0 < 4 /\ 0x000E + 4 - 1 <= MAX_ADDR
  /\ 4 <= Z.of_nat (List.length [1; 2; 3; 4])
  /\ (always_ready Driver -> (0 < 1)%nat ->
      exists c', writeArray 1 example_chip 0x000E 4 (Some [1; 2; 3; 4]) = Some c'
                 /\ checkError c' = OK).
Proof.
  assert (H1 : 0 <= 0x000E) by lia.
  assert (H2 : 0 < 4) by lia.
  assert (H3 : 0x000E + 4 - 1 <= MAX_ADDR) by (unfold MAX_ADDR; lia).
  assert (H4 : 4 <= Z.of_nat (List.length [1; 2; 3; 4])) by (simpl; lia).
  repeat (split; [assumption|]).
  exact (proj1 (proj2 (proj2 (proj2 (proj2
           (writeArray_page_chunks Driver 1 example_chip 0x000E 4 [1; 2; 3; 4]
              H1 H2 H3 H4)))))).
Defined.

Lemma writeArray_not_atomic_witness :
  0 <= 0x000E /\ 0 < 4 /\ 0x000E + 4 - 1 <= MAX_ADDR
  /\ 4 <= Z.of_nat (List.length [1; 2; 3; 4])
  /\ exists c',
       writeArray 1 (scripted_chip [0; 0; 2]) 0x000E 4 (Some [1; 2; 3; 4])
       = Some c'
       /\ checkError c' = WRITE_NOT_ENABLED
       /\ trace c' = chunk_round 0x000E [1; 2] 1 ++ wel_check.
Proof.
  assert (H1 : 0 <= 0x000E) by lia.
  assert (H2 : 0 < 4) by lia.
  assert (H3 : 0x000E + 4 - 1 <= MAX_ADDR) by (unfold MAX_ADDR; lia).
  assert (H4 : 4 <= Z.of_nat (List.length [1; 2; 3; 4])) by (simpl; lia).
  assert (Hk : (1 < List.length (chunks (Z.to_nat 4) 0x000E 4))%nat)
    by (vm_compute; lia).
  assert (Hlen : List.length [1%nat] = 1%nat) by reflexivity.
  assert (Hall : Forall (fun p => (1 <= p <= 1)%nat) [1%nat])
    by (constructor; [lia|constructor]).
  assert (Hpass : rounds_pass [0; 0; 2] 0
                    (take 1 (chunks (Z.to_nat 4) 0x000E 4)) [1%nat]).
  { split; [|exact I]. split; [vm_compute; discriminate|].
    split; [intros j Hj; lia|vm_compute; reflexivity]. }
  assert (Hfail : wel_fails [0; 0; 2]
                    (round_transfers (take 1 (chunks (Z.to_nat 4) 0x000E 4))
                       [1%nat]))
    by (vm_compute; reflexivity).
  split; [exact H1|]. split; [exact H2|]. split; [exact H3|]. split; [exact H4|].
  exact (proj2 (writeArray_not_atomic 0x000E 4 [1; 2; 3; 4] H1 H2 H3 H4)
           1%nat [1%nat] [0; 0; 2] 1%nat Hk Hlen Hall Hpass Hfail).
Defined.

Lemma range_check_no_wraparound_witness :
  0 <= 0x1FF < 65536 /\ 0 < 0xFFFF < 65536
  /\ MAX_ADDR < 0x1FF + 0xFFFF - 1
  /\ writeArray 1 example_chip 0x1FF 0xFFFF None
     = Some (set_error example_chip ADDRESS_OUT_OF_RANGE).
Proof.
  assert (H1 : 0 <= 0x1FF < 65536) by lia.
  assert (H2 : 0 < 0xFFFF < 65536) by lia.
  assert (H3 : MAX_ADDR < 0x1FF + 0xFFFF - 1) by (unfold MAX_ADDR; lia).
  repeat (split; [assumption|]).
  exact (proj1 (proj2 (range_check_no_wraparound Driver 1 example_chip
                         0x1FF 0xFFFF None None H1 H2 H3))).
Defined.

(** On a device whose second WEL check fails, the first chunk of
    [writeArray(0x000E, 4, [1,2,3,4])] is written and the second is not. *)
Example writeArray_partial_write :
  let c' := default (scripted_chip [])
              (writeArray 1 (scripted_chip [0; 0; 2]) 0x000E 4 (Some [1; 2; 3; 4])) in
  checkError c' = WRITE_NOT_ENABLED
  /\ trace c' = chunk_round 0x000E [1; 2] 1 ++ wel_check.
Proof. vm_compute. split; reflexivity. Qed.

(** ** Single bytes *)

Section Bytes.
Context {D : Type} `{IDriver D}.

Lemma transfer_byte_range (byte : Z) (c : chip D) :
  0 <= fst (drv_transfer byte c) < 256.
Proof. cbn. unfold u8. apply Z.mod_pos_bound. lia. Qed.

Lemma trace_readByte (c : chip D) (address : Z) :
  address <= MAX_ADDR ->
  trace (snd (readByte c address))
  = trace c ++ frame [cmd_byte READ address; Z.land address 0xFF; 0xFF].
Proof.
  intros Ha. unfold readByte.
  destruct (Z.gtb_spec address MAX_ADDR); [lia|]. cbn [snd].
  rewrite trace_set_error, trace_deselect, !trace_transfer,
    trace_buildAndSendInstruction, trace_select by now left.
  rewrite u8_land_255. unfold frame. cbn [map app].
  now rewrite <- !app_assoc.
Qed.

Lemma error_readByte (c : chip D) (address : Z) :
  address <= MAX_ADDR -> _errorCode (snd (readByte c address)) = OK.
Proof.
  intros Ha. unfold readByte.
  destruct (Z.gtb_spec address MAX_ADDR); [lia|reflexivity].
Qed.

Lemma readByte_range (c : chip D) (address : Z) :
  0 <= fst (readByte c address) < 256.
Proof.
  unfold readByte. destruct (address >? MAX_ADDR); cbn [fst]; [lia|].
  apply transfer_byte_range.
Qed.

End Bytes.

(** [readByte] refuses an address above 0x1FF without touching the bus;
    for any other it sends one frame of three bytes, the READ instruction
    with address bit 8, the low address byte and a filler, reports [OK]
    and returns the byte the device answered to the filler. *)
Theorem readByte_frame {D : Type} `{IDriver D} (c : chip D) (address : Z) :
  (MAX_ADDR < address ->
     fst (readByte c address) = 0
     /\ trace (snd (readByte c address)) = trace c
     /\ checkError (snd (readByte c address)) = ADDRESS_OUT_OF_RANGE)
  /\ (address <= MAX_ADDR ->
        0 <= fst (readByte c address) < 256
        /\ trace (snd (readByte c address))
           = trace c ++ frame [cmd_byte READ address; Z.land address 0xFF; 0xFF]
        /\ checkError (snd (readByte c address)) = OK).
Proof.
  split; intros Ha.
  - unfold readByte. destruct (Z.gtb_spec address MAX_ADDR); [|lia].
    repeat split.
  - split; [apply readByte_range|]. split; [now apply trace_readByte|].
    now apply error_readByte.
Qed.

Lemma cmd_decode (instr q : Z) :
  instr = READ \/ instr = WRITE -> q = 0 \/ q = 1 ->
  Z.land (Z.lor instr (Z.shiftl (Z.land q 1) 3)) 0xF7 = instr
  /\ Z.land (Z.shiftr (Z.lor instr (Z.shiftl (Z.land q 1) 3)) 3) 1 = q.
Proof. intros [-> | ->] [-> | ->]; split; reflexivity. Qed.

(** The instruction byte and the address byte that follows it carry the
    whole 9-bit address: bit 3 of the instruction byte is address bit 8,
    the other bits are the instruction, and the second byte is the low
    eight address bits. *)
Theorem instruction_carries_address {D : Type} `{IDriver D}
    (c : chip D) (instr address : Z) :
  instr = READ \/ instr = WRITE ->
  0 <= address <= MAX_ADDR ->
  exists cmd low,
    trace (snd (drv_transfer (u8 (Z.land address 0xFF))
                  (buildAndSendInstruction instr address c)))
    = trace c ++ [OUT cmd; OUT low]
    /\ Z.land cmd 0xF7 = instr
    /\ 0 <= low < 256
    /\ 256 * Z.land (Z.shiftr cmd 3) 1 + low = address.
Proof.
  intros Hi Ha. exists (cmd_byte instr address), (Z.land address 0xFF).
  rewrite trace_transfer, trace_buildAndSendInstruction, u8_land_255 by assumption.
  rewrite <- app_assoc. split; [reflexivity|].
  unfold MAX_ADDR in Ha. unfold cmd_byte.
  change 0xFF with (Z.ones 8). rewrite Z.land_ones by lia.
  rewrite Z.shiftr_div_pow2 by lia. change (2 ^ 8) with 256.
  assert (Hq : address / 256 = 0 \/ address / 256 = 1)
    by (Z.div_mod_to_equations; lia).
  pose proof (Z.mod_pos_bound address 256 ltac:(lia)) as Hm.
  destruct (cmd_decode instr (address / 256) Hi Hq) as [Hinstr Hbit].
  rewrite Hinstr, Hbit. split; [reflexivity|]. split; [assumption|].
  Z.div_mod_to_equations. lia.
Qed.

(** ** One byte through the array calls *)

(** [writeArray] of one byte does what [writeByte] does: the same bus
    traffic, the same error code, the same wait. *)
Theorem writeArray_one_is_writeByte {D : Type} `{IDriver D}
    (fuel : nat) (c : chip D) (address byte : Z) (rest : list Z) :
  writeArray fuel c address 1 (Some (byte :: rest))
  = writeByte fuel c address byte.
Proof.
  unfold writeArray, writeByte. change (1 =? 0) with false. cbv iota.
  replace (address + 1 - 1) with address by lia.
  destruct (address >? MAX_ADDR); [reflexivity|].
  change (Z.to_nat 1) with 1%nat. cbn [writeArray_loop].
  change (1 >? 0) with true. cbv iota zeta.
  destruct (chunk_bounds address 1 ltac:(lia)) as (Hchunk & Hlo & Hhi).
  rewrite Hchunk.
  replace (Z.min (16 - address mod 16) 1) with 1 by lia.
  destruct (Z.land _ WEL =? 0); [reflexivity|].
  change (Z.to_nat 1) with 1%nat. cbn [send_bytes].
  change ((byte :: rest) !!! Z.to_nat (0 + 0)) with byte.
  destruct (wait fuel _) as [c7|]; [|reflexivity].
  change (u16 (1 - 1) >? 0) with false. reflexivity.
Qed.

(** [readArray] of one byte does what [readByte] does, and stores the
    byte in the first cell of the buffer. *)
Theorem readArray_one_is_readByte {D : Type} `{IDriver D}
    (c : chip D) (address x : Z) (rest : list Z) :
  address <= MAX_ADDR ->
  readArray c address 1 (Some (x :: rest))
  = (Some (fst (readByte c address) :: rest), snd (readByte c address)).
Proof.
  intros Ha. unfold readArray, readByte. change (1 =? 0) with false. cbv iota.
  replace (address + 1 - 1) with address by lia.
  destruct (Z.gtb_spec address MAX_ADDR); [lia|].
  change (Z.to_nat 1) with 1%nat. reflexivity.
Qed.

(** ** Arrays *)

Section Arrays.
Context {D : Type} `{IDriver D}.

Lemma read_bytes_run (n : nat) : forall (i : Z) (c : chip D) (out : list Z),
  0 <= i -> i + Z.of_nat n < 65536 ->
  trace (snd (read_bytes n i c out)) = trace c ++ map OUT (replicate n 0xFF)
  /\ _errorCode (snd (read_bytes n i c out)) = _errorCode c
  /\ length (fst (read_bytes n i c out)) = length out
  /\ (forall j : nat, (j < Z.to_nat i \/ Z.to_nat i + n <= j)%nat ->
        fst (read_bytes n i c out) !! j = out !! j)
  /\ (forall (j : nat) (v : Z), (Z.to_nat i <= j < Z.to_nat i + n)%nat ->
        fst (read_bytes n i c out) !! j = Some v -> 0 <= v < 256).
Proof.
  induction n as [|n IH]; intros i c out Hi Hn; cbn [read_bytes].
  - cbn [fst snd replicate map]. rewrite app_nil_r.
    repeat split; auto; intros; lia.
  - cbv zeta. rewrite AllocFacts.u16_small by lia.
    destruct (IH (i + 1) (snd (drv_transfer 255 c))
                (<[Z.to_nat i := fst (drv_transfer 255 c)]> out))
      as (Ht & He & Hl & Hout & Hin); [lia|lia|].
    rewrite Ht, He, Hl, trace_transfer, length_insert.
    split; [cbn [replicate map]; now rewrite <- app_assoc|].
    split; [reflexivity|]. split; [reflexivity|]. split.
    + intros j Hj. rewrite Hout by lia. apply list_lookup_insert_ne. lia.
    + intros j v Hj Hv.
      destruct (Nat.eq_dec j (Z.to_nat i)) as [->|Hne].
      * rewrite Hout in Hv by lia.
        destruct (Nat.lt_ge_cases (Z.to_nat i) (length out)) as [Hlt|Hge].
        -- rewrite list_lookup_insert_eq in Hv by assumption.
           apply (inj Some) in Hv. subst v. apply transfer_byte_range.
        -- rewrite lookup_ge_None_2 in Hv by (rewrite length_insert; lia).
           discriminate.
      * apply (Hin j v); [lia|assumption].
Qed.

End Arrays.

(** [readArray] reads any in-range span in one frame, page borders or
    not: the READ instruction with address bit 8, the low address byte and
    one filler per byte wanted.  It reports [OK], fills the first [length]
    cells of the buffer with bytes and leaves the cells after them as they
    were. *)
Theorem readArray_frame {D : Type} `{IDriver D}
    (c : chip D) (address length : Z) (buf : list Z) :
  0 < length < 65536 -> address + length - 1 <= MAX_ADDR ->
  exists (buf' : list Z) (c' : chip D),
    readArray c address length (Some buf) = (Some buf', c')
    /\ trace c'
       = trace c
         ++ frame (cmd_byte READ address :: Z.land address 0xFF
                   :: replicate (Z.to_nat length) 0xFF)
    /\ checkError c' = OK
    /\ List.length buf' = List.length buf
    /\ (forall j : nat, (Z.to_nat length <= j)%nat -> buf' !! j = buf !! j)
    /\ (forall (j : nat) (v : Z), (j < Z.to_nat length)%nat ->
          buf' !! j = Some v -> 0 <= v < 256).
Proof.
  intros Hl Hr. unfold readArray.
  destruct (Z.eqb_spec length 0); [lia|].
  destruct (Z.gtb_spec (address + length - 1) MAX_ADDR); [lia|].
  cbv zeta.
  set (c3 := snd (drv_transfer (u8 (Z.land address 255))
                    (buildAndSendInstruction READ address (drv_select c)))).
  destruct (read_bytes_run (Z.to_nat length) 0 c3 buf)
    as (Ht & He & Hlen & Hout & Hin); [lia|lia|].
  eexists _, _. split; [reflexivity|].
  rewrite trace_set_error, trace_deselect, Ht.
  split; [|split; [reflexivity|split; [assumption|split]]].
  - unfold c3. rewrite trace_transfer, trace_buildAndSendInstruction, trace_select
      by now left.
    rewrite u8_land_255. unfold frame. cbn [map app].
    now rewrite <- !app_assoc.
  - intros j Hj. apply Hout. lia.
  - intros j v Hj. apply Hin. lia.
Qed.

(** ** Bits *)

(** [writeBit] reads the byte, changes bit [index] of it to [value] and
    leaves the other seven bits as read, and writes the byte back with
    [writeByte]. *)
Theorem writeBit_changes_one_bit {D : Type} `{IDriver D}
    (fuel : nat) (c : chip D) (address index : Z) (value : bool) :
  address <= MAX_ADDR -> 0 <= index <= 7 ->
  exists byte',
    writeBit fuel c address index value
    = writeByte fuel (snd (readByte c address)) address byte'
    /\ 0 <= byte' < 256
    /\ forall k, 0 <= k ->
         Z.testbit byte' k
         = if k =? index then value else Z.testbit (fst (readByte c address)) k.
Proof.
  intros Ha Hi. unfold writeBit.
  destruct (Z.gtb_spec address MAX_ADDR); [lia|].
  destruct (Z.gtb_spec index 7); [lia|]. cbv zeta.
  pose proof (readByte_range c address) as Hb.
  set (b := fst (readByte c address)) in *.
  eexists. split; [reflexivity|].
  split; [unfold u8; destruct value; apply Z.mod_pos_bound; lia|].
  assert (Hhigh : forall x k, 0 <= x < 256 -> 8 <= k -> Z.testbit x k = false).
  { intros x k Hx Hk. destruct (Z.eq_dec x 0) as [->|]; [apply Z.bits_0|].
    apply Z.bits_above_log2; [lia|].
    apply Z.lt_le_trans with 8; [|assumption].
    apply Z.log2_lt_pow2; [lia|]. simpl. lia. }
  intros k Hk. destruct (Z.lt_ge_cases k 8) as [Hlt|Hge].
  - destruct value.
    + rewrite AllocFacts.u8_testbit, Z.lor_spec by lia.
      rewrite Z.shiftl_1_l, Z.pow2_bits_eqb by lia.
      rewrite (Z.eqb_sym index k).
      destruct (k =? index); [apply orb_true_r|apply orb_false_r].
    + rewrite AllocFacts.u8_testbit, Z.land_spec, Z.lnot_spec by lia.
      rewrite Z.shiftl_1_l, Z.pow2_bits_eqb by lia.
      rewrite (Z.eqb_sym index k).
      destruct (k =? index); [apply andb_false_r|apply andb_true_r].
  - destruct (Z.eqb_spec k index); [lia|].
    rewrite (Hhigh b k Hb Hge).
    apply Hhigh; [|assumption].
    unfold u8; destruct value; apply Z.mod_pos_bound; lia.
Qed.
(** ** Whole frames, and errors before traffic *)

Section Frames.
Context {D : Type} `{IDriver D}.

Lemma released_refl (c : chip D) : released c c.
Proof. exists []. cbn. now rewrite app_nil_r. Qed.

Lemma released_trans (c c' c'' : chip D) :
  released c c' -> released c' c'' -> released c c''.
Proof.
  intros [f1 H1] [f2 H2]. exists (f1 ++ f2).
  now rewrite H2, H1, map_app, concat_app, app_assoc.
Qed.

Lemma released_frame (c c' : chip D) (bytes : list Z) :
  trace c' = trace c ++ frame bytes -> released c c'.
Proof. intros Ht. exists [bytes]. cbn. now rewrite app_nil_r. Qed.

Lemma released_trace (c c' : chip D) : trace c' = trace c -> released c c'.
Proof. intros Ht. exists []. cbn. now rewrite app_nil_r. Qed.

Lemma released_set_error (c c' : chip D) (e : error) :
  released c c' -> released c (set_error c' e).
Proof. intros [f Hf]. exists f. now rewrite trace_set_error. Qed.

Lemma released_readStatus (c : chip D) : released c (snd (readStatus c)).
Proof. apply (released_frame _ _ [RDSR; 0xFF]), trace_readStatus. Qed.

Lemma released_wait (fuel : nat) : forall c c' : chip D,
  wait fuel c = Some c' -> released c c' /\ _errorCode c' = _errorCode c.
Proof.
  induction fuel as [|fuel IH]; intros c c' Hw; cbn [wait] in Hw; [discriminate|].
  destruct (Z.land (fst (readStatus c)) WIP =? 0).
  - apply (inj Some) in Hw. subst c'. split; [apply released_readStatus|reflexivity].
  - destruct (IH _ _ Hw) as [Hr He]. split; [|now rewrite He].
    apply released_trans with (snd (readStatus c)); [apply released_readStatus|assumption].
Qed.

Lemma released_wel_check (c : chip D) :
  released c
    (snd (readStatus (drv_deselect (snd (drv_transfer WREN (drv_select c)))))).
Proof.
  apply released_trans with (drv_deselect (snd (drv_transfer WREN (drv_select c)))).
  - apply (released_frame _ _ [WREN]), trace_wren.
  - apply released_readStatus.
Qed.

Lemma released_readByte (c : chip D) (address : Z) :
  released c (snd (readByte c address)).
Proof.
  destruct (Z.le_gt_cases address MAX_ADDR) as [Ha|Ha].
  - apply (released_frame _ _ [cmd_byte READ address; Z.land address 0xFF; 0xFF]).
    now apply trace_readByte.
  - apply released_trace. unfold readByte.
    destruct (Z.gtb_spec address MAX_ADDR); [reflexivity|lia].
Qed.

(** The bytes of a chunk, whatever the buffer holds. *)
Lemma send_bytes_out (data : list Z) (offset : Z) (n : nat) :
  forall (j : Z) (c : chip D),
    exists bytes, trace (send_bytes n j c data offset) = trace c ++ map OUT bytes
                  /\ _errorCode (send_bytes n j c data offset) = _errorCode c.
Proof.
  induction n as [|n IH]; intros j c; cbn [send_bytes].
  - exists []. cbn. now rewrite app_nil_r.
  - destruct (IH (u16 (j + 1))
                (snd (drv_transfer (data !!! Z.to_nat (offset + j)) c)))
      as (bytes & Ht & He).
    exists (data !!! Z.to_nat (offset + j) :: bytes).
    rewrite Ht, He, trace_transfer. cbn [map]. now rewrite <- app_assoc.
Qed.

Lemma read_bytes_out (n : nat) : forall (i : Z) (c : chip D) (out : list Z),
  trace (snd (read_bytes n i c out)) = trace c ++ map OUT (replicate n 0xFF).
Proof.
  induction n as [|n IH]; intros i c out; cbn [read_bytes].
  - cbn. now rewrite app_nil_r.
  - cbv zeta. rewrite IH, trace_transfer. cbn [replicate map].
    now rewrite <- app_assoc.
Qed.

Lemma writeByte_cases (fuel : nat) (c c' : chip D) (address byte : Z) :
  writeByte fuel c address byte = Some c' ->
  (MAX_ADDR < address /\ c' = set_error c ADDRESS_OUT_OF_RANGE)
  \/ (address <= MAX_ADDR /\ write_result c c').
Proof.
  unfold writeByte. destruct (Z.gtb_spec address MAX_ADDR) as [Ha|Ha].
  - intros Hw. apply (inj Some) in Hw. left. now split.
  - cbv zeta. intros Hw. right. split; [assumption|].
    pose proof (released_wel_check c) as Hwel.
    destruct (Z.land _ WEL =? 0).
    + apply (inj Some) in Hw. subst c'.
      split; [now apply released_set_error|now right].
    + destruct (wait fuel _) as [c7|] eqn:Hwait; [|discriminate].
      apply (inj Some) in Hw. subst c'.
      destruct (released_wait _ _ _ Hwait) as [Hr _].
      split; [|now left]. apply released_set_error.
      eapply released_trans; [exact Hwel|].
      eapply released_trans; [|exact Hr].
      apply (released_frame _ _ [cmd_byte WRITE address; Z.land address 0xFF; byte]).
      rewrite trace_deselect, !trace_transfer, trace_buildAndSendInstruction,
        trace_select by now right.
      rewrite u8_land_255. unfold frame. cbn [map app].
      now rewrite <- !app_assoc.
Qed.

Lemma writeArray_loop_cases (fuel : nat) (data : list Z) (rounds : nat) :
  forall (c c' : chip D) (address offset length : Z),
    writeArray_loop fuel rounds c address offset length data = Some c' ->
    write_result c c'.
Proof.
  induction rounds as [|rounds IH]; intros c c' address offset length Hrun;
    cbn [writeArray_loop] in Hrun; destruct (length >? 0).
  - discriminate.
  - apply (inj Some) in Hrun. subst c'.
    split; [apply released_set_error, released_refl|now left].
  - cbv zeta in Hrun.
    pose proof (released_wel_check c) as Hwel.
    destruct (Z.land _ WEL =? 0).
    + apply (inj Some) in Hrun. subst c'.
      split; [now apply released_set_error|now right].
    + destruct (wait fuel _) as [c7|] eqn:Hwait; [|discriminate].
      destruct (released_wait _ _ _ Hwait) as [Hr _].
      destruct (IH _ _ _ _ _ Hrun) as [Hrest He].
      split; [|assumption].
      eapply released_trans; [exact Hwel|].
      eapply released_trans; [|eapply released_trans; [exact Hr|exact Hrest]].
      match goal with
      | |- released ?c0 (drv_deselect (send_bytes ?n 0 ?c4 data offset)) =>
          destruct (send_bytes_out data offset n 0 c4) as (bytes & Ht & _);
          apply (released_frame _ _
                   (cmd_byte WRITE address :: Z.land address 0xFF :: bytes))
      end.
      rewrite trace_deselect, Ht, trace_transfer, trace_buildAndSendInstruction,
        trace_select by now right.
      rewrite u8_land_255. unfold frame. cbn [map app].
      now rewrite <- !app_assoc.
  - apply (inj Some) in Hrun. subst c'.
    split; [apply released_set_error, released_refl|now left].
Qed.

Lemma writeArray_cases (fuel : nat) (c c' : chip D) (address length : Z)
    (data : option (list Z)) :
  writeArray fuel c address length data = Some c' ->
  (trace c' = trace c /\ _errorCode c' <> WRITE_NOT_ENABLED)
  \/ write_result c c'.
Proof.
  unfold writeArray.
  destruct (length =? 0);
    [intros Hw; apply (inj Some) in Hw; subst c'; left; split;
       [reflexivity|discriminate]|].
  destruct (address + length - 1 >? MAX_ADDR);
    [intros Hw; apply (inj Some) in Hw; subst c'; left; split;
       [reflexivity|discriminate]|].
  destruct data as [buf|];
    [|intros Hw; apply (inj Some) in Hw; subst c'; left; split;
       [reflexivity|discriminate]].
  intros Hw. right. now apply writeArray_loop_cases in Hw.
Qed.

Lemma writeBit_cases (fuel : nat) (c c' : chip D) (address index : Z)
    (value : bool) :
  writeBit fuel c address index value = Some c' ->
  (trace c' = trace c /\ _errorCode c' <> WRITE_NOT_ENABLED)
  \/ write_result c c'.
Proof.
  unfold writeBit.
  destruct (Z.gtb_spec address MAX_ADDR);
    [intros Hw; apply (inj Some) in Hw; subst c'; left; split;
       [reflexivity|discriminate]|].
  destruct (index >? 7);
    [intros Hw; apply (inj Some) in Hw; subst c'; left; split;
       [reflexivity|discriminate]|].
  cbv zeta. intros Hw. right.
  apply writeByte_cases in Hw as [[Hgt _]|[_ [Hr He]]]; [lia|].
  split; [|assumption].
  eapply released_trans; [apply released_readByte|exact Hr].
Qed.

Lemma released_readBit (c : chip D) (address index : Z) :
  released c (snd (readBit c address index)).
Proof.
  unfold readBit.
  destruct (address >? MAX_ADDR); [apply released_set_error, released_refl|].
  destruct (index >? 7); [apply released_set_error, released_refl|].
  apply released_readByte.
Qed.

Lemma released_readArray (c : chip D) (address length : Z)
    (out : option (list Z)) :
  released c (snd (readArray c address length out)).
Proof.
  unfold readArray.
  destruct (length =? 0); [apply released_set_error, released_refl|].
  destruct (address + length - 1 >? MAX_ADDR);
    [apply released_set_error, released_refl|].
  destruct out as [buf|]; [|apply released_set_error, released_refl].
  cbv zeta. cbn [snd].
  apply released_set_error.
  apply (released_frame _ _
           (cmd_byte READ address :: Z.land address 0xFF
            :: replicate (Z.to_nat length) 0xFF)).
  rewrite trace_deselect, read_bytes_out, trace_transfer,
    trace_buildAndSendInstruction, trace_select by now left.
  rewrite u8_land_255. unfold frame. cbn [map app].
  now rewrite <- !app_assoc.
Qed.

Lemma not_argument_error (e : error) :
  e = OK \/ e = WRITE_NOT_ENABLED -> ~ argument_error e.
Proof. intros [-> | ->] [He|[He|He]]; discriminate. Qed.

End Frames.

(** No call of the driver returns with chip select low: whatever a call
    puts on the bus is a sequence of whole frames, also when it ends in
    an error. *)
Theorem chip_select_released {D : Type} `{IDriver D}
    (fuel : nat) (c : chip D) (address length index byte : Z) (value : bool)
    (buf : option (list Z)) :
  released c (snd (readStatus c))
  /\ released c (snd (readByte c address))
  /\ released c (snd (readBit c address index))
  /\ released c (snd (readArray c address length buf))
  /\ (forall c', writeByte fuel c address byte = Some c' -> released c c')
  /\ (forall c', writeBit fuel c address index value = Some c' -> released c c')
  /\ (forall c', writeArray fuel c address length buf = Some c' -> released c c').
Proof.
  split; [apply released_readStatus|].
  split; [apply released_readByte|].
  split; [apply released_readBit|].
  split; [apply released_readArray|].
  split; [|split]; intros c' Hw.
  - apply writeByte_cases in Hw as [[_ ->]|[_ [Hr _]]];
      [apply released_set_error, released_refl|assumption].
  - apply writeBit_cases in Hw as [[Ht _]|[Hr _]];
      [now apply released_trace|assumption].
  - apply writeArray_cases in Hw as [[Ht _]|[Hr _]];
      [now apply released_trace|assumption].
Qed.

(** A call that reports a bad argument ([ADDRESS_OUT_OF_RANGE],
    [INDEX_BIT_OUT_OF_RANGE] or [NULL_POINTER]) has put nothing on the
    bus. *)
Theorem argument_errors_before_traffic {D : Type} `{IDriver D}
    (fuel : nat) (c : chip D) (address length index byte : Z) (value : bool)
    (buf : option (list Z)) :
  (argument_error (checkError (snd (readByte c address))) ->
     trace (snd (readByte c address)) = trace c)
  /\ (argument_error (checkError (snd (readBit c address index))) ->
        trace (snd (readBit c address index)) = trace c)
  /\ (argument_error (checkError (snd (readArray c address length buf))) ->
        trace (snd (readArray c address length buf)) = trace c)
  /\ (forall c', writeByte fuel c address byte = Some c' ->
        argument_error (checkError c') -> trace c' = trace c)
  /\ (forall c', writeBit fuel c address index value = Some c' ->
        argument_error (checkError c') -> trace c' = trace c)
  /\ (forall c', writeArray fuel c address length buf = Some c' ->
        argument_error (checkError c') -> trace c' = trace c).
Proof.
  assert (Hok : ~ argument_error OK) by (apply not_argument_error; now left).
  assert (Hrb : forall a, argument_error (checkError (snd (readByte c a))) ->
                  trace (snd (readByte c a)) = trace c).
  { intros a. unfold readByte.
    destruct (a >? MAX_ADDR); [reflexivity|]. cbn [snd checkError set_error _errorCode].
    intros He. now destruct Hok. }
  split; [apply Hrb|]. split; [|split; [|split; [|split]]].
  - unfold readBit. destruct (address >? MAX_ADDR); [reflexivity|].
    destruct (index >? 7); [reflexivity|]. cbn [snd]. apply Hrb.
  - unfold readArray. destruct (length =? 0); [reflexivity|].
    destruct (address + length - 1 >? MAX_ADDR); [reflexivity|].
    destruct buf; [|reflexivity].
    cbn [snd checkError set_error _errorCode]. intros He. now destruct Hok.
  - intros c' Hw He.
    apply writeByte_cases in Hw as [[_ ->]|[_ [_ Hwr]]]; [reflexivity|].
    now destruct (not_argument_error _ Hwr).
  - intros c' Hw He.
    apply writeBit_cases in Hw as [[Ht _]|[_ Hwr]]; [assumption|].
    now destruct (not_argument_error _ Hwr).
  - intros c' Hw He.
    apply writeArray_cases in Hw as [[Ht _]|[_ Hwr]]; [assumption|].
    now destruct (not_argument_error _ Hwr).
Qed.
Lemma shifted_bit (x index : Z) :
  0 <= index -> negb (Z.land (Z.shiftr x index) 1 =? 0) = Z.testbit x index.
Proof.
  intros Hi. change 1 with (Z.shiftl 1 0) at 1.
  rewrite AllocFacts.land_bit_eq0 by lia.
  rewrite negb_involutive, Z.shiftr_spec by lia. f_equal.
Qed.

(** [readBit] with an index of 0 to 7 does what [readByte] does and
    returns bit [index] of the byte; for an address that [readByte]
    refuses it returns 0 with the same error. *)
Theorem readBit_is_bit_of_readByte {D : Type} `{IDriver D}
    (c : chip D) (address index : Z) :
  0 <= index <= 7 ->
  readBit c address index
  = (Z.testbit (fst (readByte c address)) index, snd (readByte c address)).
Proof.
  intros Hi. unfold readBit.
  destruct (Z.gtb_spec address MAX_ADDR) as [Ha|Ha].
  - unfold readByte. destruct (Z.gtb_spec address MAX_ADDR); [|lia].
    cbn [fst snd]. now rewrite Z.bits_0.
  - destruct (Z.gtb_spec index 7); [lia|]. cbv zeta.
    now rewrite shifted_bit by lia.
Qed.

(** ** The theorems at work on the [Driver] of example.cpp *)

Lemma instruction_carries_address_witness :
  (READ = READ \/ READ = WRITE) /\ 0 <= 0x1AB <= MAX_ADDR
  /\ exists cmd low,
       trace (snd (drv_transfer (u8 (Z.land 0x1AB 0xFF))
                     (buildAndSendInstruction READ 0x1AB example_chip)))
       = trace example_chip ++ [OUT cmd; OUT low]
       /\ Z.land cmd 0xF7 = READ
       /\ 0 <= low < 256
       /\ 256 * Z.land (Z.shiftr cmd 3) 1 + low = 0x1AB.
Proof.
  assert (Hi : READ = READ \/ READ = WRITE) by (left; reflexivity).
  assert (Ha : 0 <= 0x1AB <= MAX_ADDR) by (unfold MAX_ADDR; lia).
  split; [exact Hi|]. split; [exact Ha|].
  exact (instruction_carries_address example_chip READ 0x1AB Hi Ha).
Defined.

Lemma readArray_one_is_readByte_witness :
  0x1FF <= MAX_ADDR
  /\ readArray example_chip 0x1FF 1 (Some [0; 7])
     = (Some [fst (readByte example_chip 0x1FF); 7],
        snd (readByte example_chip 0x1FF)).
Proof.
  assert (Ha : 0x1FF <= MAX_ADDR) by (unfold MAX_ADDR; lia).
  split; [exact Ha|].
  exact (readArray_one_is_readByte example_chip 0x1FF 0 [7] Ha).
Defined.

Lemma readArray_frame_witness :
  0 < 20 < 65536 /\ 0x00E + 20 - 1 <= MAX_ADDR
  /\ exists (buf' : list Z) (c' : chip Driver),
       readArray example_chip 0x00E 20 (Some (replicate 24 0)) = (Some buf', c')
       /\ trace c'
          = trace example_chip
            ++ frame (cmd_byte READ 0x00E :: Z.land 0x00E 0xFF
                      :: replicate (Z.to_nat 20) 0xFF)
       /\ checkError c' = OK
       /\ List.length buf' = List.length (replicate 24 0)
       /\ (forall j : nat, (Z.to_nat 20 <= j)%nat ->
             buf' !! j = replicate 24 0 !! j)
       /\ (forall (j : nat) (v : Z), (j < Z.to_nat 20)%nat ->
             buf' !! j = Some v -> 0 <= v < 256).
Proof.
  assert (Hl : 0 < 20 < 65536) by lia.
  assert (Hr : 0x00E + 20 - 1 <= MAX_ADDR) by (unfold MAX_ADDR; lia).
  split; [exact Hl|]. split; [exact Hr|].
  exact (readArray_frame example_chip 0x00E 20 (replicate 24 0) Hl Hr).
Defined.

Lemma writeBit_changes_one_bit_witness :
  0x010 <= MAX_ADDR /\ 0 <= 5 <= 7
  /\ exists byte',
       writeBit 1 example_chip 0x010 5 true
       = writeByte 1 (snd (readByte example_chip 0x010)) 0x010 byte'
       /\ 0 <= byte' < 256
       /\ forall k, 0 <= k ->
            Z.testbit byte' k
            = if k =? 5 then true
              else Z.testbit (fst (readByte example_chip 0x010)) k.
Proof.
  assert (Ha : 0x010 <= MAX_ADDR) by (unfold MAX_ADDR; lia).
  assert (Hi : 0 <= 5 <= 7) by lia.
  split; [exact Ha|]. split; [exact Hi|].
  exact (writeBit_changes_one_bit 1 example_chip 0x010 5 true Ha Hi).
Defined.
Lemma readBit_is_bit_of_readByte_witness :
  0 <= 1 <= 7
  /\ readBit example_chip 0x000 1
     = (Z.testbit (fst (readByte example_chip 0x000)) 1,
        snd (readByte example_chip 0x000)).
Proof.
  assert (Hi : 0 <= 1 <= 7) by lia.
  split; [exact Hi|].
  exact (readBit_is_bit_of_readByte example_chip 0x000 1 Hi).
Defined.

End EEPROMFacts.

(** * Facts about the NOR driver *)

Module NORFacts.
Import Bus NOR.

(** C2 fails on one family of inputs.  [address + length - 1] is computed
    in 32-bit unsigned arithmetic: for [address = 0xFFFFFFFF] and
    [length = 2] it wraps to 0, the range check passes, and the page check
    latches [OUT_OF_PAGE], although the address is beyond the device;
    the same address with [length = 1], and [readByte] at that address,
    latch [ADDRESS_OUT_OF_RANGE]. *)
Theorem pageProgram_range_check_wraps (D : Type) `{IDriver D} (fuel : nat)
    (c : chip D) (data : option (list Z)) :
  pageProgram fuel c 0xFFFFFFFF data 2 = Some (set_error c OUT_OF_PAGE)
  /\ pageProgram fuel c 0xFFFFFFFF data 1 = Some (set_error c ADDRESS_OUT_OF_RANGE)
  /\ readByte c 0xFFFFFFFF = (0, set_error c ADDRESS_OUT_OF_RANGE)
  /\ MAX_ADDR < 0xFFFFFFFF + 2 - 1.
Proof. repeat split. Qed.

(** ** What each call of the NOR driver adds to the bus *)

Section Traffic.
Context {D : Type} `{IDriver D}.

Lemma nor_trace_select (c : chip D) : trace (drv_select c) = trace c ++ [CS_LOW].
Proof. unfold trace, ops. simpl. now rewrite map_app. Qed.

Lemma nor_trace_deselect (c : chip D) :
  trace (drv_deselect c) = trace c ++ [CS_HIGH].
Proof. unfold trace, ops. simpl. now rewrite map_app. Qed.

Lemma nor_trace_transfer (byte : Z) (c : chip D) :
  trace (snd (drv_transfer byte c)) = trace c ++ [OUT byte].
Proof. unfold trace, ops. simpl. now rewrite map_app. Qed.

Lemma nor_trace_set_error (c : chip D) (e : error) :
  trace (set_error c e) = trace c.
Proof. reflexivity. Qed.

Lemma nor_transfer_byte_range (byte : Z) (c : chip D) :
  0 <= fst (drv_transfer byte c) < 256.
Proof. cbn. unfold u8. apply Z.mod_pos_bound. lia. Qed.

Lemma nor_trace_readStatusReg1 (c : chip D) :
  trace (snd (readStatusReg1 c)) = trace c ++ status_frame.
Proof.
  unfold readStatusReg1. cbn [snd].
  rewrite nor_trace_deselect, !nor_trace_transfer, nor_trace_select.
  now rewrite <- !app_assoc.
Qed.

Lemma nor_trace_wait (fuel : nat) : forall (c c' : chip D),
  wait fuel c = Some c' ->
  _errorCode c' = _errorCode c
  /\ exists polls : nat,
       (1 <= polls <= fuel)%nat
       /\ trace c' = trace c ++ concat (replicate polls status_frame).
Proof.
  induction fuel as [|fuel IH]; intros c c' Hw; cbn [wait] in Hw; [discriminate|].
  destruct (Z.land (fst (readStatusReg1 c)) BUSY =? 0).
  - apply (inj Some) in Hw. subst c'.
    split; [reflexivity|]. exists 1%nat. split; [lia|].
    rewrite nor_trace_readStatusReg1. cbn [replicate concat]. now rewrite app_nil_r.
  - destruct (IH _ _ Hw) as (He & polls & Hp & Ht).
    split; [now rewrite He|]. exists (S polls). split; [lia|].
    rewrite Ht, nor_trace_readStatusReg1. cbn [replicate concat].
    now rewrite <- !app_assoc.
Qed.

Lemma nor_trace_writeEnable (c : chip D) :
  trace (snd (writeEnable c)) = trace c ++ wel_check
  /\ _errorCode (snd (writeEnable c)) = _errorCode c.
Proof.
  unfold writeEnable. cbn [snd]. split; [|reflexivity].
  rewrite nor_trace_readStatusReg1, nor_trace_deselect, nor_trace_transfer,
    nor_trace_select.
  unfold wel_check, frame. cbn [map app]. now rewrite <- !app_assoc.
Qed.

Lemma nor_trace_sendAddress (address : Z) (c : chip D) :
  trace (sendAddress address c) = trace c ++ map OUT (address_bytes address)
  /\ _errorCode (sendAddress address c) = _errorCode c.
Proof.
  unfold sendAddress. cbv zeta. split; [|reflexivity].
  rewrite !nor_trace_transfer. unfold address_bytes. cbn [map].
  now rewrite <- !app_assoc.
Qed.

Lemma nor_trace_readByte (c : chip D) (address : Z) :
  address <= MAX_ADDR ->
  trace (snd (readByte c address)) = trace c ++ read_frame address
  /\ _errorCode (snd (readByte c address)) = OK.
Proof.
  intros Ha. unfold readByte.
  destruct (Z.gtb_spec address MAX_ADDR); [lia|]. cbn [snd].
  split; [|reflexivity].
  rewrite nor_trace_set_error, nor_trace_deselect, nor_trace_transfer.
  destruct (nor_trace_sendAddress address (snd (drv_transfer READ (drv_select c))))
    as [-> _].
  rewrite nor_trace_transfer, nor_trace_select.
  unfold read_frame, frame. cbn [map]. rewrite map_app. cbn [map app].
  now rewrite <- !app_assoc.
Qed.

Lemma nor_send_bytes_run (data : list Z) (n : nat) : forall (i : Z) (c : chip D),
  0 <= i -> i + Z.of_nat n < 65536 ->
  i + Z.of_nat n <= Z.of_nat (length data) ->
  trace (send_bytes n i c data)
  = trace c ++ map OUT (take n (drop (Z.to_nat i) data))
  /\ _errorCode (send_bytes n i c data) = _errorCode c.
Proof.
  induction n as [|n IH]; intros i c Hi Hn Hlen; cbn [send_bytes].
  - cbn [take map]. now rewrite app_nil_r.
  - rewrite AllocFacts.u16_small by lia.
    destruct (IH (i + 1) (snd (drv_transfer (data !!! Z.to_nat i) c)))
      as [Ht He]; [lia|lia|lia|].
    rewrite Ht, He, nor_trace_transfer. split; [|reflexivity].
    rewrite <- app_assoc. f_equal.
    destruct (lookup_lt_is_Some_2 data (Z.to_nat i)) as [x Hx]; [lia|].
    rewrite (drop_S _ _ _ Hx), (list_lookup_total_correct _ _ _ Hx).
    replace (Z.to_nat (i + 1)) with (S (Z.to_nat i)) by lia.
    reflexivity.
Qed.

Lemma nor_read_bytes_run (n : nat) : forall (i : Z) (c : chip D) (out : list Z),
  0 <= i -> i + Z.of_nat n < 65536 ->
  trace (snd (read_bytes n i c out)) = trace c ++ map OUT (replicate n 0xFF)
  /\ _errorCode (snd (read_bytes n i c out)) = _errorCode c
  /\ length (fst (read_bytes n i c out)) = length out
  /\ (forall j : nat, (j < Z.to_nat i \/ Z.to_nat i + n <= j)%nat ->
        fst (read_bytes n i c out) !! j = out !! j)
  /\ (forall (j : nat) (v : Z), (Z.to_nat i <= j < Z.to_nat i + n)%nat ->
        fst (read_bytes n i c out) !! j = Some v -> 0 <= v < 256).
Proof.
  induction n as [|n IH]; intros i c out Hi Hn; cbn [read_bytes].
  - cbn [fst snd replicate map]. rewrite app_nil_r.
    repeat split; auto; intros; lia.
  - cbv zeta. rewrite AllocFacts.u16_small by lia.
    destruct (IH (i + 1) (snd (drv_transfer 255 c))
                (<[Z.to_nat i := fst (drv_transfer 255 c)]> out))
      as (Ht & He & Hl & Hout & Hin); [lia|lia|].
    rewrite Ht, He, Hl, nor_trace_transfer, length_insert.
    split; [cbn [replicate map]; now rewrite <- app_assoc|].
    split; [reflexivity|]. split; [reflexivity|]. split.
    + intros j Hj. rewrite Hout by lia. apply list_lookup_insert_ne. lia.
    + intros j v Hj Hv.
      destruct (Nat.eq_dec j (Z.to_nat i)) as [->|Hne].
      * rewrite Hout in Hv by lia.
        destruct (Nat.lt_ge_cases (Z.to_nat i) (length out)) as [Hlt|Hge].
        -- rewrite list_lookup_insert_eq in Hv by assumption.
           apply (inj Some) in Hv. subst v. apply nor_transfer_byte_range.
        -- rewrite lookup_ge_None_2 in Hv by (rewrite length_insert; lia).
           discriminate.
      * apply (Hin j v); [lia|assumption].
Qed.

Lemma read_frames_app (n m : nat) : forall address : Z,
  read_frames address (n + m)
  = read_frames address n ++ read_frames (address + Z.of_nat n) m.
Proof.
  induction n as [|n IH]; intros address; cbn [read_frames Nat.add app].
  - now rewrite Z.add_0_r.
  - rewrite IH, <- app_assoc. do 3 f_equal. lia.
Qed.

(** The compatibility check reads the bytes one by one with [readByte],
    and stops at the first one that has a 0 where the new byte has a 1. *)
Lemma isProgramCompatible_from_run (address : Z) (data : list Z) (n : nat) :
  forall (i : Z) (c : chip D),
    0 <= address -> 0 <= i -> i + Z.of_nat n < 65536 ->
    address + i + Z.of_nat n - 1 <= MAX_ADDR ->
    (fst (isProgramCompatible_from n i c address data) = true
     /\ trace (snd (isProgramCompatible_from n i c address data))
        = trace c ++ read_frames (address + i) n)
    \/ (fst (isProgramCompatible_from n i c address data) = false
        /\ exists k : nat,
             (1 <= k <= n)%nat
             /\ trace (snd (isProgramCompatible_from n i c address data))
                = trace c ++ read_frames (address + i) k).
Proof.
  induction n as [|n IH]; intros i c Ha Hi Hn Hr; cbn [isProgramCompatible_from].
  - left. cbn. now rewrite app_nil_r.
  - cbv zeta. unfold MAX_ADDR in Hr.
    assert (Hu : u32 (address + i) = address + i)
      by (unfold u32; apply Z.mod_small; lia).
    rewrite Hu.
    destruct (nor_trace_readByte c (address + i)) as [Ht He];
      [unfold MAX_ADDR; lia|].
    rewrite He. cbn [error_eqb negb].
    assert (Hone : trace (snd (readByte c (address + i)))
                   = trace c ++ read_frames (address + i) 1)
      by (cbn [read_frames]; now rewrite app_nil_r).
    destruct (negb _).
    + right. split; [reflexivity|]. exists 1%nat. split; [lia|exact Hone].
    + rewrite AllocFacts.u16_small by lia.
      destruct (IH (i + 1) (snd (readByte c (address + i))))
        as [[Hb Htr]|(Hb & k & Hk & Htr)];
        [lia|lia|lia|unfold MAX_ADDR; lia| |].
      * left. split; [assumption|]. rewrite Htr, Ht. cbn [read_frames].
        rewrite <- !app_assoc. do 2 f_equal. f_equal. lia.
      * right. split; [assumption|]. exists (S k). split; [lia|].
        rewrite Htr, Ht. cbn [read_frames].
        rewrite <- !app_assoc. do 2 f_equal. f_equal. lia.
Qed.

Lemma nor_status_always_ready (c : chip D) :
  always_ready D ->
  Z.land (fst (readStatusReg1 c)) WEL <> 0
  /\ Z.land (fst (readStatusReg1 c)) BUSY = 0.
Proof. intros Hr. unfold readStatusReg1. cbn [fst]. apply Hr. Qed.

Lemma nor_wait_always_ready (fuel : nat) (c : chip D) :
  always_ready D -> wait (S fuel) c = Some (snd (readStatusReg1 c)).
Proof.
  intros Hr. cbn [wait].
  destruct (nor_status_always_ready c Hr) as [_ ->]. reflexivity.
Qed.

Lemma erase_unit_outcome (fuel : nat) (c c' : chip D) (address unit opcode : Z) :
  erase_unit fuel c address unit opcode = Some c' ->
  erase_outcome unit opcode address c c'.
Proof.
  unfold erase_unit. destruct (Z.gtb_spec address MAX_ADDR) as [Ha|Ha].
  - intros Hr. apply (inj Some) in Hr. subst c'.
    now apply erase_out_of_range.
  - destruct (Z.eqb_spec (address mod unit) 0) as [Hm|Hm]; cbn [negb].
    2: { intros Hr. apply (inj Some) in Hr. subst c'.
         now apply erase_misaligned. }
    cbv zeta. destruct (nor_trace_writeEnable c) as [Htw Hew].
    destruct (negb (fst (writeEnable c))).
    + intros Hr. apply (inj Some) in Hr. subst c'.
      now apply erase_not_enabled.
    + destruct (wait fuel _) as [c5|] eqn:Hwait; [|discriminate].
      intros Hr. apply (inj Some) in Hr. subst c'.
      destruct (nor_trace_wait _ _ _ Hwait) as (_ & polls & Hp & Ht).
      apply (erase_done _ _ _ _ _ polls); try assumption; [reflexivity|lia|].
      rewrite nor_trace_set_error, Ht, nor_trace_deselect.
      destruct (nor_trace_sendAddress address
                  (snd (drv_transfer opcode (drv_select (snd (writeEnable c))))))
        as [-> _].
      rewrite nor_trace_transfer, nor_trace_select, Htw.
      unfold frame. cbn [map app]. now rewrite <- !app_assoc.
Qed.

End Traffic.

(** ** Reading *)

(** [readByte] refuses an address above 0xFFFFFF without touching the
    bus; for any other it sends one READ frame, the instruction, three
    address bytes and a filler, reports [OK] and returns a byte. *)
Theorem nor_read_byte_one_frame {D : Type} `{IDriver D} (c : chip D) (address : Z) :
  (MAX_ADDR < address ->
     fst (readByte c address) = 0
     /\ trace (snd (readByte c address)) = trace c
     /\ checkError (snd (readByte c address)) = ADDRESS_OUT_OF_RANGE)
  /\ (address <= MAX_ADDR ->
        0 <= fst (readByte c address) < 256
        /\ trace (snd (readByte c address))
           = trace c ++ frame (READ :: address_bytes address ++ [0xFF])
        /\ checkError (snd (readByte c address)) = OK).
Proof.
  split; intros Ha.
  - unfold readByte. destruct (Z.gtb_spec address MAX_ADDR); [|lia].
    repeat split.
  - destruct (nor_trace_readByte c address Ha) as [Ht He].
    split; [|split; assumption].
    unfold readByte. destruct (Z.gtb_spec address MAX_ADDR); [lia|].
    cbn [fst]. apply nor_transfer_byte_range.
Qed.

(** The three bytes of [sendAddress] are the 24-bit address, most
    significant byte first. *)
Theorem sendAddress_carries_address {D : Type} `{IDriver D}
    (c : chip D) (address : Z) :
  0 <= address <= MAX_ADDR ->
  exists b2 b1 b0,
    trace (sendAddress address c) = trace c ++ [OUT b2; OUT b1; OUT b0]
    /\ 0 <= b2 < 256 /\ 0 <= b1 < 256 /\ 0 <= b0 < 256
    /\ 65536 * b2 + 256 * b1 + b0 = address.
Proof.
  intros Ha. unfold MAX_ADDR in Ha.
  exists (Z.land (Z.shiftr address 16) 0xFF), (Z.land (Z.shiftr address 8) 0xFF),
    (Z.land address 0xFF).
  destruct (nor_trace_sendAddress address c) as [-> _].
  split; [reflexivity|].
  change 0xFF with (Z.ones 8). rewrite !Z.land_ones, !Z.shiftr_div_pow2 by lia.
  change (2 ^ 8) with 256. change (2 ^ 16) with 65536.
  Z.div_mod_to_equations. lia.
Qed.

(** [readArray] reads any in-range span in one FAST_READ frame: the
    instruction, three address bytes, one dummy byte and one filler per
    byte wanted.  It reports [OK], fills the first [length] cells of the
    buffer with bytes and leaves the cells after them as they were. *)
Theorem nor_fast_read_one_frame {D : Type} `{IDriver D}
    (c : chip D) (address length : Z) (buf : list Z) :
  0 <= address -> 0 < length < 65536 -> address + length - 1 <= MAX_ADDR ->
  exists (buf' : list Z) (c' : chip D),
    readArray c address length (Some buf) = (Some buf', c')
    /\ trace c'
       = trace c
         ++ frame (FAST_READ :: address_bytes address
                   ++ 0xFF :: replicate (Z.to_nat length) 0xFF)
    /\ checkError c' = OK
    /\ List.length buf' = List.length buf
    /\ (forall j : nat, (Z.to_nat length <= j)%nat -> buf' !! j = buf !! j)
    /\ (forall (j : nat) (v : Z), (j < Z.to_nat length)%nat ->
          buf' !! j = Some v -> 0 <= v < 256).
Proof.
  intros Ha Hl Hr. unfold readArray. unfold MAX_ADDR in Hr.
  destruct (Z.eqb_spec length 0); [lia|].
  assert (Hu : u32 (address + length - 1) = address + length - 1)
    by (unfold u32; apply Z.mod_small; lia).
  rewrite Hu.
  destruct (Z.gtb_spec (address + length - 1) MAX_ADDR); [unfold MAX_ADDR in *; lia|].
  cbv zeta.
  set (c4 := snd (drv_transfer 255
                    (sendAddress address
                       (snd (drv_transfer FAST_READ (drv_select c)))))).
  destruct (nor_read_bytes_run (Z.to_nat length) 0 c4 buf)
    as (Ht & He & Hlen & Hout & Hin); [lia|lia|].
  eexists _, _. split; [reflexivity|].
  rewrite nor_trace_set_error, nor_trace_deselect, Ht.
  split; [|split; [reflexivity|split; [assumption|split]]].
  - unfold c4. rewrite nor_trace_transfer.
    destruct (nor_trace_sendAddress address
                (snd (drv_transfer FAST_READ (drv_select c)))) as [-> _].
    rewrite nor_trace_transfer, nor_trace_select.
    unfold frame. cbn [map]. rewrite map_app. cbn [map app].
    now rewrite <- !app_assoc.
  - intros j Hj. apply Hout. lia.
  - intros j v Hj. apply Hin. lia.
Qed.

(** ** Erasing *)

(** [eraseSector], [eraseBlock32] and [eraseBlock64] each come to one of
    four ends: the address is beyond the device, or not a multiple of the
    unit, both without bus traffic; or WEL is not set after the
    write-enable frame and nothing more is sent; or the erase frame, the
    opcode and three address bytes, goes out after the write-enable frame
    and its status read, followed by at least one status read polling
    BUSY. *)
Theorem erase_outcomes {D : Type} `{IDriver D}
    (fuel : nat) (c c' : chip D) (address : Z) :
  (eraseSector fuel c address = Some c' ->
     erase_outcome 4096 0x20 address c c')
  /\ (eraseBlock32 fuel c address = Some c' ->
        erase_outcome 32768 0x52 address c c')
  /\ (eraseBlock64 fuel c address = Some c' ->
        erase_outcome 65536 0xD8 address c c').
Proof.
  split; [|split]; intros Hr; exact (erase_unit_outcome _ _ _ _ _ _ Hr).
Qed.

(** [eraseChip] sends the write-enable frame and reads the status; with
    WEL clear it stops with [WRITE_NOT_ENABLED], else it sends the
    one-byte CHIP_ERASE frame and polls BUSY at least once. *)
Theorem eraseChip_outcomes {D : Type} `{IDriver D}
    (fuel : nat) (c c' : chip D) :
  eraseChip fuel c = Some c' ->
  (checkError c' = WRITE_NOT_ENABLED /\ trace c' = trace c ++ wel_check)
  \/ (checkError c' = OK
      /\ exists polls : nat,
           (1 <= polls <= fuel)%nat
           /\ trace c'
              = trace c ++ wel_check ++ frame [CHIP_ERASE]
                ++ concat (replicate polls status_frame)).
Proof.
  unfold eraseChip. cbv zeta.
  destruct (nor_trace_writeEnable c) as [Htw Hew].
  destruct (negb (fst (writeEnable c))).
  - intros Hr. apply (inj Some) in Hr. subst c'. left. now split.
  - destruct (wait fuel _) as [c4|] eqn:Hwait; [|discriminate].
    intros Hr. apply (inj Some) in Hr. subst c'. right. split; [reflexivity|].
    destruct (nor_trace_wait _ _ _ Hwait) as (_ & polls & Hp & Ht).
    exists polls. split; [assumption|].
    rewrite nor_trace_set_error, Ht, nor_trace_deselect, nor_trace_transfer,
      nor_trace_select, Htw.
    unfold frame. cbn [map app]. now rewrite <- !app_assoc.
Qed.

(** ** Programming *)

(** With [address + length] inside 32 bits, a [pageProgram] call that
    returns has come to one of five ends.  Arguments beyond the device or
    over 256 bytes, and a span that crosses a 256-byte page, are refused
    without bus traffic.  Else the bytes at the target are read one by
    one; if one of them cannot take the new value the call stops with
    [NEEDS_ERASE] after that READ frame and has sent nothing else.  Else
    the write-enable frame and its status read follow, and then, with WEL
    set, one PAGE_PROGRAM frame with the three address bytes and the
    [length] data bytes, and at least one status read polling BUSY. *)
Theorem pageProgram_outcomes {D : Type} `{IDriver D}
    (fuel : nat) (c c' : chip D) (address length : Z) (buf : list Z) :
  0 <= address -> 0 < length < 65536 -> address + length <= 2 ^ 32 ->
  length <= Z.of_nat (List.length buf) ->
  pageProgram fuel c address (Some buf) length = Some c' ->
  ((MAX_ADDR < address + length - 1 \/ 256 < length)
   /\ checkError c' = ADDRESS_OUT_OF_RANGE /\ trace c' = trace c)
  \/ (address + length - 1 <= MAX_ADDR /\ length <= 256
      /\ ((256 < address mod 256 + length
           /\ checkError c' = OUT_OF_PAGE /\ trace c' = trace c)
          \/ (address mod 256 + length <= 256
              /\ ((checkError c' = NEEDS_ERASE
                   /\ exists k : nat,
                        (1 <= k <= Z.to_nat length)%nat
                        /\ trace c' = trace c ++ read_frames address k)
                  \/ (checkError c' = WRITE_NOT_ENABLED
                      /\ trace c'
                         = trace c ++ read_frames address (Z.to_nat length)
                           ++ wel_check)
                  \/ (checkError c' = OK
                      /\ exists polls : nat,
                           (1 <= polls <= fuel)%nat
                           /\ trace c'
                              = trace c
                                ++ read_frames address (Z.to_nat length)
                                ++ wel_check
                                ++ frame (PAGE_PROGRAM :: address_bytes address
                                          ++ take (Z.to_nat length) buf)
                                ++ concat (replicate polls status_frame)))))).
Proof.
  intros Ha Hl Hno Hbuf. unfold pageProgram.
  destruct (Z.eqb_spec length 0); [lia|].
  assert (Hu : u32 (address + length - 1) = address + length - 1)
    by (unfold u32; apply Z.mod_small; lia).
  rewrite Hu.
  destruct (Z.gtb_spec (address + length - 1) MAX_ADDR) as [Hr|Hr]; cbn [orb].
  { intros Hp. apply (inj Some) in Hp. subst c'. left. repeat split. now left. }
  destruct (Z.gtb_spec length 256) as [H256|H256].
  { intros Hp. apply (inj Some) in Hp. subst c'. left. repeat split. now right. }
  cbv zeta.
  assert (Hoff : Z.land address 0xFF = address mod 256)
    by (change 0xFF with (Z.ones 8); now rewrite Z.land_ones by lia).
  rewrite Hoff.
  pose proof (Z.mod_pos_bound address 256 ltac:(lia)) as Hm.
  assert (Hu2 : u32 (address mod 256 + length) = address mod 256 + length)
    by (unfold u32; apply Z.mod_small; lia).
  rewrite Hu2.
  destruct (Z.gtb_spec (address mod 256 + length) 256) as [Hpg|Hpg].
  { intros Hp. apply (inj Some) in Hp. subst c'.
    right. split; [assumption|]. split; [assumption|]. left. repeat split.
    assumption. }
  intros Hp. right. split; [assumption|]. split; [assumption|].
  right. split; [assumption|].
  unfold isProgramCompatible in Hp.
  destruct (isProgramCompatible_from_run address buf (Z.to_nat length) 0 c)
    as [[Hb Htr]|(Hb & k & Hk & Htr)]; [lia|lia|lia|lia| |];
    rewrite Hb in Hp; cbn [negb] in Hp; rewrite Z.add_0_r in Htr.
  2: { apply (inj Some) in Hp. subst c'. left. split; [reflexivity|].
       exists k. split; [assumption|exact Htr]. }
  right.
  set (c1 := snd (isProgramCompatible_from (Z.to_nat length) 0 c address buf)) in *.
  destruct (nor_trace_writeEnable c1) as [Htw Hew].
  destruct (negb (fst (writeEnable c1))).
  - apply (inj Some) in Hp. subst c'. left. split; [reflexivity|].
    rewrite nor_trace_set_error, Htw, Htr. now rewrite <- app_assoc.
  - destruct (wait fuel _) as [c6|] eqn:Hwait; [|discriminate].
    apply (inj Some) in Hp. subst c'. right. split; [reflexivity|].
    destruct (nor_trace_wait _ _ _ Hwait) as (_ & polls & Hpl & Ht).
    exists polls. split; [assumption|].
    rewrite nor_trace_set_error, Ht, nor_trace_deselect.
    destruct (nor_send_bytes_run buf (Z.to_nat length) 0
                (sendAddress address
                   (snd (drv_transfer PAGE_PROGRAM (drv_select (snd (writeEnable c1)))))))
      as [-> _]; [lia|lia|lia|].
    destruct (nor_trace_sendAddress address
                (snd (drv_transfer PAGE_PROGRAM (drv_select (snd (writeEnable c1))))))
      as [-> _].
    rewrite nor_trace_transfer, nor_trace_select, Htw, Htr.
    change (Z.to_nat 0) with 0%nat. rewrite drop_0.
    unfold frame. cbn [map]. rewrite map_app. cbn [app].
    now rewrite <- !app_assoc.
Qed.

(** On a device that always shows WEL set and BUSY clear, every program
    and erase call returns after a single status poll. *)
Theorem program_and_erase_return {D : Type} `{IDriver D}
    (fuel : nat) (c : chip D) (address length : Z) (data : option (list Z)) :
  always_ready D -> (0 < fuel)%nat ->
  (exists c', pageProgram fuel c address data length = Some c')
  /\ (exists c', eraseSector fuel c address = Some c')
  /\ (exists c', eraseBlock32 fuel c address = Some c')
  /\ (exists c', eraseBlock64 fuel c address = Some c')
  /\ (exists c', eraseChip fuel c = Some c').
Proof.
  intros Hr Hf. destruct fuel as [|fuel]; [lia|].
  assert (He : forall unit opcode,
            exists c', erase_unit (S fuel) c address unit opcode = Some c').
  { intros unit opcode. unfold erase_unit.
    destruct (address >? MAX_ADDR); [eexists; reflexivity|].
    destruct (negb (address mod unit =? 0)); [eexists; reflexivity|].
    cbv zeta. destruct (negb (fst (writeEnable c))); [eexists; reflexivity|].
    rewrite nor_wait_always_ready by assumption. eexists; reflexivity. }
  split; [|split; [apply He|split; [apply He|split; [apply He|]]]].
  - unfold pageProgram.
    destruct (length =? 0); [eexists; reflexivity|].
    destruct (_ || _); [eexists; reflexivity|]. cbv zeta.
    destruct (_ >? 256); [eexists; reflexivity|].
    destruct data as [buf|]; [|eexists; reflexivity].
    destruct (negb (fst _)); [eexists; reflexivity|].
    destruct (negb (fst (writeEnable _))); [eexists; reflexivity|].
    rewrite nor_wait_always_ready by assumption. eexists; reflexivity.
  - unfold eraseChip. cbv zeta.
    destruct (negb (fst (writeEnable c))); [eexists; reflexivity|].
    rewrite nor_wait_always_ready by assumption. eexists; reflexivity.
Qed.

(** ** Bits *)

Lemma nor_shifted_bit (x index : Z) :
  0 <= index -> negb (Z.land (Z.shiftr x index) 1 =? 0) = Z.testbit x index.
Proof.
  intros Hi. change 1 with (Z.shiftl 1 0) at 1.
  rewrite AllocFacts.land_bit_eq0 by lia.
  rewrite negb_involutive, Z.shiftr_spec by lia. f_equal.
Qed.

(** [readBit] with an index of 0 to 7 does what [readByte] does and
    returns bit [index] of the byte. *)
Theorem nor_read_bit_returns_bit {D : Type} `{IDriver D}
    (c : chip D) (address index : Z) :
  0 <= index <= 7 ->
  readBit c address index
  = (Z.testbit (fst (readByte c address)) index, snd (readByte c address)).
Proof.
  intros Hi. unfold readBit.
  destruct (Z.gtb_spec index 7); [lia|]. cbv zeta.
  now rewrite nor_shifted_bit by lia.
Qed.

(** Programming can only clear bits, and the compatibility check knows
    it: data of all zero bytes passes the check whatever the device
    holds, so [pageProgram] never asks for an erase before writing
    zeros. *)
Theorem zeros_need_no_erase {D : Type} `{IDriver D}
    (c : chip D) (address length : Z) (data : list Z) :
  0 <= address -> 0 <= length < 65536 -> address + length - 1 <= MAX_ADDR ->
  (forall i : nat, (i < Z.to_nat length)%nat -> data !!! i = 0) ->
  fst (isProgramCompatible c address data length) = true.
Proof.
  intros Ha Hl Hr Hz. unfold isProgramCompatible.
  assert (Hgen : forall (n : nat) (i : Z) (c0 : chip D),
            0 <= i -> i + Z.of_nat n = length ->
            fst (isProgramCompatible_from n i c0 address data) = true).
  { induction n as [|n IH]; intros i c0 Hi Hn; cbn [isProgramCompatible_from];
      [reflexivity|].
    cbv zeta. unfold MAX_ADDR in Hr.
    assert (Hu : u32 (address + i) = address + i)
      by (unfold u32; apply Z.mod_small; lia).
    rewrite Hu.
    destruct (nor_trace_readByte c0 (address + i)) as [_ He];
      [unfold MAX_ADDR; lia|].
    rewrite He. cbn [error_eqb negb].
    rewrite (Hz (Z.to_nat i)) by lia.
    rewrite Z.land_0_r. cbn [Z.eqb negb].
    rewrite AllocFacts.u16_small by lia. apply IH; lia. }
  apply Hgen; lia.
Qed.

(** ** The order of the checks *)

(** The two drivers order their argument checks differently.  With a
    null buffer and a span beyond the device, the EEPROM's [readArray]
    reports the range and the NOR's reports the null pointer, while the
    NOR's [pageProgram] reports the range.  With an address beyond the
    device and a bit index above 7, the EEPROM's [readBit] reports the
    address and the NOR's reports the index. *)
Theorem check_order_differs {D : Type} `{IDriver D}
    (fuel : nat) (e : EEPROM.chip D) (c : chip D)
    (eaddress address length index : Z) :
  EEPROM.MAX_ADDR < eaddress < 65536 ->
  MAX_ADDR < address -> address + length <= 2 ^ 32 ->
  0 < length < 65536 -> 7 < index < 256 ->
  EEPROM.checkError (snd (EEPROM.readArray e eaddress length None))
  = EEPROM.ADDRESS_OUT_OF_RANGE
  /\ checkError (snd (readArray c address length None)) = NULL_POINTER
  /\ pageProgram fuel c address None length
     = Some (set_error c ADDRESS_OUT_OF_RANGE)
  /\ EEPROM.checkError (snd (EEPROM.readBit e eaddress index))
     = EEPROM.ADDRESS_OUT_OF_RANGE
  /\ checkError (snd (readBit c address index)) = INDEX_BIT_OUT_OF_RANGE.
Proof.
  intros He Ha Hno Hl Hi. unfold MAX_ADDR, EEPROM.MAX_ADDR in *.
  assert (Hu : u32 (address + length - 1) = address + length - 1)
    by (unfold u32; apply Z.mod_small; lia).
  split; [|split; [|split; [|split]]].
  - unfold EEPROM.readArray, EEPROM.MAX_ADDR.
    destruct (Z.eqb_spec length 0); [lia|].
    destruct (Z.gtb_spec (eaddress + length - 1) 511); [reflexivity|lia].
  - unfold readArray. destruct (Z.eqb_spec length 0); [lia|reflexivity].
  - unfold pageProgram. destruct (Z.eqb_spec length 0); [lia|].
    rewrite Hu. unfold MAX_ADDR.
    destruct (Z.gtb_spec (address + length - 1) 16777215); [reflexivity|lia].
  - unfold EEPROM.readBit, EEPROM.MAX_ADDR.
    destruct (Z.gtb_spec eaddress 511); [reflexivity|lia].
  - unfold readBit. destruct (Z.gtb_spec index 7); [reflexivity|lia].
Qed.
(** ** The theorems at work on the [Driver] of example.cpp *)

Lemma Driver_always_ready : always_ready Driver.
Proof. intros byte d. split; [vm_compute; discriminate|vm_compute; reflexivity]. Defined.

Lemma sendAddress_carries_address_witness :
  0 <= 0x123456 <= MAX_ADDR
  /\ exists b2 b1 b0,
       trace (sendAddress 0x123456 example_chip)
       = trace example_chip ++ [OUT b2; OUT b1; OUT b0]
       /\ 0 <= b2 < 256 /\ 0 <= b1 < 256 /\ 0 <= b0 < 256
       /\ 65536 * b2 + 256 * b1 + b0 = 0x123456.
Proof.
  assert (Ha : 0 <= 0x123456 <= MAX_ADDR) by (unfold MAX_ADDR; lia).
  split; [exact Ha|].
  exact (sendAddress_carries_address example_chip 0x123456 Ha).
Defined.

Lemma nor_fast_read_one_frame_witness :
  0 <= 0xFFFFF0 /\ 0 < 16 < 65536 /\ 0xFFFFF0 + 16 - 1 <= MAX_ADDR
  /\ exists (buf' : list Z) (c' : chip Driver),
       readArray example_chip 0xFFFFF0 16 (Some (replicate 16 0)) = (Some buf', c')
       /\ trace c'
          = trace example_chip
            ++ frame (FAST_READ :: address_bytes 0xFFFFF0
                      ++ 0xFF :: replicate (Z.to_nat 16) 0xFF)
       /\ checkError c' = OK
       /\ List.length buf' = List.length (replicate 16 0)
       /\ (forall j : nat, (Z.to_nat 16 <= j)%nat ->
             buf' !! j = replicate 16 0 !! j)
       /\ (forall (j : nat) (v : Z), (j < Z.to_nat 16)%nat ->
             buf' !! j = Some v -> 0 <= v < 256).
Proof.
  assert (Ha : 0 <= 0xFFFFF0) by lia.
  assert (Hl : 0 < 16 < 65536) by lia.
  assert (Hr : 0xFFFFF0 + 16 - 1 <= MAX_ADDR) by (unfold MAX_ADDR; lia).
  split; [exact Ha|]. split; [exact Hl|]. split; [exact Hr|].
  exact (nor_fast_read_one_frame example_chip 0xFFFFF0 16 (replicate 16 0) Ha Hl Hr).
Defined.

Lemma eraseChip_outcomes_witness :
  eraseChip 1 example_chip
  = Some (default example_chip (eraseChip 1 example_chip))
  /\ ((checkError (default example_chip (eraseChip 1 example_chip))
       = WRITE_NOT_ENABLED
       /\ trace (default example_chip (eraseChip 1 example_chip))
          = trace example_chip ++ wel_check)
      \/ (checkError (default example_chip (eraseChip 1 example_chip)) = OK
          /\ exists polls : nat,
               (1 <= polls <= 1)%nat
               /\ trace (default example_chip (eraseChip 1 example_chip))
                  = trace example_chip ++ wel_check ++ frame [CHIP_ERASE]
                    ++ concat (replicate polls status_frame))).
Proof.
  assert (Hr : eraseChip 1 example_chip
               = Some (default example_chip (eraseChip 1 example_chip)))
    by (vm_compute; reflexivity).
  split; [exact Hr|].
  exact (eraseChip_outcomes 1 example_chip _ Hr).
Defined.

Lemma pageProgram_outcomes_witness :
  0 <= 0x0000FE /\ 0 < 2 < 65536 /\ 0x0000FE + 2 <= 2 ^ 32
  /\ 2 <= Z.of_nat (List.length [2; 0])
  /\ pageProgram 1 example_chip 0x0000FE (Some [2; 0]) 2
     = Some (default example_chip
               (pageProgram 1 example_chip 0x0000FE (Some [2; 0]) 2))
  /\ checkError (default example_chip
                   (pageProgram 1 example_chip 0x0000FE (Some [2; 0]) 2))
     = OK.
Proof.
  assert (Ha : 0 <= 0x0000FE) by lia.
  assert (Hl : 0 < 2 < 65536) by lia.
  assert (Hn : 0x0000FE + 2 <= 2 ^ 32) by (vm_compute; discriminate).
  assert (Hb : 2 <= Z.of_nat (List.length [2; 0])) by (simpl; lia).
  assert (Hp : pageProgram 1 example_chip 0x0000FE (Some [2; 0]) 2
               = Some (default example_chip
                         (pageProgram 1 example_chip 0x0000FE (Some [2; 0]) 2)))
    by (vm_compute; reflexivity).
  split; [exact Ha|]. split; [exact Hl|]. split; [exact Hn|]. split; [exact Hb|].
  split; [exact Hp|].
  destruct (pageProgram_outcomes 1 example_chip _ 0x0000FE 2 [2; 0] Ha Hl Hn Hb Hp)
    as [[_ [He _]]|[_ [_ [[_ [He _]]|[_ [[He _]|[[He _]|[He _]]]]]]]];
    first [exact He | vm_compute in He; discriminate He].
Defined.

Lemma program_and_erase_return_witness :
  always_ready Driver /\ (0 < 1)%nat
  /\ (exists c', pageProgram 1 example_chip 0x001000 (Some [2; 0]) 2 = Some c')
  /\ (exists c', eraseSector 1 example_chip 0x001000 = Some c')
  /\ (exists c', eraseBlock32 1 example_chip 0x001000 = Some c')
  /\ (exists c', eraseBlock64 1 example_chip 0x001000 = Some c')
  /\ (exists c', eraseChip 1 example_chip = Some c').
Proof.
  assert (Hf : (0 < 1)%nat) by lia.
  split; [exact Driver_always_ready|]. split; [exact Hf|].
  exact (program_and_erase_return 1 example_chip 0x001000 2 (Some [2; 0])
           Driver_always_ready Hf).
Defined.

Lemma check_order_differs_witness :
  EEPROM.MAX_ADDR < 0x200 < 65536
  /\ MAX_ADDR < 0x1000000 /\ 0x1000000 + 4 <= 2 ^ 32
  /\ 0 < 4 < 65536 /\ 7 < 8 < 256
  /\ EEPROM.checkError (snd (EEPROM.readArray EEPROM.example_chip 0x200 4 None))
     = EEPROM.ADDRESS_OUT_OF_RANGE
  /\ checkError (snd (readArray example_chip 0x1000000 4 None)) = NULL_POINTER.
Proof.
  assert (He : EEPROM.MAX_ADDR < 0x200 < 65536) by (unfold EEPROM.MAX_ADDR; lia).
  assert (Ha : MAX_ADDR < 0x1000000) by (unfold MAX_ADDR; lia).
  assert (Hn : 0x1000000 + 4 <= 2 ^ 32) by (vm_compute; discriminate).
  assert (Hl : 0 < 4 < 65536) by lia.
  assert (Hi : 7 < 8 < 256) by lia.
  split; [exact He|]. split; [exact Ha|]. split; [exact Hn|].
  split; [exact Hl|]. split; [exact Hi|].
  pose proof (check_order_differs 1 EEPROM.example_chip example_chip
                0x200 0x1000000 4 8 He Ha Hn Hl Hi) as (H1 & H2 & _).
  split; [exact H1|exact H2].
Defined.
Lemma nor_read_bit_returns_bit_witness :
  0 <= 1 <= 7
  /\ readBit example_chip 0x000000 1
     = (Z.testbit (fst (readByte example_chip 0x000000)) 1,
        snd (readByte example_chip 0x000000)).
Proof.
  assert (Hi : 0 <= 1 <= 7) by lia.
  split; [exact Hi|].
  exact (nor_read_bit_returns_bit example_chip 0x000000 1 Hi).
Defined.

Lemma zeros_need_no_erase_witness :
  0 <= 0x000100 /\ 0 <= 3 < 65536 /\ 0x000100 + 3 - 1 <= MAX_ADDR
  /\ (forall i : nat, (i < Z.to_nat 3)%nat -> [0; 0; 0] !!! i = 0)
  /\ fst (isProgramCompatible example_chip 0x000100 [0; 0; 0] 3) = true.
Proof.
  assert (Ha : 0 <= 0x000100) by lia.
  assert (Hl : 0 <= 3 < 65536) by lia.
  assert (Hr : 0x000100 + 3 - 1 <= MAX_ADDR) by (unfold MAX_ADDR; lia).
  assert (Hz : forall i : nat, (i < Z.to_nat 3)%nat -> [0; 0; 0] !!! i = 0).
  { intros i Hi. destruct i as [|[|[|i]]]; [reflexivity|reflexivity|reflexivity|].
    simpl in Hi. lia. }
  split; [exact Ha|]. split; [exact Hl|]. split; [exact Hr|]. split; [exact Hz|].
  exact (zeros_need_no_erase example_chip 0x000100 3 [0; 0; 0] Ha Hl Hr Hz).
Defined.

End NORFacts.
